(** * Export grouping of the photo catalogue: [MainWindow.get_images_to_export]

    Shallow embedding of the export-batching method of
    [src/monsterlangnachrumgetue.py] (lines 1221-1269) together with the
    Python primitives it relies on ([range], list slicing, list indexing),
    and the properties of the grouping it computes. *)

From Stdlib Require Import ZArith Lia.
From stdpp Require Import list strings sorting.

Local Open Scope Z_scope.

(** ** Python results: a value or a raised exception *)

Inductive exception : Type :=
  | ValueError   (* raised by [range] when its step is zero *)
  | IndexError.  (* raised by list indexing out of range *)

Inductive result (A : Type) : Type :=
  | Ok (a : A)
  | Raise (e : exception).
Arguments Ok {A} a.
Arguments Raise {A} e.

(** Sequencing: an exception raised by [r] propagates. *)
Definition bind {A B} (r : result A) (k : A → result B) : result B :=
  match r with
  | Ok a => k a
  | Raise e => Raise e
  end.

Notation "'do' x <- r ; k" := (bind r (λ x, k))
  (at level 10, x name, r at level 100, k at level 200,
   format "'[v' 'do'  x  <-  r ; '/' k ']'").


(** ** The Python primitives used by the method *)

Module Py.

(** [len(l)] *)
Definition len {A} (l : list A) : Z := Z.of_nat (length l).

(** Truth value of a list: [if l:] holds exactly for a non-empty list. *)
Definition truthy {A} (l : list A) : bool :=
  match l with
  | [] => false
  | _ :: _ => true
  end.

(** Number of elements of [range(lo, hi, step)] for a non-zero step. *)
Definition range_len (lo hi step : Z) : Z :=
  if 0 <? step then
    if lo <? hi then 1 + (hi - 1 - lo) / step else 0
  else
    if hi <? lo then 1 + (lo - 1 - hi) / (- step) else 0.

(** [range(lo, hi, step)]: the elements [lo + j*step]; a zero step raises
    [ValueError]. *)
Definition range (lo hi step : Z) : result (list Z) :=
  if step =? 0 then Raise ValueError
  else Ok ((λ j, lo + j * step) <$> seqZ 0 (range_len lo hi step)).

(** Slice bounds are clamped to [0 .. len], a negative bound counting from
    the end of the list. *)
Definition clamp (n i : Z) : Z :=
  if i <? 0 then Z.max 0 (i + n) else Z.min i n.

(** [l[lo:hi]] *)
Definition slice {A} (l : list A) (lo hi : Z) : list A :=
  let a := clamp (len l) lo in
  let b := clamp (len l) hi in
  take (Z.to_nat (b - a)) (drop (Z.to_nat a) l).

(** [l[i]]: a negative index counts from the end; out of range raises
    [IndexError]. *)
Definition getitem {A} (l : list A) (i : Z) : result A :=
  let j := if i <? 0 then i + len l else i in
  if (0 <=? j) && (j <? len l) then
    match l !! Z.to_nat j with
    | Some x => Ok x
    | None => Raise IndexError
    end
  else Raise IndexError.

(** A [for x in xs:] loop whose body updates the loop state [s] or
    raises. *)
Fixpoint for_each {S X} (body : S → X → result S) (s : S) (xs : list X)
    : result S :=
  match xs with
  | [] => Ok s
  | x :: xs' => do s' <- body s x; for_each body s' xs'
  end.

(** A list comprehension [[f(x) for x in xs]] whose element expression
    may raise. *)
Fixpoint comprehension {X Y} (f : X → result Y) (xs : list X)
    : result (list Y) :=
  match xs with
  | [] => Ok []
  | x :: xs' =>
      do y <- f x;
      do ys <- comprehension f xs';
      Ok (y :: ys)
  end.

End Py.

(** ** The scan modes offered by the export panel *)

Inductive ScanMode : Type := Single | Pair | All | GroupOfX | Alternate.

(** The texts put into [scan_mode_combo] (lines 832-835). *)
Definition mode_text (m : ScanMode) : string :=
  match m with
  | Single => "Single"
  | Pair => "Pair"
  | All => "All"
  | GroupOfX => "Group of X"
  | Alternate => "Alternate"
  end.

(** ** The part of the main window the method reads *)

Section Window.
Context {ImageItem : Type}.

Record MainWindow : Type := {
  images : list ImageItem;          (* self.images *)
  image_list_selected : list Z;     (* rows of image_list.selectedItems() *)
  scan_mode_combo : string;         (* scan_mode_combo.currentText() *)
  interval_spin : Z                 (* interval_spin.value() *)
}.

Definition get_selected_image_indices (self : MainWindow) : list Z :=
  image_list_selected self.

(** [[self.images[i] for i in indices]] *)
Definition get_selected_images (self : MainWindow) : result (list ImageItem) :=
  let indices := get_selected_image_indices self in
  Py.comprehension (Py.getitem (images self)) indices.

(** The inner loop of the "Alternate" branch: collect
    [preview_images[i]] for [i] in [range(step, len(preview_images), interval)]. *)
Definition alternate_group (preview_images : list ImageItem)
    (interval step : Z) : result (list ImageItem) :=
  do idx <- Py.range step (Py.len preview_images) interval;
  Py.for_each
    (λ group i, do x <- Py.getitem preview_images i; Ok (group ++ [x]))
    [] idx.

(** The [if mode == ...] chain of the method (lines 1235-1269), entered with
    the value of [preview_images] left by the first [if]. *)
Definition export_by_mode (self : MainWindow) (preview_images : list ImageItem)
    : result (list (list ImageItem)) :=
  let mode := scan_mode_combo self in
  if String.eqb mode "Single" then
    Ok ((λ image, [image]) <$> preview_images)
  else if String.eqb mode "Pair" then
    do idx <- Py.range 0 (Py.len preview_images) 2;
    Ok ((λ i, Py.slice preview_images i (i + 2)) <$> idx)
  else if String.eqb mode "All" then
    Ok [preview_images]
  else if String.eqb mode "Group of X" then
    let interval := interval_spin self in
    do idx <- Py.range 0 (Py.len preview_images) interval;
    Ok ((λ i, Py.slice preview_images i (i + interval)) <$> idx)
  else if String.eqb mode "Alternate" then
    let interval := interval_spin self in
    if interval <=? 1 then Ok [preview_images]
    else
      do steps <- Py.range 0 interval 1;
      Py.for_each
        (λ result step,
           do group <- alternate_group preview_images interval step;
           Ok (if Py.truthy group then result ++ [group] else result))
        [] steps
  else Ok [].

Definition get_images_to_export (self : MainWindow)
    : result (list (list ImageItem)) :=
  let mode := scan_mode_combo self in
  do preview_images <- get_selected_images self;
  if negb (Py.truthy preview_images) then
    if existsb (String.eqb mode) ["All"%string] then
      let preview_images := images self in
      export_by_mode self preview_images
    else Ok []
  else export_by_mode self preview_images.

(** The list the method groups: the selection, or every image when nothing
    is selected and the mode is "All". *)
Definition preview_fallback (self : MainWindow) (selected : list ImageItem)
    : list ImageItem :=
  if Py.truthy selected then selected
  else if String.eqb (scan_mode_combo self) "All" then images self
  else selected.

(** The window after the user has chosen a scan mode and an interval. *)
Definition choose (m : ScanMode) (interval : Z) (self : MainWindow)
    : MainWindow :=
  {| images := images self;
     image_list_selected := image_list_selected self;
     scan_mode_combo := mode_text m;
     interval_spin := interval |}.

End Window.
Arguments MainWindow ImageItem : clear implicits.

(** ** The groups as list functions

    What the comprehensions and loops of the method compute, on natural
    numbers; the lemmas below relate them to the method. *)

(** Number of elements of [range(s, n, K)] on natural numbers. *)
Definition count (s n K : nat) : nat :=
  if (s <? n)%nat then S ((n - 1 - s) / K) else 0%nat.

Section Groups.
Context {A : Type}.

(** [every_nth c K l]: the first [c] entries of [l] at positions
    [0, K, 2K, ...]. *)
Fixpoint every_nth (c K : nat) (l : list A) : list A :=
  match c with
  | O => []
  | S c' =>
      match l with
      | [] => []
      | x :: _ => x :: every_nth c' K (drop K l)
      end
  end.

(** The chunks [l[0:K], l[K:2K], ...] cut by the "Pair" and "Group of X"
    branches. *)
Definition chunks (K : nat) (l : list A) : list (list A) :=
  (λ j, take K (drop (j * K) l)) <$> seq 0 (count 0 (length l) K).

(** The groups collected by the "Alternate" loops: one per step below
    the interval that reaches into the list. *)
Definition strides (K : nat) (l : list A) : list (list A) :=
  (λ s, every_nth (count s (length l) K) K (drop s l))
    <$> seq 0 (K `min` length l).

End Groups.

(** The catalogue of the worked scenarios: seven entries, all selected. *)
Definition scenario_entries : list string :=
  ["e0"; "e1"; "e2"; "e3"; "e4"; "e5"; "e6"]%string.

Definition scenario (mode : string) (interval : Z) : MainWindow string :=
  {| images := scenario_entries;
     image_list_selected := [0; 1; 2; 3; 4; 5; 6];
     scan_mode_combo := mode;
     interval_spin := interval |}.

(** A window with no image at all. *)
Definition empty_catalogue (A : Type) (mode : string) (interval : Z)
    : MainWindow A :=
  {| images := [];
     image_list_selected := [];
     scan_mode_combo := mode;
     interval_spin := interval |}.

(** [chunked K l groups]: [groups] are the consecutive non-overlapping
    chunks of size [K] of [l], the last one possibly shorter, and there are
    [ceil (length l / K)] of them. *)
Definition chunked {A} (K : nat) (l : list A) (groups : list (list A)) : Prop :=
  (length l ≤ length groups * K ∧ length groups * K < length l + K)%nat
  ∧ (∀ j, (j < length groups)%nat →
          groups !! j = Some (take K (drop (j * K) l)))
  ∧ (∀ j g, groups !! j = Some g →
            (1 ≤ length g ≤ K)%nat
            ∧ ((S j < length groups)%nat → length g = K)).

(** ** Image objects and the export of the groups

    The rest of the file follows the other methods of
    [src/monsterlangnachrumgetue.py] that work on the catalogue. Images are
    Python objects: the lists of the window hold references to them, and the
    attributes of an object are read through the store [objects]. The Qt
    widgets are outside the model; where a method reads one, the value read
    is an argument. *)

(** A reference to an [ImageItem] object; [==] on such objects is identity. *)
Definition Ref : Type := nat.

(** A Python [dict] with [str] keys, in insertion order. *)
Definition dict (V : Type) : Type := list (string * V).

(** The attributes of an [ImageItem] (lines 62-72); [_thumbnail], a cached
    pixmap, is left out. *)
Record ImageItem : Type := {
  file_path : string;
  filename : string;
  categories : dict (list string);
  text : string;
  comment : string;
  condition : string;
  physical_size : string;
  image_size : Z * Z;
  dpi : Z
}.

(** The header row of [export_csv] (lines 1298-1301). *)
Definition csv_header : list string :=
  ["Filename(s)"; "Physical Size"; "Category"; "Text"; "Comment"; "Condition"]%string.

(** The category column (lines 1308-1311, and 642-645 of the preview
    dialog): every group with at least one value, as "group: v1, v2; ". *)
Definition categories_text (image : ImageItem) : string :=
  foldl
    (λ categories_text '(group_name, values),
       if Py.truthy values then
         categories_text +:+ group_name +:+ ": "
           +:+ String.concat ", " values +:+ "; "
       else categories_text)
    ""%string (categories image).

(** [", ".join([image.filename for image in group])] *)
Definition group_filenames (objects : Ref → ImageItem) (group : list Ref)
    : string :=
  String.concat ", " ((λ image, filename (objects image)) <$> group).

(** The body of the row loop of [export_csv] (lines 1304-1320): a group
    that is not empty adds one row to the rows [written] so far. *)
Definition write_group (objects : Ref → ImageItem)
    (written : list (list string)) (group : list Ref) : list (list string) :=
  let filenames := group_filenames objects group in
  match group with
  | [] => written
  | image :: _ =>
      written ++ [[filenames;
                   physical_size (objects image);
                   categories_text (objects image);
                   text (objects image);
                   comment (objects image);
                   condition (objects image)]]
  end.

(** The rows handed to [writer.writerow] by [export_csv] (lines 1297-1320):
    the header, then the rows of the groups. *)
Definition export_rows (objects : Ref → ImageItem)
    (groups_of_images : list (list Ref)) : list (list string) :=
  foldl (write_group objects) [csv_header] groups_of_images.

(** The category cell of [preview_csv] (lines 1384-1389): the cell is set
    inside the loop, each time a group with values has been appended. *)
Definition preview_category_cell (image : ImageItem) : option string :=
  snd (foldl
         (λ '(categories_text, cell) '(group_name, values),
            if Py.truthy values then
              let categories_text :=
                categories_text +:+ group_name +:+ ": "
                  +:+ String.concat ", " values +:+ "; " in
              (categories_text, Some categories_text)
            else (categories_text, cell))
         (""%string, None) (categories image)).

(** The table filled by [preview_csv] (lines 1370-1399): one row per group,
    six cells per row; [None] is a cell no item was set for. *)
Definition preview_rows (objects : Ref → ImageItem)
    (groups_of_images : list (list Ref)) : list (list (option string)) :=
  (λ group,
     let filenames := group_filenames objects group in
     match group with
     | [] => [Some filenames; None; None; None; None; None]
     | image :: _ =>
         [Some filenames;
          Some (physical_size (objects image));
          preview_category_cell (objects image);
          Some (text (objects image));
          Some (comment (objects image));
          Some (condition (objects image))]
     end) <$> groups_of_images.



(** The guard of [export_csv] and [preview_csv] (lines 1275 and 1344):
    [if not groups_of_images], which shows the "No images" warning. *)
Definition warns_no_images (self : MainWindow Ref) : result bool :=
  do groups_of_images <- get_images_to_export self;
  Ok (negb (Py.truthy groups_of_images)).

(** A catalogue of seven image objects, all selected, for the examples. *)
Definition scenario_window (mode : string) (interval : Z) : MainWindow Ref :=
  {| images := [0; 1; 2; 3; 4; 5; 6]%nat;
     image_list_selected := [0; 1; 2; 3; 4; 5; 6];
     scan_mode_combo := mode;
     interval_spin := interval |}.

(** Image [r] of that catalogue: file "e<r>", one category value, no text. *)
Definition scenario_objects (r : Ref) : ImageItem :=
  {| file_path := "/photos/" +:+ nth r scenario_entries ""%string;
     filename := nth r scenario_entries ""%string;
     categories := [("Type", ["Postcard"]); ("Era", [])]%string;
     text := "";
     comment := "";
     condition := "Good";
     physical_size := "10.0cm x 15.0cm";
     image_size := (1181, 1772);
     dpi := 300 |}.

(** ** Category values of the selected images

    [category_selected] and the "Remove" action of the category context
    menu change the [categories] dict of every selected image object. *)

(** What the methods below can raise: the built-in errors above, the
    [KeyError] of a dict lookup, or the [OverflowError] of an integer that
    does not fit the C [int] a Qt call takes. *)
Inductive error : Type :=
  | Builtin (e : exception)
  | KeyError (key : string)
  | OverflowError.

Inductive outcome (A : Type) : Type :=
  | Done (a : A)
  | Fails (e : error).
Arguments Done {A} a.
Arguments Fails {A} e.

Definition and_then {A B} (r : outcome A) (k : A → outcome B) : outcome B :=
  match r with
  | Done a => k a
  | Fails e => Fails e
  end.

Notation "'run' x <- r ; k" := (and_then r (λ x, k))
  (at level 10, x name, r at level 100, k at level 200,
   format "'[v' 'run'  x  <-  r ; '/' k ']'").

(** A call of one of the methods modelled with [result]. *)
Definition lift {A} (r : result A) : outcome A :=
  match r with
  | Ok a => Done a
  | Raise e => Fails (Builtin e)
  end.

(** A [for x in xs:] loop whose body may fail. *)
Fixpoint for_all {S X} (body : S → X → outcome S) (s : S) (xs : list X)
    : outcome S :=
  match xs with
  | [] => Done s
  | x :: xs' => run s' <- body s x; for_all body s' xs'
  end.

(** Truth value of a [str]: [if s:] holds for every string but "". *)
Definition str_truthy (s : string) : bool := negb (String.eqb s "").

(** [x in values] for a list of strings. *)
Definition str_in (x : string) (values : list string) : bool :=
  existsb (String.eqb x) values.

(** [values.remove(x)]: drops the first [x]; [ValueError] if there is none. *)
Fixpoint list_remove (x : string) (values : list string)
    : outcome (list string) :=
  match values with
  | [] => Fails (Builtin ValueError)
  | y :: values' =>
      if String.eqb y x then Done values'
      else run rest <- list_remove x values'; Done (y :: rest)
  end.

Module Dict.

(** [d.get(key)], [None] for a missing key. *)
Fixpoint get {V} (d : dict V) (key : string) : option V :=
  match d with
  | [] => None
  | (k, v) :: d' => if String.eqb k key then Some v else get d' key
  end.

(** [key in d] *)
Definition contains {V} (d : dict V) (key : string) : bool :=
  match get d key with
  | Some _ => true
  | None => false
  end.

(** [d[key]] *)
Definition getitem {V} (d : dict V) (key : string) : outcome V :=
  match get d key with
  | Some v => Done v
  | None => Fails (KeyError key)
  end.

(** [d[key] = v]: a known key keeps its place, a new key goes last. *)
Fixpoint set {V} (d : dict V) (key : string) (v : V) : dict V :=
  match d with
  | [] => [(key, v)]
  | (k, v') :: d' =>
      if String.eqb k key then (k, v) :: d' else (k, v') :: set d' key v
  end.

End Dict.

(** The store after the attributes of object [image] have been replaced. *)
Definition update (objects : Ref → ImageItem) (image : Ref) (o : ImageItem)
    : Ref → ImageItem :=
  λ r, if Nat.eqb r image then o else objects r.

(** [image.categories = c] on the attributes of one object. *)
Definition with_categories (image : ImageItem) (c : dict (list string))
    : ImageItem :=
  {| file_path := file_path image;
     filename := filename image;
     categories := c;
     text := text image;
     comment := comment image;
     condition := condition image;
     physical_size := physical_size image;
     image_size := image_size image;
     dpi := dpi image |}.

(** The body of the loop of [category_selected] (lines 1181-1187) for one
    selected image. *)
Definition assign_category (group text : string) (objects : Ref → ImageItem)
    (image : Ref) : outcome (Ref → ImageItem) :=
  let objects :=
    if negb (Dict.contains (categories (objects image)) group) then
      update objects image
        (with_categories (objects image)
           (Dict.set (categories (objects image)) group []))
    else objects in
  run values <- Dict.getitem (categories (objects image)) group;
  if negb (str_in text values) then
    run values <- Dict.getitem (categories (objects image)) group;
    Done (update objects image
            (with_categories (objects image)
               (Dict.set (categories (objects image)) group
                  (values ++ [text]))))
  else Done objects.

(** [category_selected] (lines 1170-1192): the new attributes of the image
    objects. [category_widgets] holds the groups that have a combo box and
    a list (lines 1149-1152; "Condition" has none, line 1121); the widgets
    themselves are Qt objects. After the loop the method refreshes the
    lists, which reads the selection again, and resets the combo box of
    [group], a [KeyError] for a group without widgets. *)
Definition category_selected (self : MainWindow Ref)
    (category_widgets : dict unit) (objects : Ref → ImageItem)
    (group text : string) : outcome (Ref → ImageItem) :=
  if negb (str_truthy text) then Done objects
  else
    run selected_images <- lift (get_selected_images self);
    if negb (Py.truthy selected_images) then Done objects
    else
      run objects <- for_all (assign_category group text) objects
                       selected_images;
      run _ <- lift (get_selected_images self);
      run _ <- Dict.getitem category_widgets group;
      Done objects.

(** The widgets of the worked scenarios. *)
Definition scenario_widgets : dict unit :=
  [("Type", ()); ("Era", ()); ("Theme", ())]%string.

(** The body of the loop of [show_category_context_menu] (lines 1208-1210)
    for one selected image. *)
Definition unassign_category (group value : string)
    (objects : Ref → ImageItem) (image : Ref) : outcome (Ref → ImageItem) :=
  if Dict.contains (categories (objects image)) group then
    run values <- Dict.getitem (categories (objects image)) group;
    if str_in value values then
      run values <- Dict.getitem (categories (objects image)) group;
      run values <- list_remove value values;
      Done (update objects image
              (with_categories (objects image)
                 (Dict.set (categories (objects image)) group values)))
    else Done objects
  else Done objects.

(** [show_category_context_menu] (lines 1194-1213) when the user picks
    "Remove" on the list item with text [value]: the new attributes of the
    image objects. *)
Definition show_category_context_menu (self : MainWindow Ref)
    (objects : Ref → ImageItem) (group value : string)
    : outcome (Ref → ImageItem) :=
  run selected_images <- lift (get_selected_images self);
  for_all (unassign_category group value) objects selected_images.

(** What [assign_category] leaves of the attributes [o] of the image it
    visits: [text] is among the values of [group], added last if it was
    missing. *)
Definition assigned (group text : string) (o : ImageItem) : ImageItem :=
  let values := default [] (Dict.get (categories o) group) in
  with_categories o
    (Dict.set (categories o) group
       (if str_in text values then values else values ++ [text])).

(** The values without the first [x]. *)
Fixpoint remove_first (x : string) (values : list string) : list string :=
  match values with
  | [] => []
  | y :: values' =>
      if String.eqb y x then values' else y :: remove_first x values'
  end.

(** What [unassign_category] leaves of the attributes [o] of the image it
    visits. *)
Definition unassigned (group value : string) (o : ImageItem) : ImageItem :=
  match Dict.get (categories o) group with
  | Some values =>
      if str_in value values then
        with_categories o
          (Dict.set (categories o) group (remove_first value values))
      else o
  | None => o
  end.

(** ** Reordering and deleting the selected images

    [move_selected_up], [move_selected_down] and [delete_selected] compute
    the rows of the selection once and then change [self.images] row by
    row; each is modelled by the value of [self.images] it leaves. *)

(** [l[i] = x] *)
Definition setitem {A} (l : list A) (i : Z) (x : A) : result (list A) :=
  let j := if i <? 0 then i + Py.len l else i in
  if (0 <=? j) && (j <? Py.len l) then Ok (<[Z.to_nat j := x]> l)
  else Raise IndexError.

(** [l.pop(i)], the list that is left. *)
Definition pop {A} (l : list A) (i : Z) : result (list A) :=
  let j := if i <? 0 then i + Py.len l else i in
  if (0 <=? j) && (j <? Py.len l) then Ok (delete (Z.to_nat j) l)
  else Raise IndexError.

(** [min(l)] and [max(l)]; [ValueError] on an empty list. *)
Definition py_min (l : list Z) : result Z :=
  match l with
  | [] => Raise ValueError
  | x :: l' => Ok (foldl Z.min x l')
  end.

Definition py_max (l : list Z) : result Z :=
  match l with
  | [] => Raise ValueError
  | x :: l' => Ok (foldl Z.max x l')
  end.

(** [l[i], l[j] = l[j], l[i]]: both values are read, then [l[i]] and [l[j]]
    are written in this order. *)
Definition swap_items {A} (l : list A) (i j : Z) : result (list A) :=
  do a <- Py.getitem l j;
  do b <- Py.getitem l i;
  do l <- setitem l i a;
  setitem l j b.

(** [move_selected_up] (lines 1421-1449): the list [self.images] it
    leaves. *)
Definition move_selected_up {A} (self : MainWindow A) : result (list A) :=
  let indices := get_selected_image_indices self in
  if negb (Py.truthy indices) then Ok (images self)
  else
    do lowest <- py_min indices;
    if lowest =? 0 then Ok (images self)
    else
      let indices := merge_sort Z.le indices in
      Py.for_each (λ images idx, swap_items images idx (idx - 1))
        (images self) indices.

(** [move_selected_down] (lines 1451-1479). *)
Definition move_selected_down {A} (self : MainWindow A) : result (list A) :=
  let indices := get_selected_image_indices self in
  if negb (Py.truthy indices) then Ok (images self)
  else
    do highest <- py_max indices;
    if Py.len (images self) - 1 <=? highest then Ok (images self)
    else
      let indices := merge_sort (flip Z.le) indices in
      Py.for_each (λ images idx, swap_items images idx (idx + 1))
        (images self) indices.

(** [delete_selected] (lines 1481-1501); [confirmed] is the answer to the
    confirmation dialog. *)
Definition delete_selected {A} (self : MainWindow A) (confirmed : bool)
    : result (list A) :=
  let indices := get_selected_image_indices self in
  if negb (Py.truthy indices) then Ok (images self)
  else if confirmed then
    let indices := merge_sort (flip Z.le) indices in
    Py.for_each (λ images idx, pop images idx) (images self) indices
  else Ok (images self).

(** The entries of [l], whose first entry has row [row], at the rows that
    are not in [rows], in order. *)
Fixpoint unselected_from {A} (row : nat) (rows : list Z) (l : list A)
    : list A :=
  match l with
  | [] => []
  | x :: l' =>
      if decide (Z.of_nat row ∈ rows) then unselected_from (S row) rows l'
      else x :: unselected_from (S row) rows l'
  end.

Definition unselected {A} (rows : list Z) (l : list A) : list A :=
  unselected_from 0 rows l.

(** A catalogue whose rows 2, 5 and 3 are selected, for the examples. *)
Definition reorder_window : MainWindow string :=
  {| images := scenario_entries;
     image_list_selected := [2; 5; 3];
     scan_mode_combo := "Single";
     interval_spin := 1 |}.

(** ** Adding images to the catalogue *)

(** The Python side of the catalogue: the attributes of the image objects,
    the number of objects created so far (the next object gets this number
    as its reference) and the list [self.images]. *)
Record Library : Type := {
  objects_of : Ref → ImageItem;
  created : nat;
  images_of : list Ref
}.

Section Loading.
(** What the constructor of [ImageItem] takes from outside the program:
    [os.path.basename], the width and height [QImage] reports for a file
    ([None] when reading it raises, which [_load_image_info] catches), and
    the text [_calculate_physical_size] formats from floating-point
    centimetres. *)
Variable basename : string → string.
Variable image_dimensions : string → option (Z * Z).
Variable size_text : Z * Z → Z → string.

(** [ImageItem(file_path)] (lines 62-93): the attributes of the new object. *)
Definition new_image_item (path : string) : ImageItem :=
  match image_dimensions path with
  | Some size =>
      {| file_path := path;
         filename := basename path;
         categories := [];
         text := "";
         comment := "";
         condition := "";
         physical_size := if 0 <? 300 then size_text size 300 else ""%string;
         image_size := size;
         dpi := 300 |}
  | None =>
      {| file_path := path;
         filename := basename path;
         categories := [];
         text := "";
         comment := "";
         condition := "";
         physical_size := "";
         image_size := (0, 0);
         dpi := 0 |}
  end.

(** The body of the loop of [add_images] (lines 969-985): a path some image
    of the catalogue already has is skipped; [added] counts the others. *)
Definition add_image (state : Library * nat) (path : string) : Library * nat :=
  let '(library, added) := state in
  if existsb (λ img, String.eqb (file_path (objects_of library img)) path)
       (images_of library)
  then state
  else
    let image_item := created library in
    ({| objects_of := update (objects_of library) image_item (new_image_item path);
        created := S (created library);
        images_of := images_of library ++ [image_item] |},
     (added + 1)%nat).

(** [add_images] (lines 966-992): the catalogue it leaves and the number of
    images added. *)
Definition add_images (library : Library) (file_paths : list string)
    : Library * nat :=
  foldl add_image (library, 0%nat) file_paths.

End Loading.

(** The file paths of the images of a catalogue, in order. *)
Definition paths_of (library : Library) : list string :=
  (λ img, file_path (objects_of library img)) <$> images_of library.

(** The catalogue is well formed: its references are of created objects
    and no two of its images have the same file path. *)
Definition well_formed (library : Library) : Prop :=
  Forall (λ r, (r < created library)%nat) (images_of library)
  ∧ NoDup (paths_of library).

(** An empty catalogue, as [MainWindow.__init__] creates it (line 662). *)
Definition empty_library : Library :=
  {| objects_of := scenario_objects; created := 0; images_of := [] |}.

(** ** The image preview dialog *)

(** The state of an [ImagePreviewDialog] (lines 407-411) that its buttons
    read and change; [zoom_level], a float, is left out. *)
Record PreviewDialog : Type := {
  preview_images : list Ref;
  current_index : Z;
  rotation : Z
}.

(** [__init__]: the dialog opens on the first image, not rotated. *)
Definition open_preview (images : list Ref) : PreviewDialog :=
  {| preview_images := images; current_index := 0; rotation := 0 |}.

(** [update_preview] (lines 500-536): the image it shows, [None] when the
    dialog has no images; the index is not checked. *)
Definition update_preview (self : PreviewDialog) : result (option Ref) :=
  if negb (Py.truthy (preview_images self)) then Ok None
  else
    do image <- Py.getitem (preview_images self) (current_index self);
    Ok (Some image).

Definition show_next (self : PreviewDialog) : result PreviewDialog :=
  if current_index self <? Py.len (preview_images self) - 1 then
    let self := {| preview_images := preview_images self;
                   current_index := current_index self + 1;
                   rotation := rotation self |} in
    do _ <- update_preview self; Ok self
  else Ok self.

Definition show_previous (self : PreviewDialog) : result PreviewDialog :=
  if 0 <? current_index self then
    let self := {| preview_images := preview_images self;
                   current_index := current_index self - 1;
                   rotation := rotation self |} in
    do _ <- update_preview self; Ok self
  else Ok self.

Definition rotate_left (self : PreviewDialog) : result PreviewDialog :=
  let self := {| preview_images := preview_images self;
                 current_index := current_index self;
                 rotation := (rotation self - 90) `mod` 360 |} in
  do _ <- update_preview self; Ok self.

Definition rotate_right (self : PreviewDialog) : result PreviewDialog :=
  let self := {| preview_images := preview_images self;
                 current_index := current_index self;
                 rotation := (rotation self + 90) `mod` 360 |} in
  do _ <- update_preview self; Ok self.

(** The buttons of the dialog; the zoom buttons change [zoom_level] only and
    then call [update_preview]. *)
Inductive Button : Type :=
  | Next | Previous | RotateLeft | RotateRight | Zoom.

Definition press (self : PreviewDialog) (b : Button) : result PreviewDialog :=
  match b with
  | Next => show_next self
  | Previous => show_previous self
  | RotateLeft => rotate_left self
  | RotateRight => rotate_right self
  | Zoom => do _ <- update_preview self; Ok self
  end.

(** ** The flow layout of the preview area *)

Section FlowLayout.
Context {Item : Type}.

(** [itemAt] (lines 1603-1607) *)
Definition itemAt (items : list Item) (index : Z) : result (option Item) :=
  if (0 <=? index) && (index <? Py.len items) then
    do item <- Py.getitem items index; Ok (Some item)
  else Ok None.

(** [takeAt] (lines 1609-1613): what is returned, and the items left. *)
Definition takeAt (items : list Item) (index : Z)
    : result (option Item * list Item) :=
  if (0 <=? index) && (index <? Py.len items) then
    do item <- Py.getitem items index;
    do items <- pop items index;
    Ok (Some item, items)
  else Ok (None, items).

(** The truth value of a layout item, an object of the Qt binding. *)
Variable item_truthy : Item -> bool.

(** [__del__] (lines 1589-1593): items are taken until [takeAt(0)] returns
    [None] or an item that is not truthy. [fuel] bounds the number of
    calls; [None] is a loop the fuel did not suffice for. *)
Fixpoint del_items (fuel : nat) (items : list Item)
    : result (option (list Item)) :=
  match fuel with
  | O => Ok None
  | S fuel' =>
      do taken <- takeAt items 0;
      match fst taken with
      | Some item =>
          if item_truthy item then del_items fuel' (snd taken)
          else Ok (Some (snd taken))
      | None => Ok (Some (snd taken))
      end
  end.

End FlowLayout.

(** What [doLayout] reads of a layout item: its size hint and the two
    spacings its widget's style reports. *)
Record LayoutItem : Type := {
  hint_width : Z;
  hint_height : Z;
  style_spacing_x : Z;
  style_spacing_y : Z
}.

(** A C [int], which Qt uses for coordinates and sizes: 32 bits, two's
    complement. [wrap_int z] is what [int] arithmetic leaves of [z]. *)
Definition int_min : Z := -2147483648.
Definition int_max : Z := 2147483647.

Definition is_int (z : Z) : bool := (int_min <=? z) && (z <=? int_max).

Definition wrap_int (z : Z) : Z := (z - int_min) `mod` 4294967296 + int_min.

(** A [QRect]: top-left corner and size. *)
Record Rect : Type := {
  rect_x : Z;
  rect_y : Z;
  rect_width : Z;
  rect_height : Z
}.

(** [QRect.right()]: the rectangle stores [left + width - 1], an [int]. *)
Definition rect_right (r : Rect) : Z :=
  wrap_int (rect_x r + rect_width r - 1).

(** The variables of the loop of [doLayout], Python integers, and the
    geometries set so far. *)
Record LayoutState : Type := {
  layout_x : Z;
  layout_y : Z;
  line_height : Z;
  geometries : list Rect
}.

(** [QRect(QPoint(x, y), item.sizeHint())] (line 1672): [QPoint] takes two
    [int]s and refuses a Python integer outside their range. *)
Definition item_geometry (x y : Z) (item : LayoutItem) : outcome Rect :=
  if is_int x && is_int y then
    Done {| rect_x := x; rect_y := y;
            rect_width := hint_width item;
            rect_height := hint_height item |}
  else Fails OverflowError.

(** The body of the loop of [doLayout] (lines 1653-1675). *)
Definition layout_item (spacing : Z) (rect : Rect) (testOnly : bool)
    (st : LayoutState) (item : LayoutItem) : outcome LayoutState :=
  let space_x := spacing + style_spacing_x item in
  let space_y := spacing + style_spacing_y item in
  let x := layout_x st in
  let y := layout_y st in
  let line_height0 := line_height st in
  let next_x := x + hint_width item + space_x in
  let wrap := (rect_right rect <? next_x - space_x) && (0 <? line_height0) in
  let x := if wrap then rect_x rect else x in
  let y := if wrap then y + line_height0 + space_y else y in
  let next_x := if wrap then x + hint_width item + space_x else next_x in
  let line_height0 := if wrap then 0 else line_height0 in
  run geometries <-
    (if negb testOnly then
       run geometry <- item_geometry x y item;
       Done (geometries st ++ [geometry])
     else Done (geometries st));
  Done {| layout_x := next_x;
          layout_y := y;
          line_height := Z.max line_height0 (hint_height item);
          geometries := geometries |}.

(** [doLayout] (lines 1646-1677): the geometries set, in item order, and
    the height returned. *)
Definition doLayout (spacing : Z) (items : list LayoutItem) (rect : Rect)
    (testOnly : bool) : outcome (list Rect * Z) :=
  run st <-
    for_all (layout_item spacing rect testOnly)
      {| layout_x := rect_x rect; layout_y := rect_y rect;
         line_height := 0; geometries := [] |}
      items;
  Done (geometries st, layout_y st + line_height st - rect_y rect).

(** [heightForWidth] (lines 1623-1625) *)
Definition heightForWidth (spacing : Z) (items : list LayoutItem) (width : Z)
    : outcome Z :=
  run laid <-
    doLayout spacing items
      {| rect_x := 0; rect_y := 0; rect_width := width; rect_height := 0 |}
      true;
  Done (snd laid).

(** The width and the height the items take when every item starts where
    the one before it ends: no coordinate of [doLayout] moves further from
    the corner of the rectangle. *)
Definition total_width (spacing : Z) (items : list LayoutItem) : Z :=
  foldr Z.add 0
    ((λ item, hint_width item + (spacing + style_spacing_x item)) <$> items).

Definition total_height (spacing : Z) (items : list LayoutItem) : Z :=
  foldr Z.add 0
    ((λ item, hint_height item + (spacing + style_spacing_y item)) <$> items).

(** Items of non-negative size and spacing. *)
Definition regular (spacing : Z) (item : LayoutItem) : Prop :=
  0 ≤ hint_width item ∧ 0 ≤ hint_height item
  ∧ 0 ≤ spacing + style_spacing_x item ∧ 0 ≤ spacing + style_spacing_y item.

(** Three thumbnails of 120 x 120 for the examples. *)
Definition thumbnails : list LayoutItem :=
  [{| hint_width := 120; hint_height := 120;
      style_spacing_x := 6; style_spacing_y := 6 |};
   {| hint_width := 120; hint_height := 90;
      style_spacing_x := 6; style_spacing_y := 6 |};
   {| hint_width := 120; hint_height := 120;
      style_spacing_x := 6; style_spacing_y := 6 |}].

(** ** The category manager *)

(** [DEFAULT_CATEGORIES] (lines 39-56) *)
Definition DEFAULT_CATEGORIES : dict (list string) :=
  [("Type",
    ["Postcard"; "Cabinet Card"; "CDV"; "Albumen Print";
     "Daguerreotype"; "Tintype"; "Ambrotype"; "Stereoview"]);
   ("Era",
    ["Pre-1850"; "1850-1900"; "1900-1920"; "1920-1950";
     "1950-1980"; "1980-2000"; "Post-2000"]);
   ("Condition",
    ["Mint"; "Near Mint"; "Excellent"; "Very Good"; "Good";
     "Fair"; "Poor"; "Fragment"]);
   ("Theme",
    ["Portrait"; "Landscape"; "Architecture"; "Street Scene";
     "Transportation"; "Industry"; "Military"; "Fashion";
     "Family"; "Event"; "Travel"])]%string.

(** [del d[key]]: [KeyError] for a missing key. *)
Fixpoint del_key {V} (d : dict V) (key : string) : outcome (dict V) :=
  match d with
  | [] => Fails (KeyError key)
  | (k, v) :: d' =>
      if String.eqb k key then Done d'
      else run rest <- del_key d' key; Done ((k, v) :: rest)
  end.

Section Manager.

(** [str.strip] *)
Variable strip : string → string.

(** The methods of [CategoryManager] return the value of [self.categories]
    they leave; where a method can show a warning box, the result says
    whether it did. *)

(** [add_group] (lines 283-296) with [entered] in the line edit. *)
Definition add_group (categories : dict (list string)) (entered : string)
    : dict (list string) * bool :=
  let group_name := strip entered in
  if negb (str_truthy group_name) then (categories, true)
  else if Dict.contains categories group_name then (categories, true)
  else (Dict.set categories group_name [], false).

(** [delete_group] (lines 298-308); [confirmed] is the answer to the
    question box. *)
Definition delete_group (categories : dict (list string))
    (group_name : string) (confirmed : bool) : outcome (dict (list string)) :=
  if confirmed then del_key categories group_name else Done categories.

(** [add_value] (lines 310-328) *)
Definition add_value (categories : dict (list string))
    (group_name value : string) : outcome (dict (list string) * bool) :=
  let value := strip value in
  if negb (str_truthy value) then Done (categories, false)
  else
    run values <- Dict.getitem categories group_name;
    if str_in value values then Done (categories, true)
    else
      run values <- Dict.getitem categories group_name;
      Done (Dict.set categories group_name (values ++ [value]), false).

(** [value_changed] (lines 330-349) for the list item of row [index] that
    now shows [edited]: the categories, the text the item shows afterwards,
    and whether a warning was shown. *)
Definition value_changed (categories : dict (list string))
    (group_name : string) (index : Z) (edited : string)
    : outcome (dict (list string) * string * bool) :=
  let new_value := strip edited in
  run fresh <-
    (if str_truthy new_value then
       run values <- Dict.getitem categories group_name;
       Done (negb (str_in new_value values))
     else Done false);
  if fresh : bool then
    run values <- Dict.getitem categories group_name;
    run values <- lift (setitem values index new_value);
    Done (Dict.set categories group_name values, edited, false)
  else
    run values <- Dict.getitem categories group_name;
    run shown <- lift (Py.getitem values index);
    Done (categories, shown, true).

(** [show_value_context_menu] (lines 351-379) when the user picks "Delete"
    on the list item of row [index]; [confirmed] is the answer to the
    question box. *)
Definition delete_value (categories : dict (list string))
    (group_name : string) (index : Z) (confirmed : bool)
    : outcome (dict (list string)) :=
  run values <- Dict.getitem categories group_name;
  run _ <- lift (Py.getitem values index);
  if confirmed then
    run values <- Dict.getitem categories group_name;
    run values <- lift (pop values index);
    Done (Dict.set categories group_name values)
  else Done categories.

(** What the user can do in the dialog. *)
Inductive ManagerEdit : Type :=
  | AddGroup (entered : string)
  | DeleteGroup (group_name : string) (confirmed : bool)
  | AddValue (group_name value : string)
  | ChangeValue (group_name : string) (index : Z) (edited : string)
  | DeleteValue (group_name : string) (index : Z) (confirmed : bool).

Definition manager_edit (categories : dict (list string)) (e : ManagerEdit)
    : outcome (dict (list string)) :=
  match e with
  | AddGroup entered => Done (fst (add_group categories entered))
  | DeleteGroup group_name confirmed =>
      delete_group categories group_name confirmed
  | AddValue group_name value =>
      run r <- add_value categories group_name value; Done (fst r)
  | ChangeValue group_name index edited =>
      run r <- value_changed categories group_name index edited;
      Done (fst (fst r))
  | DeleteValue group_name index confirmed =>
      delete_value categories group_name index confirmed
  end.

(** The group an edit works on. *)
Definition edited_group (e : ManagerEdit) : string :=
  match e with
  | AddGroup entered => strip entered
  | DeleteGroup group_name _ | AddValue group_name _
  | ChangeValue group_name _ _ | DeleteValue group_name _ _ => group_name
  end.

End Manager.

(** The edits the widgets of the dialog offer: a group that has a tab, and
    a row of that tab's list. *)
Definition offered (categories : dict (list string)) (e : ManagerEdit)
    : Prop :=
  match e with
  | AddGroup _ => True
  | DeleteGroup group_name _ | AddValue group_name _ =>
      is_Some (Dict.get categories group_name)
  | ChangeValue group_name index _ | DeleteValue group_name index _ =>
      ∃ values,
        Dict.get categories group_name = Some values
        ∧ 0 ≤ index < Py.len values
  end.

(** Categories with distinct, non-empty group names whose values are
    distinct and non-empty. *)
Definition tidy (categories : dict (list string)) : Prop :=
  NoDup categories.*1
  ∧ Forall (λ entry, entry.1 ≠ ""%string
                     ∧ NoDup entry.2 ∧ ""%string ∉ entry.2) categories.

(** ** Editing the details of the selected images *)

(** [image.text = t], [image.comment = c] and [image.condition = c] on the
    attributes of one object. *)
Definition with_text (image : ImageItem) (t : string) : ImageItem :=
  {| file_path := file_path image;
     filename := filename image;
     categories := categories image;
     text := t;
     comment := comment image;
     condition := condition image;
     physical_size := physical_size image;
     image_size := image_size image;
     dpi := dpi image |}.

Definition with_comment (image : ImageItem) (c : string) : ImageItem :=
  {| file_path := file_path image;
     filename := filename image;
     categories := categories image;
     text := text image;
     comment := c;
     condition := condition image;
     physical_size := physical_size image;
     image_size := image_size image;
     dpi := dpi image |}.

Definition with_condition (image : ImageItem) (c : string) : ImageItem :=
  {| file_path := file_path image;
     filename := filename image;
     categories := categories image;
     text := text image;
     comment := comment image;
     condition := c;
     physical_size := physical_size image;
     image_size := image_size image;
     dpi := dpi image |}.

(** A loop [for image in selected_images: image.attr = value], [assign]
    being the assignment. *)
Definition assign_each (assign : ImageItem → ImageItem)
    (objects : Ref → ImageItem) (selected_images : list Ref)
    : Ref → ImageItem :=
  foldl (λ objects image, update objects image (assign (objects image)))
    objects selected_images.

(** [update_text] (lines 1077-1085), [new_text] being the text of the line
    edit. *)
Definition update_text (self : MainWindow Ref) (objects : Ref → ImageItem)
    (new_text : string) : result (Ref → ImageItem) :=
  do selected_images <- get_selected_images self;
  if negb (Py.truthy selected_images) then Ok objects
  else Ok (assign_each (λ image, with_text image new_text)
             objects selected_images).

(** [update_comment] (lines 1087-1095) *)
Definition update_comment (self : MainWindow Ref) (objects : Ref → ImageItem)
    (new_comment : string) : result (Ref → ImageItem) :=
  do selected_images <- get_selected_images self;
  if negb (Py.truthy selected_images) then Ok objects
  else Ok (assign_each (λ image, with_comment image new_comment)
             objects selected_images).

(** [update_condition] (lines 1097-1104) *)
Definition update_condition (self : MainWindow Ref)
    (objects : Ref → ImageItem) (condition : string)
    : result (Ref → ImageItem) :=
  do selected_images <- get_selected_images self;
  if negb (Py.truthy selected_images) then Ok objects
  else Ok (assign_each (λ image, with_condition image condition)
             objects selected_images).

(** ** The interval setting *)

(** [scan_mode_changed] (lines 1215-1219): whether the interval widget is
    made visible. *)
Definition scan_mode_changed (mode : string) : bool :=
  existsb (String.eqb mode) ["Group of X"; "Alternate"]%string.

(** ** Image metadata ([src/metadata.py])

    The attributes of an [ImageMetadata] hold whatever the caller passes, so
    they are Python values here. *)
#[local] Unset Elimination Schemes.
Inductive pyvalue : Type :=
  | PyNone
  | PyStr (s : string)
  | PyInt (z : Z)
  | PyList (l : list pyvalue)
  | PyDict (d : list (string * pyvalue)).
#[local] Set Elimination Schemes.

Module Metadata.

Record ImageMetadata : Type := {
  filename : pyvalue;
  physical_size : pyvalue;
  category : pyvalue;
  text : pyvalue;
  comment : pyvalue;
  condition : pyvalue;
  date : pyvalue;
  location : pyvalue;
  artist : pyvalue;
  provenance : pyvalue;
  custom_metadata : pyvalue
}.

(** [__init__] (lines 4-15), every argument given. *)
Definition init (filename physical_size category text comment condition
    date location artist provenance custom_metadata : pyvalue)
    : ImageMetadata :=
  {| filename := filename;
     physical_size := physical_size;
     category := category;
     text := text;
     comment := comment;
     condition := condition;
     date := date;
     location := location;
     artist := artist;
     provenance := provenance;
     custom_metadata :=
       match custom_metadata with
       | PyNone => PyDict []
       | _ => custom_metadata
       end |}.

(** [to_dict] (lines 17-31) *)
Definition to_dict (self : ImageMetadata) : dict pyvalue :=
  [("filename", filename self);
   ("physical_size", physical_size self);
   ("category", category self);
   ("text", text self);
   ("comment", comment self);
   ("condition", condition self);
   ("date", date self);
   ("location", location self);
   ("artist", artist self);
   ("provenance", provenance self);
   ("custom_metadata", custom_metadata self)]%string.

(** [from_dict] (lines 33-48); [data.get(key, d)] is
    [default d (Dict.get data key)]. *)
Definition from_dict (data : dict pyvalue) : ImageMetadata :=
  init (default (PyStr "") (Dict.get data "filename"))
       (default (PyStr "") (Dict.get data "physical_size"))
       (default (PyStr "") (Dict.get data "category"))
       (default (PyStr "") (Dict.get data "text"))
       (default (PyStr "") (Dict.get data "comment"))
       (default (PyStr "") (Dict.get data "condition"))
       (default (PyStr "") (Dict.get data "date"))
       (default (PyStr "") (Dict.get data "location"))
       (default (PyStr "") (Dict.get data "artist"))
       (default (PyStr "") (Dict.get data "provenance"))
       (default (PyDict []) (Dict.get data "custom_metadata")).

End Metadata.

(** ** Facts about the Python primitives *)

Section PyFacts.
Context {A : Type}.
Implicit Types (l : list A) (s n K c j : nat).

Lemma count_lt s n K j :
  (0 < K)%nat → (j < count s n K)%nat ↔ (s + j * K < n)%nat.
Proof.
  intros HK. unfold count. destruct (Nat.ltb_spec s n) as [Hs|Hs].
  - pose proof (Nat.Div0.mul_div_le (n - 1 - s) K).
    pose proof (Nat.mul_succ_div_gt (n - 1 - s) K ltac:(lia)).
    split; intros; nia.
  - split; intros; nia.
Qed.

Lemma count_covers s n K : (0 < K)%nat → (n ≤ s + count s n K * K)%nat.
Proof.
  intros HK. destruct (Nat.le_gt_cases n (s + count s n K * K)) as [|Hlt]; [done|].
  apply count_lt in Hlt; [lia|done].
Qed.

Lemma count_unique s n K c :
  (0 < K)%nat → (∀ j, (j < c)%nat ↔ (s + j * K < n)%nat) → c = count s n K.
Proof.
  intros HK Hc.
  destruct (Nat.lt_trichotomy c (count s n K)) as [Hlt|[->|Hgt]]; [|done|].
  - apply count_lt in Hlt; [|done]. apply Hc in Hlt. lia.
  - apply Hc in Hgt. apply count_lt in Hgt; [lia|done].
Qed.

Lemma count_step s n K :
  (0 < K)%nat → (s < n)%nat → count s n K = S (count s (n - K) K).
Proof.
  intros HK Hs. symmetry. apply count_unique; [done|].
  intros [|j].
  - lia.
  - rewrite <- Nat.succ_lt_mono, count_lt by done. lia.
Qed.

Lemma count_ge s n K : (n ≤ s)%nat → count s n K = 0%nat.
Proof. unfold count. destruct (Nat.ltb_spec s n); [lia|done]. Qed.

Lemma range_len_count s n K :
  (0 < K)%nat →
  Z.to_nat (Py.range_len (Z.of_nat s) (Z.of_nat n) (Z.of_nat K)) = count s n K.
Proof.
  intros HK. unfold Py.range_len, count.
  destruct (Z.ltb_spec 0 (Z.of_nat K)); [|lia].
  destruct (Z.ltb_spec (Z.of_nat s) (Z.of_nat n)), (Nat.ltb_spec s n); try lia.
  replace (Z.of_nat n - 1 - Z.of_nat s) with (Z.of_nat (n - 1 - s)) by lia.
  rewrite <- Nat2Z.inj_div. lia.
Qed.

Lemma range_nat s n K :
  (0 < K)%nat →
  Py.range (Z.of_nat s) (Z.of_nat n) (Z.of_nat K)
  = Ok ((λ j, Z.of_nat (s + j * K)) <$> seq 0 (count s n K)).
Proof.
  intros HK. unfold Py.range.
  destruct (Z.eqb_spec (Z.of_nat K) 0); [lia|].
  f_equal. unfold seqZ. rewrite range_len_count by done.
  rewrite <- list_fmap_compose. apply list_fmap_ext.
  intros _ j _. simpl. lia.
Qed.

Lemma slice_nat l s K :
  Py.slice l (Z.of_nat s) (Z.of_nat s + Z.of_nat K) = take K (drop s l).
Proof.
  unfold Py.slice, Py.clamp, Py.len.
  destruct (Z.ltb_spec (Z.of_nat s) 0), (Z.ltb_spec (Z.of_nat s + Z.of_nat K) 0);
    try lia.
  destruct (Nat.le_gt_cases (length l) s) as [Hge|Hlt].
  - rewrite !drop_ge by lia. by rewrite !take_nil.
  - replace (Z.to_nat (Z.of_nat s `min` Z.of_nat (length l))) with s by lia.
    destruct (Nat.le_gt_cases (length l) (s + K)).
    + rewrite !take_ge; [done| |]; rewrite length_drop; lia.
    + f_equal. lia.
Qed.

Lemma getitem_nat l j :
  Py.getitem l (Z.of_nat j)
  = match l !! j with Some x => Ok x | None => Raise IndexError end.
Proof.
  unfold Py.getitem, Py.len.
  destruct (Z.ltb_spec (Z.of_nat j) 0); [lia|].
  rewrite Nat2Z.id.
  destruct (Z.leb_spec 0 (Z.of_nat j)); [|lia]. simpl.
  destruct (Z.ltb_spec (Z.of_nat j) (Z.of_nat (length l))) as [Hlt|Hge].
  - done.
  - rewrite lookup_ge_None_2; [done|lia].
Qed.

Lemma truthy_true l : Py.truthy l = true ↔ l ≠ [].
Proof. by destruct l. Qed.

Lemma truthy_false l : Py.truthy l = false ↔ l = [].
Proof. by destruct l. Qed.

End PyFacts.

(** ** The loops of the method as list functions *)

Section Loops.
Context {A : Type}.
Implicit Types (l g : list A) (s n K c j : nat).

Lemma bind_Ok {B C} (b : B) (k : B → result C) : bind (Ok b) k = k b.
Proof. done. Qed.

Lemma for_each_app {S X} (body : S → X → result S) (acc : S) (xs ys : list X) :
  Py.for_each body acc (xs ++ ys)
  = bind (Py.for_each body acc xs) (λ acc', Py.for_each body acc' ys).
Proof.
  revert acc. induction xs as [|x xs IH]; intros acc; simpl; [done|].
  destruct (body acc x) as [acc'|e]; simpl; [apply IH|done].
Qed.

(** A loop that appends one computed element per iteration is a list
    comprehension. *)
Lemma for_each_append {X} (f : X → result A) (acc : list A) (xs : list X) :
  Py.for_each (λ group i, do x <- f i; Ok (group ++ [x])) acc xs
  = (do ys <- Py.comprehension f xs; Ok (acc ++ ys)).
Proof.
  revert acc. induction xs as [|x xs IH]; intros acc; simpl.
  - by rewrite app_nil_r.
  - destruct (f x) as [y|e]; simpl; [|done].
    rewrite IH. destruct (Py.comprehension f xs) as [ys|e]; simpl; [|done].
    by rewrite <- app_assoc.
Qed.

Lemma comprehension_getitem l s K c :
  (∀ j, (j < c)%nat → (s + j * K < length l)%nat) →
  Py.comprehension (Py.getitem l) ((λ j, Z.of_nat (s + j * K)) <$> seq 0 c)
  = Ok (every_nth c K (drop s l)).
Proof.
  revert s. induction c as [|c IH]; intros s Hc; [done|].
  destruct (lookup_lt_is_Some_2 l s) as [x Hx]; [specialize (Hc 0%nat); lia|].
  rewrite <- cons_seq, <- fmap_S_seq, fmap_cons, <- list_fmap_compose.
  cbn [Py.comprehension]. replace (s + 0 * K)%nat with s by lia.
  rewrite getitem_nat, Hx, bind_Ok.
  rewrite (list_fmap_ext _ (λ j, Z.of_nat ((s + K) + j * K)) (seq 0 c))
    by (intros; simpl; lia).
  rewrite IH by (intros j Hj; specialize (Hc (S j)); lia).
  rewrite bind_Ok, (drop_S l x s Hx). cbn [every_nth].
  by rewrite <- (drop_S l x s Hx), drop_drop.
Qed.

Lemma every_nth_lookup c K l j :
  every_nth c K l !! j = if (j <? c)%nat then l !! (j * K)%nat else None.
Proof.
  revert l j. induction c as [|c IH]; intros l j; [done|].
  destruct l as [|x l]; simpl.
  - by destruct (j <? S c)%nat.
  - destruct j as [|j]; [done|].
    change (S j <? S c)%nat with (j <? c)%nat.
    cbn [every_nth]. change ((x :: ?t) !! S j) with (t !! j). rewrite IH.
    destruct (j <? c)%nat; [|done].
    rewrite lookup_drop. f_equal; lia.
Qed.

Lemma every_nth_nonempty c K l : (0 < c)%nat → l ≠ [] → every_nth c K l ≠ [].
Proof. intros Hc Hl. destruct c; [lia|]. by destruct l. Qed.

Lemma every_nth_sublist c K l : (0 < K)%nat → every_nth c K l `sublist_of` l.
Proof.
  intros HK. destruct K as [|K]; [lia|].
  revert l. induction c as [|c IH]; intros l.
  - apply sublist_nil_l.
  - destruct l as [|x l]; [done|]. cbn [every_nth].
    apply sublist_skip. change (drop (S K) (x :: l)) with (drop K l).
    etrans; [apply IH|apply sublist_drop].
Qed.

Lemma alternate_group_nat l K s :
  (0 < K)%nat →
  alternate_group l (Z.of_nat K) (Z.of_nat s)
  = Ok (every_nth (count s (length l) K) K (drop s l)).
Proof.
  intros HK. unfold alternate_group, Py.len.
  rewrite range_nat, bind_Ok, for_each_append by done.
  rewrite comprehension_getitem; [done|].
  intros j Hj. by apply count_lt in Hj.
Qed.

Lemma count_unit K : count 0 K 1 = K.
Proof.
  symmetry. apply count_unique; [lia|]. intros j. lia.
Qed.

(** The comprehension of the "Pair" and "Group of X" branches. *)
Lemma chunk_comprehension l K :
  (0 < K)%nat →
  (do idx <- Py.range 0 (Py.len l) (Z.of_nat K);
   Ok ((λ i, Py.slice l i (i + Z.of_nat K)) <$> idx))
  = Ok (chunks K l).
Proof.
  intros HK. unfold Py.len. change 0 with (Z.of_nat 0).
  rewrite range_nat, bind_Ok by done.
  unfold chunks. rewrite <- list_fmap_compose. f_equal.
  apply list_fmap_ext. intros _ j _. simpl. apply slice_nat.
Qed.

(** The outer loop of the "Alternate" branch, over steps that reach into
    the list: every group is kept. *)
Lemma alternate_loop_keep l K (acc : list (list A)) (steps : list nat) :
  (0 < K)%nat →
  Forall (λ s, (s < length l)%nat) steps →
  Py.for_each
    (λ result step,
       do group <- alternate_group l (Z.of_nat K) step;
       Ok (if Py.truthy group then result ++ [group] else result))
    acc (Z.of_nat <$> steps)
  = Ok (acc ++ ((λ s, every_nth (count s (length l) K) K (drop s l)) <$> steps)).
Proof.
  intros HK Hsteps. revert acc.
  induction Hsteps as [|s steps Hs _ IH]; intros acc.
  - simpl. by rewrite app_nil_r.
  - rewrite !fmap_cons. cbn [Py.for_each].
    rewrite alternate_group_nat, bind_Ok by done.
    assert (every_nth (count s (length l) K) K (drop s l) ≠ []) as Hne.
    { apply every_nth_nonempty.
      - apply (count_lt s (length l) K 0); lia.
      - intros Hnil%drop_nil_inv. lia. }
    apply truthy_true in Hne. rewrite Hne, bind_Ok, IH.
    by rewrite <- app_assoc.
Qed.

(** Steps beyond the end of the list collect nothing and are skipped. *)
Lemma alternate_loop_skip l K (acc : list (list A)) (steps : list nat) :
  (0 < K)%nat →
  Forall (λ s, (length l ≤ s)%nat) steps →
  Py.for_each
    (λ result step,
       do group <- alternate_group l (Z.of_nat K) step;
       Ok (if Py.truthy group then result ++ [group] else result))
    acc (Z.of_nat <$> steps)
  = Ok acc.
Proof.
  intros HK Hsteps. revert acc.
  induction Hsteps as [|s steps Hs _ IH]; intros acc; [done|].
  rewrite fmap_cons. cbn [Py.for_each].
  rewrite alternate_group_nat, bind_Ok, count_ge by done.
  cbn [every_nth Py.truthy]. rewrite bind_Ok. apply IH.
Qed.

Lemma alternate_loop l K :
  (0 < K)%nat →
  (do steps <- Py.range 0 (Z.of_nat K) 1;
   Py.for_each
     (λ result step,
        do group <- alternate_group l (Z.of_nat K) step;
        Ok (if Py.truthy group then result ++ [group] else result))
     [] steps)
  = Ok (strides K l).
Proof.
  intros HK. change 0 with (Z.of_nat 0). change 1 with (Z.of_nat 1).
  rewrite range_nat, bind_Ok, count_unit by lia.
  rewrite (list_fmap_ext _ Z.of_nat (seq 0 K)) by (intros; simpl; lia).
  assert (seq 0 K = seq 0 (K `min` length l)
                    ++ seq (K `min` length l) (K - K `min` length l)) as ->.
  { rewrite <- seq_app. f_equal. lia. }
  rewrite fmap_app, for_each_app.
  rewrite alternate_loop_keep, bind_Ok; [|done|].
  - by rewrite alternate_loop_skip; [|done|apply Forall_seq; lia].
  - apply Forall_seq. lia.
Qed.

End Loops.

(** ** What each branch of the method returns *)

Section Branches.
Context {A : Type}.
Implicit Types (w : MainWindow A) (sel : list A) (i : Z) (m : ScanMode).

Lemma selected_choose m i w :
  get_selected_images (choose m i w) = get_selected_images w.
Proof. done. Qed.

(** Unfold the method on a window whose selection has been read. *)
Ltac enter_method Hsel :=
  unfold get_images_to_export, export_by_mode;
  rewrite selected_choose, Hsel, bind_Ok;
  cbn [choose scan_mode_combo interval_spin images mode_text existsb];
  repeat match goal with
    | |- context [String.eqb ?a ?b] =>
        let v := eval vm_compute in (String.eqb a b) in
        change (String.eqb a b) with v
    end;
  cbn [orb].

Lemma export_single w sel i :
  get_selected_images w = Ok sel →
  get_images_to_export (choose Single i w) = Ok ((λ image, [image]) <$> sel).
Proof.
  intros Hsel. enter_method Hsel. by destruct sel.
Qed.

Lemma export_pair w sel i :
  get_selected_images w = Ok sel →
  get_images_to_export (choose Pair i w) = Ok (chunks 2 sel).
Proof.
  intros Hsel. enter_method Hsel. destruct sel as [|x sel]; [done|].
  cbn [Py.truthy negb]. apply (chunk_comprehension (x :: sel) 2). lia.
Qed.

Lemma export_all w sel i :
  get_selected_images w = Ok sel →
  get_images_to_export (choose All i w)
  = Ok [if Py.truthy sel then sel else images w].
Proof.
  intros Hsel. enter_method Hsel. by destruct sel.
Qed.

Lemma export_group_of_x w sel i :
  get_selected_images w = Ok sel → 1 ≤ i →
  get_images_to_export (choose GroupOfX i w) = Ok (chunks (Z.to_nat i) sel).
Proof.
  intros Hsel Hi. enter_method Hsel.
  destruct sel as [|x sel]; [done|]. cbn [Py.truthy negb].
  set (K := Z.to_nat i). replace i with (Z.of_nat K) by lia.
  apply chunk_comprehension. lia.
Qed.



Lemma export_alternate_low w sel i :
  get_selected_images w = Ok sel → i ≤ 1 →
  get_images_to_export (choose Alternate i w)
  = Ok (if Py.truthy sel then [sel] else []).
Proof.
  intros Hsel Hi. enter_method Hsel.
  destruct sel as [|x sel]; [done|]. cbn [Py.truthy negb].
  by destruct (Z.leb_spec i 1); [|lia].
Qed.

Lemma export_alternate w sel i :
  get_selected_images w = Ok sel → 2 ≤ i →
  get_images_to_export (choose Alternate i w) = Ok (strides (Z.to_nat i) sel).
Proof.
  intros Hsel Hi. enter_method Hsel.
  destruct sel as [|x sel].
  - unfold strides. by rewrite Nat.min_0_r.
  - cbn [Py.truthy negb].
    destruct (Z.leb_spec i 1); [lia|].
    set (K := Z.to_nat i). replace i with (Z.of_nat K) by lia.
    apply alternate_loop. lia.
Qed.


(** Reading the selection does not depend on the mode: when it raises,
    so does the method. *)
Lemma export_selection_raises w e :
  get_selected_images w = Raise e → get_images_to_export w = Raise e.
Proof.
  intros Hsel. unfold get_images_to_export. by rewrite Hsel.
Qed.

End Branches.

(** ** Properties of the chunks and of the strided groups *)

Section Grouping.
Context {A : Type}.
Implicit Types (l g : list A) (s n K c j : nat).

Lemma count_ceiling n K :
  (0 < K)%nat → (n ≤ count 0 n K * K ∧ count 0 n K * K < n + K)%nat.
Proof.
  intros HK. split.
  - apply (count_covers 0 n K HK).
  - destruct (count 0 n K) as [|c] eqn:Hc; [lia|].
    assert (c < count 0 n K)%nat as Hlt%count_lt by lia; [lia|done].
Qed.

Lemma chunks_length K l : length (chunks K l) = count 0 (length l) K.
Proof. unfold chunks. by rewrite length_fmap, length_seq. Qed.

Lemma chunks_lookup K l j :
  (j < count 0 (length l) K)%nat →
  chunks K l !! j = Some (take K (drop (j * K) l)).
Proof.
  intros Hj. unfold chunks.
  by rewrite list_lookup_fmap, lookup_seq_lt.
Qed.

Lemma chunks_prefix K l m :
  concat ((λ j, take K (drop (j * K) l)) <$> seq 0 m) = take (m * K) l.
Proof.
  induction m as [|m IH]; [done|].
  rewrite seq_S, fmap_app, concat_app, IH. simpl.
  rewrite app_nil_r, take_take_drop. f_equal. lia.
Qed.

Lemma chunks_concat K l : (0 < K)%nat → concat (chunks K l) = l.
Proof.
  intros HK. unfold chunks. rewrite chunks_prefix.
  apply take_ge, count_ceiling, HK.
Qed.

Lemma chunks_nonempty K l : (0 < K)%nat → Forall (λ g, g ≠ []) (chunks K l).
Proof.
  intros HK. unfold chunks. apply Forall_fmap, Forall_seq.
  intros j [_ Hj]. simpl in *. apply count_lt in Hj; [|done].
  intros Hnil. apply (f_equal length) in Hnil.
  rewrite length_take, length_drop in Hnil. simpl in Hnil. lia.
Qed.

Lemma chunks_sublist K l : Forall (λ g, g `sublist_of` l) (chunks K l).
Proof.
  unfold chunks. apply Forall_fmap, Forall_forall. intros j _. simpl.
  etrans; [apply sublist_take|apply sublist_drop].
Qed.

Lemma chunks_one l : chunks 1 l = (λ image, [image]) <$> l.
Proof.
  apply list_eq. intros j. rewrite list_lookup_fmap.
  destruct (l !! j) as [x|] eqn:Hx; simpl.
  - rewrite chunks_lookup by (apply count_lt; [lia|]; apply lookup_lt_Some in Hx; lia).
    rewrite Nat.mul_1_r, (drop_S l x j Hx). done.
  - apply lookup_ge_None. rewrite chunks_length.
    apply lookup_ge_None in Hx.
    destruct (Nat.le_gt_cases (count 0 (length l) 1) j) as [|Hlt]; [done|].
    apply count_lt in Hlt; lia.
Qed.

Lemma strides_length K l : length (strides K l) = (K `min` length l)%nat.
Proof. unfold strides. by rewrite length_fmap, length_seq. Qed.

Lemma strides_lookup K l s :
  (0 < K)%nat → (s < K `min` length l)%nat →
  ∃ g, strides K l !! s = Some g ∧ ∀ j, g !! j = l !! (s + j * K)%nat.
Proof.
  intros HK Hs. eexists. split.
  - unfold strides. by rewrite list_lookup_fmap, lookup_seq_lt.
  - intros j. simpl. rewrite every_nth_lookup, lookup_drop.
    destruct (Nat.ltb_spec j (count s (length l) K)) as [Hj|Hj]; [done|].
    symmetry. apply lookup_ge_None.
    pose proof (count_covers s (length l) K HK). nia.
Qed.

Lemma strides_nonempty K l : (0 < K)%nat → Forall (λ g, g ≠ []) (strides K l).
Proof.
  intros HK. unfold strides. apply Forall_fmap, Forall_seq.
  intros s [_ Hs]. simpl in *. apply every_nth_nonempty.
  - apply (count_lt s (length l) K 0); lia.
  - intros Hnil%drop_nil_inv. lia.
Qed.

Lemma strides_sublist K l :
  (0 < K)%nat → Forall (λ g, g `sublist_of` l) (strides K l).
Proof.
  intros HK. unfold strides. apply Forall_fmap, Forall_forall. intros s _. simpl.
  etrans; [by apply every_nth_sublist|apply sublist_drop].
Qed.

(** *** The strided groups are a rearrangement of the list *)

Lemma concat_fmap_nil {X} (f : X → list A) (xs : list X) :
  Forall (λ x, f x = []) xs → concat (f <$> xs) = [].
Proof.
  induction 1 as [|x xs Hx _ IH]; [done|].
  by rewrite fmap_cons, concat_cons, Hx, IH.
Qed.

Lemma concat_fmap_app {X} (a b : X → list A) (xs : list X) :
  concat ((λ x, a x ++ b x) <$> xs) ≡ₚ concat (a <$> xs) ++ concat (b <$> xs).
Proof.
  induction xs as [|x xs IH]; [done|].
  rewrite !fmap_cons, !concat_cons, IH, <- !app_assoc.
  apply Permutation_app_head.
  rewrite !app_assoc. apply Permutation_app_tail, Permutation_app_comm.
Qed.

Lemma concat_heads l K :
  concat ((λ s, option_list (l !! s)) <$> seq 0 K) = take K l.
Proof.
  induction K as [|K IH]; [done|].
  rewrite seq_S, fmap_app, concat_app, IH. simpl.
  destruct (l !! K) as [x|] eqn:Hx; simpl.
  - by rewrite (take_S_r l K x Hx).
  - apply lookup_ge_None in Hx.
    rewrite app_nil_r, !take_ge; [done|lia..].
Qed.

(** The group of step [s] is the entry at [s] followed by the group of
    step [s] of the list without its first [K] entries. *)
Lemma stride_unfold l K s :
  (0 < K)%nat →
  every_nth (count s (length l) K) K (drop s l)
  = option_list (l !! s)
    ++ every_nth (count s (length (drop K l)) K) K (drop s (drop K l)).
Proof.
  intros HK. rewrite length_drop.
  destruct (Nat.le_gt_cases (length l) s) as [Hge|Hlt].
  - rewrite !count_ge, lookup_ge_None_2 by lia. done.
  - destruct (lookup_lt_is_Some_2 l s Hlt) as [x Hx].
    rewrite count_step, Hx, (drop_S l x s Hx) by done.
    cbn [every_nth option_list app]. f_equal. f_equal.
    rewrite <- (drop_S l x s Hx), !drop_drop. f_equal. lia.
Qed.

Lemma all_strides_perm K l :
  (0 < K)%nat →
  concat ((λ s, every_nth (count s (length l) K) K (drop s l)) <$> seq 0 K)
  ≡ₚ l.
Proof.
  intros HK.
  remember (length l) as n eqn:Hn. revert l Hn.
  induction (lt_wf n) as [n _ IH]. intros l ->.
  destruct l as [|x l].
  - rewrite concat_fmap_nil; [done|].
    apply Forall_forall. intros s _. by rewrite count_ge by (simpl; lia).
  - rewrite (list_fmap_ext _ _ _ (λ _ s _, stride_unfold (x :: l) K s HK)).
    rewrite (concat_fmap_app (λ s, option_list ((x :: l) !! s))).
    rewrite concat_heads.
    rewrite (IH (length (drop K (x :: l)))); [|rewrite length_drop; simpl; lia|done].
    by rewrite take_drop.
Qed.

Lemma strides_perm K l : (0 < K)%nat → concat (strides K l) ≡ₚ l.
Proof.
  intros HK. rewrite <- (all_strides_perm K l HK) at 2.
  assert (seq 0 K = seq 0 (K `min` length l)
                    ++ seq (K `min` length l) (K - K `min` length l)) as ->.
  { rewrite <- seq_app. f_equal. lia. }
  rewrite fmap_app, concat_app.
  rewrite (concat_fmap_nil _ (seq (K `min` length l) _)).
  - by rewrite app_nil_r.
  - apply Forall_seq. intros s Hs. by rewrite count_ge by lia.
Qed.

(** With an interval that spans the whole list every group holds a single
    entry. *)
Lemma strides_wide K l :
  (0 < K)%nat → (length l ≤ K)%nat → strides K l = (λ image, [image]) <$> l.
Proof.
  intros HK Hl. apply list_eq. intros s. rewrite list_lookup_fmap.
  destruct (l !! s) as [x|] eqn:Hx; simpl.
  - pose proof (lookup_lt_Some _ _ _ Hx) as Hs.
    unfold strides. rewrite list_lookup_fmap, lookup_seq_lt by lia. simpl.
    rewrite <- (count_unique s (length l) K 1 HK), (drop_S l x s Hx); [done|].
    intros j. nia.
  - apply lookup_ge_None. rewrite strides_length.
    apply lookup_ge_None in Hx. lia.
Qed.

End Grouping.

(** ** The grouping computed by the method *)

Section Support.
Context {A : Type}.
Implicit Types (w : MainWindow A) (sel : list A) (i : Z) (m : ScanMode).





Lemma preview_fallback_choose w sel m i :
  preview_fallback (choose m i w) sel
  = match m with
    | All => if Py.truthy sel then sel else images w
    | _ => sel
    end.
Proof. unfold preview_fallback. by destruct m, sel. Qed.


(** Unless the catalogue and the selection are both empty in mode "All",
    no group of the output is empty. *)
Lemma groups_nonempty w sel m i :
  get_selected_images w = Ok sel → 1 ≤ i →
  (m = All → sel = [] → images w ≠ []) →
  ∃ groups,
    get_images_to_export (choose m i w) = Ok groups
    ∧ Forall (λ g, g ≠ []) groups.
Proof.
  intros Hsel Hi Hall. destruct m.
  - eexists. split; [by apply export_single|].
    rewrite <- chunks_one. apply chunks_nonempty. lia.
  - eexists. split; [by apply export_pair|]. apply chunks_nonempty. lia.
  - eexists. split; [by apply export_all|]. apply Forall_singleton.
    destruct sel; [by apply Hall|done].
  - eexists. split; [by apply export_group_of_x|]. apply chunks_nonempty. lia.
  - destruct (Z.le_gt_cases i 1).
    + eexists. split; [by apply export_alternate_low|].
      destruct sel; simpl; [done|]. by apply Forall_singleton.
    + eexists. split; [apply export_alternate; [done|lia]|].
      apply strides_nonempty. lia.
Qed.

(** On a non-empty selection "Alternate" with an interval <= 1 returns what
    "All" returns: the selection as one group. *)
Lemma alternate_low_like_all w sel i i' :
  get_selected_images w = Ok sel → sel ≠ [] → i ≤ 1 →
  get_images_to_export (choose Alternate i w)
  = get_images_to_export (choose All i' w)
  ∧ get_images_to_export (choose Alternate i w) = Ok [sel].
Proof.
  intros Hsel Hne Hi.
  rewrite (export_alternate_low w sel i Hsel Hi), (export_all w sel i' Hsel).
  by destruct sel.
Qed.

(** Every list of entries is the selection of some window. *)
Lemma selection_realisable sel mode i :
  get_selected_images
    {| images := sel;
       image_list_selected := Z.of_nat <$> seq 0 (length sel);
       scan_mode_combo := mode;
       interval_spin := i |}
  = Ok sel.
Proof.
  unfold get_selected_images, get_selected_image_indices. simpl.
  rewrite (list_fmap_ext Z.of_nat (λ j, Z.of_nat (0 + j * 1)) (seq 0 (length sel)))
    by (intros; simpl; lia).
  rewrite comprehension_getitem by (intros; lia).
  f_equal. apply list_eq. intros j.
  rewrite every_nth_lookup, Nat.mul_1_r. simpl.
  destruct (Nat.ltb_spec j (length sel)); [done|].
  symmetry. by apply lookup_ge_None.
Qed.

Lemma chunks_chunked K (l : list A) : (0 < K)%nat → chunked K l (chunks K l).
Proof.
  intros HK. unfold chunked. rewrite chunks_length.
  pose proof (count_ceiling (length l) K HK) as Hceil.
  split; [done|]. split.
  - intros j Hj. by apply chunks_lookup.
  - intros j g Hg.
    assert (j < count 0 (length l) K)%nat as Hj.
    { rewrite <- chunks_length. by eapply lookup_lt_Some. }
    rewrite chunks_lookup in Hg by done. injection Hg as <-.
    rewrite length_take, length_drop.
    pose proof Hj as Hj'%count_lt; [|done]. nia.
Qed.

End Support.

(** ** The worked scenarios, evaluated *)

Example scenario_single :
  get_images_to_export (scenario "Single" 1)
  = Ok [["e0"]; ["e1"]; ["e2"]; ["e3"]; ["e4"]; ["e5"]; ["e6"]]%string.
Proof. reflexivity. Qed.

Example scenario_pair :
  get_images_to_export (scenario "Pair" 1)
  = Ok [["e0"; "e1"]; ["e2"; "e3"]; ["e4"; "e5"]; ["e6"]]%string.
Proof. reflexivity. Qed.

Example scenario_all :
  get_images_to_export (scenario "All" 1)
  = Ok [["e0"; "e1"; "e2"; "e3"; "e4"; "e5"; "e6"]]%string.
Proof. reflexivity. Qed.

Example scenario_group_of_three :
  get_images_to_export (scenario "Group of X" 3)
  = Ok [["e0"; "e1"; "e2"]; ["e3"; "e4"; "e5"]; ["e6"]]%string.
Proof. reflexivity. Qed.

Example scenario_alternate_three :
  get_images_to_export (scenario "Alternate" 3)
  = Ok [["e0"; "e3"; "e6"]; ["e1"; "e4"]; ["e2"; "e5"]]%string.
Proof. reflexivity. Qed.

Example scenario_alternate_one :
  get_images_to_export (scenario "Alternate" 1)
  = Ok [["e0"; "e1"; "e2"; "e3"; "e4"; "e5"; "e6"]]%string.
Proof. reflexivity. Qed.

Example scenario_group_of_zero :
  get_images_to_export (scenario "Group of X" 0) = Raise ValueError.
Proof. reflexivity. Qed.

Example scenario_group_of_minus_two :
  get_images_to_export (scenario "Group of X" (-2)) = Ok [].
Proof. reflexivity. Qed.

(** Nothing selected: mode "All" falls back to the whole catalogue, the
    other modes return the empty output. *)
Example scenario_nothing_selected :
  let unselected mode :=
    {| images := scenario_entries; image_list_selected := [];
       scan_mode_combo := mode; interval_spin := 3 |} in
  get_images_to_export (unselected "All") = Ok [scenario_entries]
  ∧ get_images_to_export (unselected "Single") = Ok []
  ∧ get_images_to_export (unselected "Pair") = Ok []
  ∧ get_images_to_export (unselected "Group of X") = Ok []
  ∧ get_images_to_export (unselected "Alternate") = Ok [].
Proof. repeat split. Qed.

(** ** The claims *)

(** C1. For every selection, every scan mode and every interval >= 1 the
    method returns groups whose concatenation is a rearrangement of the
    list it groups (the selection, or the whole catalogue in mode "All"
    when nothing is selected): no entry is lost or duplicated; and every
    group lists its entries in the order they have in that list. *)
Theorem grouping_partitions_input {A} (w : MainWindow A) (sel : list A)
    (m : ScanMode) (i : Z) :
  get_selected_images w = Ok sel → 1 ≤ i →
  ∃ groups,
    get_images_to_export (choose m i w) = Ok groups
    ∧ concat groups ≡ₚ preview_fallback (choose m i w) sel
    ∧ Forall (λ g, g `sublist_of` preview_fallback (choose m i w) sel) groups.
Proof.
  intros Hsel Hi. rewrite preview_fallback_choose. destruct m.
  - eexists. split; [by apply export_single|].
    rewrite <- chunks_one. split.
    + by rewrite chunks_concat by lia.
    + apply chunks_sublist.
  - eexists. split; [by apply export_pair|]. split.
    + by rewrite chunks_concat by lia.
    + apply chunks_sublist.
  - eexists. split; [by apply export_all|]. split.
    + simpl. by rewrite app_nil_r.
    + by apply Forall_singleton.
  - eexists. split; [by apply export_group_of_x|]. split.
    + by rewrite chunks_concat by lia.
    + apply chunks_sublist.
  - destruct (Z.le_gt_cases i 1).
    + eexists. split; [by apply export_alternate_low|].
      destruct sel; simpl; [done|]. split.
      * by rewrite app_nil_r.
      * by apply Forall_singleton.
    + eexists. split; [apply export_alternate; [done|lia]|]. split.
      * apply strides_perm. lia.
      * apply strides_sublist. lia.
Qed.

Lemma grouping_partitions_input_witness :
  ∃ groups,
    get_images_to_export (choose Alternate 3 (scenario "Single" 1)) = Ok groups
    ∧ concat groups
      ≡ₚ preview_fallback (choose Alternate 3 (scenario "Single" 1)) scenario_entries
    ∧ Forall (λ g, g `sublist_of`
                     preview_fallback (choose Alternate 3 (scenario "Single" 1))
                       scenario_entries)
             groups.
Proof.
  apply (grouping_partitions_input (scenario "Single" 1) scenario_entries
           Alternate 3).
  - reflexivity.
  - lia.
Defined.


(** C2. In mode "All" the method returns one group holding the grouped
    list. With an empty catalogue and nothing selected the method still
    returns one group, the empty one, and not the empty output. *)
Theorem all_mode_empty_catalogue {A} (i : Z) :
  get_images_to_export (empty_catalogue A "All" i) = Ok [[]].
Proof. reflexivity. Qed.




(** C4. Groups are meant to be non-empty, and they are whenever the grouped
    list is not empty. In mode "All" with an empty catalogue the output
    holds an empty group. *)
Theorem all_mode_empty_catalogue_has_empty_group {A} (i : Z) :
  ∃ groups,
    get_images_to_export (empty_catalogue A "All" i) = Ok groups
    ∧ ¬ Forall (λ g, g ≠ []) groups.
Proof.
  exists [[]]. split; [reflexivity|].
  intros Hall. by apply (Forall_inv Hall).
Qed.

(** C5. In mode "Alternate" with an interval >= 2 the output has
    min(interval, n) groups (none when nothing is selected), and group [k]
    holds exactly the entries at positions k, k + interval, k + 2*interval,
    ... of the selection, in that order. *)
Theorem alternate_groups {A} (w : MainWindow A) (sel : list A) (i : Z) :
  get_selected_images w = Ok sel → 2 ≤ i →
  ∃ groups,
    get_images_to_export (choose Alternate i w) = Ok groups
    ∧ length groups = (Z.to_nat i `min` length sel)%nat
    ∧ (sel = [] → groups = [])
    ∧ ∀ k, (k < Z.to_nat i `min` length sel)%nat →
        ∃ g, groups !! k = Some g
             ∧ ∀ j, g !! j = sel !! (k + j * Z.to_nat i)%nat.
Proof.
  intros Hsel Hi. exists (strides (Z.to_nat i) sel).
  split; [by apply export_alternate|].
  split; [apply strides_length|]. split.
  - intros ->. unfold strides. by rewrite Nat.min_0_r.
  - intros k Hk. apply strides_lookup; [lia|done].
Qed.

Lemma alternate_groups_witness :
  ∃ groups,
    get_images_to_export (choose Alternate 3 (scenario "Single" 1)) = Ok groups
    ∧ length groups = (Z.to_nat 3 `min` length scenario_entries)%nat
    ∧ (scenario_entries = [] → groups = [])
    ∧ ∀ k, (k < Z.to_nat 3 `min` length scenario_entries)%nat →
        ∃ g, groups !! k = Some g
             ∧ ∀ j, g !! j = scenario_entries !! (k + j * Z.to_nat 3)%nat.
Proof.
  apply (alternate_groups (scenario "Single" 1) scenario_entries 3).
  - reflexivity.
  - lia.
Defined.

(** C6. "Alternate" with an interval <= 1 is meant to agree with "All" on
    the same list. On the empty catalogue it does not: "Alternate" returns
    the empty output and "All" returns one empty group. *)
Theorem alternate_and_all_differ_on_empty_catalogue {A} :
  get_images_to_export (empty_catalogue A "Alternate" 1) = Ok []
  ∧ get_images_to_export (empty_catalogue A "All" 1) = Ok [[]]
  ∧ get_images_to_export (empty_catalogue A "Alternate" 1)
    ≠ get_images_to_export (empty_catalogue A "All" 1).
Proof.
  assert (get_images_to_export (empty_catalogue A "Alternate" 1) = Ok []) as H1
    by reflexivity.
  assert (get_images_to_export (empty_catalogue A "All" 1) = Ok [[]]) as H2
    by reflexivity.
  rewrite H1, H2. repeat split. discriminate.
Qed.

(** C7. "Group of X" with an interval >= 1 cuts the selection into
    consecutive chunks of that size, "Pair" into chunks of size 2 (the last
    of size 1 when the number of entries is odd), each with
    ceil(n / size) chunks; "Single" puts every entry into a group of its
    own, in order. *)
Theorem chunked_modes {A} (w : MainWindow A) (sel : list A) (i : Z) :
  get_selected_images w = Ok sel → 1 ≤ i →
  (∃ groups,
     get_images_to_export (choose GroupOfX i w) = Ok groups
     ∧ chunked (Z.to_nat i) sel groups)
  ∧ (∀ i', ∃ groups,
       get_images_to_export (choose Pair i' w) = Ok groups
       ∧ chunked 2 sel groups
       ∧ (∀ g, last groups = Some g → Nat.Odd (length sel) → length g = 1%nat))
  ∧ (∀ i', ∃ groups,
       get_images_to_export (choose Single i' w) = Ok groups
       ∧ length groups = length sel
       ∧ groups = (λ image, [image]) <$> sel).
Proof.
  intros Hsel Hi. split; [|split].
  - exists (chunks (Z.to_nat i) sel).
    split; [by apply export_group_of_x|]. apply chunks_chunked. lia.
  - intros i'. exists (chunks 2 sel). split; [by apply export_pair|].
    split; [apply chunks_chunked; lia|].
    intros g Hlast [k Hk]. rewrite last_lookup, chunks_length in Hlast.
    pose proof (count_ceiling (length sel) 2 ltac:(lia)) as [Hlo Hhi].
    rewrite chunks_lookup in Hlast by lia. injection Hlast as <-.
    rewrite length_take, length_drop. lia.
  - intros i'. eexists. split; [by apply export_single|].
    split; [by rewrite length_fmap|done].
Qed.

Lemma chunked_modes_witness :
  (∃ groups,
     get_images_to_export (choose GroupOfX 3 (scenario "Single" 1)) = Ok groups
     ∧ chunked (Z.to_nat 3) scenario_entries groups)
  ∧ (∀ i', ∃ groups,
       get_images_to_export (choose Pair i' (scenario "Single" 1)) = Ok groups
       ∧ chunked 2 scenario_entries groups
       ∧ (∀ g, last groups = Some g → Nat.Odd (length scenario_entries) →
               length g = 1%nat))
  ∧ (∀ i', ∃ groups,
       get_images_to_export (choose Single i' (scenario "Single" 1)) = Ok groups
       ∧ length groups = length scenario_entries
       ∧ groups = (λ image, [image]) <$> scenario_entries).
Proof.
  apply (chunked_modes (scenario "Single" 1) scenario_entries 3).
  - reflexivity.
  - lia.
Defined.

(** C8. "Pair" returns what "Group of X" returns with interval 2. *)
Theorem pair_is_group_of_two {A} (w : MainWindow A) (i : Z) :
  get_images_to_export (choose Pair i w)
  = get_images_to_export (choose GroupOfX 2 w).
Proof.
  destruct (get_selected_images w) as [sel|e] eqn:Hsel.
  - by rewrite (export_pair w sel i Hsel), (export_group_of_x w sel 2 Hsel) by lia.
  - by rewrite !(export_selection_raises _ e) by by rewrite selected_choose.
Qed.

(** C9. "Group of X" with interval 1 returns what "Single" returns: every
    entry in a group of its own, in order. *)
Theorem group_of_one_is_single {A} (w : MainWindow A) (i : Z) :
  get_images_to_export (choose GroupOfX 1 w)
  = get_images_to_export (choose Single i w)
  ∧ ∀ sel, get_selected_images w = Ok sel →
      get_images_to_export (choose GroupOfX 1 w)
      = Ok ((λ image, [image]) <$> sel).
Proof.
  split.
  - destruct (get_selected_images w) as [sel|e] eqn:Hsel.
    + rewrite (export_single w sel i Hsel), (export_group_of_x w sel 1 Hsel)
        by lia.
      f_equal. apply chunks_one.
    + by rewrite !(export_selection_raises _ e) by by rewrite selected_choose.
  - intros sel Hsel. rewrite (export_group_of_x w sel 1 Hsel) by lia.
    f_equal. apply chunks_one.
Qed.

Lemma group_of_one_is_single_witness :
  get_images_to_export (choose GroupOfX 1 (scenario "Pair" 3))
  = get_images_to_export (choose Single 3 (scenario "Pair" 3))
  ∧ get_images_to_export (choose GroupOfX 1 (scenario "Pair" 3))
    = Ok [["e0"]; ["e1"]; ["e2"]; ["e3"]; ["e4"]; ["e5"]; ["e6"]]%string.
Proof.
  split.
  - apply (proj1 (group_of_one_is_single (scenario "Pair" 3) 3)).
  - apply (proj2 (group_of_one_is_single (scenario "Pair" 3) 3)
             scenario_entries).
    reflexivity.
Defined.

(** C10. For a non-empty selection of n entries and an interval
    >= max(2, n), "Alternate" returns what "Single" returns: n groups of one
    entry each, in order. *)
Theorem wide_alternate_is_single {A} (w : MainWindow A) (sel : list A)
    (i i' : Z) :
  get_selected_images w = Ok sel → sel ≠ [] →
  Z.max 2 (Py.len sel) ≤ i →
  get_images_to_export (choose Alternate i w)
  = get_images_to_export (choose Single i' w)
  ∧ get_images_to_export (choose Alternate i w)
    = Ok ((λ image, [image]) <$> sel).
Proof.
  intros Hsel _ Hi. unfold Py.len in Hi.
  rewrite (export_single w sel i' Hsel), (export_alternate w sel i Hsel) by lia.
  rewrite strides_wide by lia. done.
Qed.

Lemma wide_alternate_is_single_witness :
  get_images_to_export (choose Alternate 9 (scenario "Single" 1))
  = get_images_to_export (choose Single 1 (scenario "Single" 1))
  ∧ get_images_to_export (choose Alternate 9 (scenario "Single" 1))
    = Ok ((λ image, [image]) <$> scenario_entries).
Proof.
  apply (wide_alternate_is_single (scenario "Single" 1) scenario_entries 9 1).
  - reflexivity.
  - discriminate.
  - vm_compute. discriminate.
Defined.

(** ** Further properties: the callers of the grouping *)

Section ExportFacts.
Context {A : Type}.
Implicit Types (w : MainWindow A) (sel : list A) (i : Z) (m : ScanMode).


(** When is the output the empty list? *)
Lemma export_groups_empty w sel m i :
  get_selected_images w = Ok sel → 1 ≤ i →
  ∃ groups,
    get_images_to_export (choose m i w) = Ok groups
    ∧ (groups = [] ↔ sel = [] ∧ m ≠ All).
Proof.
  intros Hsel Hi.
  assert (∀ K, (0 < K)%nat → chunks K sel = [] ↔ sel = []) as Hchunks.
  { intros K HK. split; [|by intros ->].
    intros Hnil. apply (f_equal length) in Hnil.
    rewrite chunks_length in Hnil. simpl in Hnil.
    destruct sel as [|x sel]; [done|].
    assert (0 < count 0 (length (x :: sel)) K)%nat
      by (apply count_lt; simpl; lia).
    lia. }
  destruct m.
  - eexists. split; [by apply export_single|].
    destruct sel; clear Hchunks; intuition (done || congruence).
  - eexists. split; [by apply export_pair|].
    rewrite Hchunks by lia. clear Hchunks. intuition (done || congruence).
  - eexists. split; [by apply export_all|]. clear Hchunks; intuition (done || congruence).
  - eexists. split; [by apply export_group_of_x|].
    rewrite Hchunks by lia. clear Hchunks. intuition (done || congruence).
  - destruct (Z.le_gt_cases i 1).
    + eexists. split; [by apply export_alternate_low|].
      destruct sel; clear Hchunks; intuition (done || congruence).
    + eexists. split; [apply export_alternate; [done|lia]|].
      split.
      * intros Hnil. apply (f_equal length) in Hnil.
        rewrite strides_length in Hnil. simpl in Hnil.
        destruct sel; [done|]. simpl in Hnil. lia.
      * intros [-> _]. unfold strides. by rewrite Nat.min_0_r.
Qed.

End ExportFacts.

Section ExportRows.
Implicit Types (objects : Ref → ImageItem) (group : list Ref)
  (groups : list (list Ref)) (exported : list Ref).

Lemma write_groups objects groups (written : list (list string)) :
  foldl (write_group objects) written groups
  = written ++ concat ((λ group, write_group objects [] group) <$> groups).
Proof.
  revert written. induction groups as [|group groups IH]; intros written.
  - simpl. by rewrite app_nil_r.
  - rewrite fmap_cons, concat_cons, app_assoc. cbn [foldl]. rewrite IH.
    by destruct group; rewrite ?app_nil_r.
Qed.

Lemma write_group_rows objects groups :
  Forall (λ group, group ≠ []) groups →
  concat ((λ group, write_group objects [] group) <$> groups)
  = (λ group, default [] (head (write_group objects [] group))) <$> groups.
Proof.
  induction 1 as [|group groups Hne _ IH]; [done|].
  rewrite !fmap_cons, concat_cons, IH. by destruct group.
Qed.

(** The category cell of the preview shows the category column of the
    export; it stays unset when that column is empty. *)
Lemma preview_category_cell_text (image : ImageItem) :
  default ""%string (preview_category_cell image) = categories_text image.
Proof.
  unfold preview_category_cell, categories_text.
  match goal with
  | |- default _ (snd (foldl ?fp _ _)) = foldl ?ft _ _ =>
      set (stepP := fp); set (stepT := ft)
  end.
  assert (∀ cats (t : string) (cell : option string),
            cell = Some t ∨ cell = None ∧ t = ""%string →
            fst (foldl stepP (t, cell) cats) = foldl stepT t cats
            ∧ (snd (foldl stepP (t, cell) cats)
               = Some (fst (foldl stepP (t, cell) cats))
               ∨ snd (foldl stepP (t, cell) cats) = None
                 ∧ fst (foldl stepP (t, cell) cats) = ""%string)) as Hloop.
  { induction cats as [|[group_name values] cats IH]; intros t cell Hinv.
    - by split.
    - cbn [foldl]. unfold stepP at 2 4 6 8 10, stepT at 2.
      destruct (Py.truthy values); apply IH; auto. }
  destruct (Hloop (categories image) ""%string None) as [Hfst [Hsnd|[Hsnd Hnil]]];
    [by right|..].
  - rewrite Hsnd. simpl. exact Hfst.
  - rewrite Hsnd. simpl. by rewrite <- Hfst, Hnil.
Qed.

Lemma append_empty (s1 s2 : string) :
  s1 +:+ s2 = ""%string → s1 = ""%string ∧ s2 = ""%string.
Proof. by destruct s1. Qed.

(** The category cell of the preview is unset exactly when the category
    column of the export is empty. *)
Lemma preview_category_cell_unset (image : ImageItem) :
  preview_category_cell image
  = if String.eqb (categories_text image) "" then None
    else Some (categories_text image).
Proof.
  unfold preview_category_cell, categories_text.
  match goal with
  | |- snd (foldl ?fp _ _) = (if String.eqb (foldl ?ft _ _) _ then _ else _) =>
      set (stepP := fp); set (stepT := ft)
  end.
  assert (∀ cats (t : string) (cell : option string),
            cell = Some t ∧ t ≠ ""%string ∨ cell = None ∧ t = ""%string →
            snd (foldl stepP (t, cell) cats)
            = if String.eqb (foldl stepT t cats) "" then None
              else Some (foldl stepT t cats)) as Hloop.
  { induction cats as [|[group_name values] cats IH]; intros t cell Hinv.
    - simpl. destruct Hinv as [[-> Ht]|[-> ->]]; [|done].
      by apply String.eqb_neq in Ht as ->.
    - cbn [foldl]. unfold stepP at 2, stepT at 2 4.
      destruct (Py.truthy values); apply IH; [|done].
      left. split; [done|]. intros Hempty.
      apply append_empty in Hempty as [_ Hempty].
      apply append_empty in Hempty as [_ Hempty].
      apply append_empty in Hempty as [_ Hempty].
      by apply append_empty in Hempty as [_ Hempty]. }
  apply Hloop. by right.
Qed.





End ExportRows.

(** ** Properties of the export *)

(** X1. With an interval >= 1, [export_csv] and [preview_csv] show their
    "No images" warning exactly when nothing is selected and the mode is not
    "All"; in mode "All" the warning never appears, also for an empty
    catalogue. *)
Theorem warning_iff_nothing_selected (w : MainWindow Ref) (sel : list Ref)
    (m : ScanMode) (i : Z) :
  get_selected_images w = Ok sel → 1 ≤ i →
  ∃ b, warns_no_images (choose m i w) = Ok b
       ∧ (b = true ↔ sel = [] ∧ m ≠ All).
Proof.
  intros Hsel Hi.
  destruct (export_groups_empty w sel m i Hsel Hi) as (groups & Hg & Hiff).
  exists (negb (Py.truthy groups)). unfold warns_no_images. rewrite Hg.
  split; [done|]. rewrite <- Hiff. by destruct groups.
Qed.

Lemma warning_iff_nothing_selected_witness :
  ∃ b, warns_no_images (choose Pair 2 (scenario_window "Single" 1)) = Ok b
       ∧ (b = true ↔ [0; 1; 2; 3; 4; 5; 6]%nat = [] ∧ Pair ≠ All).
Proof.
  apply (warning_iff_nothing_selected (scenario_window "Single" 1)
           [0; 1; 2; 3; 4; 5; 6]%nat Pair 2).
  - reflexivity.
  - lia.
Defined.

(** X2. With an interval >= 1 (and, in mode "All", a catalogue that is not
    empty) the exported file has one row per group after the header: the
    row of group [k] holds the file names of the group joined by ", " and
    then the physical size, categories, text, comment and condition of the
    first image of the group only. *)
Theorem export_row_per_group (w : MainWindow Ref) (sel : list Ref)
    (m : ScanMode) (i : Z) (objects : Ref → ImageItem) :
  get_selected_images w = Ok sel → 1 ≤ i →
  (m = All → sel = [] → images w ≠ []) →
  ∃ groups,
    get_images_to_export (choose m i w) = Ok groups
    ∧ length (export_rows objects groups) = S (length groups)
    ∧ head (export_rows objects groups) = Some csv_header
    ∧ ∀ k group, groups !! k = Some group →
        ∃ image rest,
          group = image :: rest
          ∧ export_rows objects groups !! S k
            = Some [group_filenames objects group;
                    physical_size (objects image);
                    categories_text (objects image);
                    text (objects image);
                    comment (objects image);
                    condition (objects image)].
Proof.
  intros Hsel Hi Hall.
  destruct (groups_nonempty w sel m i Hsel Hi Hall) as (groups & Hg & Hne).
  exists groups. split; [done|].
  unfold export_rows. rewrite write_groups, write_group_rows by done.
  split; [by rewrite length_app, length_fmap|]. split; [done|].
  intros k group Hk.
  pose proof (Forall_lookup_1 _ _ _ _ Hne Hk) as Hgroup.
  destruct group as [|image rest]; [done|]. exists image, rest. split; [done|].
  change ([csv_header] ++ ?r) with (csv_header :: r).
  change ((csv_header :: ?r) !! S k) with (r !! k).
  by rewrite list_lookup_fmap, Hk.
Qed.

Lemma export_row_per_group_witness :
  ∃ groups,
    get_images_to_export (choose Pair 1 (scenario_window "Single" 1)) = Ok groups
    ∧ length (export_rows scenario_objects groups) = S (length groups)
    ∧ head (export_rows scenario_objects groups) = Some csv_header
    ∧ ∀ k group, groups !! k = Some group →
        ∃ image rest,
          group = image :: rest
          ∧ export_rows scenario_objects groups !! S k
            = Some [group_filenames scenario_objects group;
                    physical_size (scenario_objects image);
                    categories_text (scenario_objects image);
                    text (scenario_objects image);
                    comment (scenario_objects image);
                    condition (scenario_objects image)].
Proof.
  apply (export_row_per_group (scenario_window "Single" 1)
           [0; 1; 2; 3; 4; 5; 6]%nat Pair 1 scenario_objects).
  - reflexivity.
  - lia.
  - discriminate.
Defined.

(** X3. Under the same conditions the table of [preview_csv] shows, row by
    row and cell by cell, the rows [export_csv] writes after the header (a
    cell that was never set shows as empty text): every cell of the table
    is set to the exported text, except that the category cell is unset
    exactly when the exported category text is empty. *)
Theorem preview_shows_exported_rows (w : MainWindow Ref) (sel : list Ref)
    (m : ScanMode) (i : Z) (objects : Ref → ImageItem) :
  get_selected_images w = Ok sel → 1 ≤ i →
  (m = All → sel = [] → images w ≠ []) →
  ∃ groups,
    get_images_to_export (choose m i w) = Ok groups
    ∧ export_rows objects groups
      = csv_header
        :: ((λ row : list (option string), default ""%string <$> row) <$> preview_rows objects groups)
    ∧ preview_rows objects groups
      = (λ row : list string,
           imap (λ column cell,
                   if Nat.eqb column 2 && String.eqb cell ""
                   then None else Some cell) row)
        <$> drop 1 (export_rows objects groups).
Proof.
  intros Hsel Hi Hall.
  destruct (groups_nonempty w sel m i Hsel Hi Hall) as (groups & Hg & Hne).
  exists groups. split; [done|].
  unfold export_rows, preview_rows.
  rewrite write_groups, write_group_rows by done.
  change ([csv_header] ++ ?r) with (csv_header :: r). split.
  - f_equal.
    rewrite <- list_fmap_compose. apply Forall_fmap_ext_1.
    eapply Forall_impl; [exact Hne|]. intros [|image rest] Hgroup; [done|].
    simpl. by rewrite preview_category_cell_text.
  - rewrite skipn_cons, drop_0, <- list_fmap_compose.
    apply Forall_fmap_ext_1.
    eapply Forall_impl; [exact Hne|]. intros [|image rest] Hgroup; [done|].
    simpl. by rewrite preview_category_cell_unset.
Qed.

Lemma preview_shows_exported_rows_witness :
  ∃ groups,
    get_images_to_export (choose Alternate 3 (scenario_window "Single" 1))
    = Ok groups
    ∧ export_rows scenario_objects groups
      = csv_header
        :: ((λ row : list (option string), default ""%string <$> row)
              <$> preview_rows scenario_objects groups)
    ∧ preview_rows scenario_objects groups
      = (λ row : list string,
           imap (λ column cell,
                   if Nat.eqb column 2 && String.eqb cell ""
                   then None else Some cell) row)
        <$> drop 1 (export_rows scenario_objects groups).
Proof.
  apply (preview_shows_exported_rows (scenario_window "Single" 1)
           [0; 1; 2; 3; 4; 5; 6]%nat Alternate 3 scenario_objects).
  - reflexivity.
  - lia.
  - discriminate.
Defined.



(** ** Further properties of the grouping and of the selection *)

Section SelectionFacts.
Context {A : Type}.
Implicit Types (w : MainWindow A) (l sel : list A) (i : Z) (m : ScanMode).

Lemma every_nth_length c K l :
  (∀ j, (j < c)%nat → (j * K < length l)%nat) → length (every_nth c K l) = c.
Proof.
  revert l. induction c as [|c IH]; intros l Hc; [done|].
  destruct l as [|x l]; [specialize (Hc 0%nat); simpl in Hc; lia|].
  cbn [every_nth length]. f_equal. apply IH.
  intros j Hj. specialize (Hc (S j)). rewrite length_drop. simpl in *. lia.
Qed.

Lemma strides_sizes K l k g :
  (0 < K)%nat → strides K l !! k = Some g → length g = count k (length l) K.
Proof.
  intros HK Hg. unfold strides in Hg.
  rewrite list_lookup_fmap in Hg.
  destruct (seq 0 (K `min` length l) !! k) as [s|] eqn:Hs; [|done].
  apply lookup_seq in Hs as [-> Hk]. simpl in Hg. injection Hg as <-.
  apply every_nth_length. intros j Hj%count_lt; [|done].
  rewrite length_drop. lia.
Qed.

Lemma count_balanced n K s s' :
  (0 < K)%nat → (s ≤ s')%nat → (s' < K)%nat →
  (count s' n K ≤ count s n K ≤ count s' n K + 1)%nat.
Proof.
  intros HK Hs Hs'. split.
  - destruct (Nat.le_gt_cases (count s' n K) (count s n K)) as [|Hlt]; [done|].
    assert (count s n K < count s' n K)%nat as Hc%count_lt by lia; [|done].
    assert (s + count s n K * K < n)%nat as Hc'%count_lt by lia; [lia|done].
  - destruct (count s n K) as [|c] eqn:Hcount; [lia|].
    assert (c < count s n K)%nat as Hc%count_lt by lia; [|done].
    destruct c as [|c]; [lia|].
    assert (c < count s' n K)%nat; [|lia].
    apply count_lt; [done|]. simpl in Hc. lia.
Qed.

(** A row is valid for a list of [n] images when Python accepts it as an
    index: from [-n] to [n - 1]. *)
Lemma getitem_valid l (r : Z) :
  - Py.len l ≤ r < Py.len l →
  ∃ x, Py.getitem l r = Ok x ∧ l !! Z.to_nat (r `mod` Py.len l) = Some x.
Proof.
  unfold Py.getitem, Py.len. intros Hr.
  set (n := Z.of_nat (length l)) in *.
  assert ((if r <? 0 then r + n else r) = r `mod` n) as ->.
  { destruct (Z.ltb_spec r 0).
    - apply Z.mod_unique with (-1); lia.
    - symmetry. apply Z.mod_small. lia. }
  pose proof (Z.mod_pos_bound r n ltac:(lia)) as Hmod.
  destruct (Z.leb_spec 0 (r `mod` n)); [|lia].
  destruct (Z.ltb_spec (r `mod` n) n); [|lia]. simpl.
  destruct (lookup_lt_is_Some_2 l (Z.to_nat (r `mod` n))) as [x Hx]; [lia|].
  exists x. by rewrite Hx.
Qed.

Lemma getitem_invalid l (r : Z) :
  ¬ (- Py.len l ≤ r < Py.len l) → Py.getitem l r = Raise IndexError.
Proof.
  unfold Py.getitem, Py.len. intros Hr.
  destruct (Z.ltb_spec r 0).
  - destruct (Z.leb_spec 0 (r + Z.of_nat (length l))); [lia|done].
  - destruct (Z.leb_spec 0 r); [|lia].
    destruct (Z.ltb_spec r (Z.of_nat (length l))); [lia|done].
Qed.

Lemma comprehension_valid l (rows : list Z) :
  Forall (λ r, - Py.len l ≤ r < Py.len l) rows →
  ∃ sel,
    Py.comprehension (Py.getitem l) rows = Ok sel
    ∧ length sel = length rows
    ∧ ∀ k r, rows !! k = Some r →
        sel !! k = l !! Z.to_nat (r `mod` Py.len l).
Proof.
  induction 1 as [|r rows Hr _ (sel & Hsel & Hlen & Hlook)].
  - exists []. by repeat split.
  - destruct (getitem_valid l r Hr) as (x & Hx & Hlx).
    exists (x :: sel). cbn [Py.comprehension]. rewrite Hx, bind_Ok, Hsel.
    split; [done|]. split; [simpl; by rewrite Hlen|].
    intros [|k] r' Hk; simpl in *.
    + injection Hk as <-. by rewrite Hlx.
    + by apply Hlook.
Qed.

Lemma comprehension_invalid l (rows : list Z) :
  Exists (λ r, ¬ (- Py.len l ≤ r < Py.len l)) rows →
  Py.comprehension (Py.getitem l) rows = Raise IndexError.
Proof.
  induction 1 as [r rows Hr|r rows _ IH]; cbn [Py.comprehension].
  - by rewrite getitem_invalid.
  - destruct (Py.getitem l r) as [x|e] eqn:Hx.
    + by rewrite bind_Ok, IH.
    + destruct (decide (- Py.len l ≤ r < Py.len l)) as [Hr|Hr].
      * destruct (getitem_valid l r Hr) as (x & Hx' & _). congruence.
      * rewrite getitem_invalid in Hx by done. by injection Hx as <-.
Qed.

End SelectionFacts.

(** X5. In mode "Alternate" with an interval >= 2 the groups are balanced:
    a later group is never longer than an earlier one, and no two groups
    differ in size by more than one entry. *)
Theorem alternate_groups_balanced {A} (w : MainWindow A) (sel : list A) (i : Z) :
  get_selected_images w = Ok sel → 2 ≤ i →
  ∃ groups,
    get_images_to_export (choose Alternate i w) = Ok groups
    ∧ ∀ k k' g g',
        (k ≤ k')%nat → groups !! k = Some g → groups !! k' = Some g' →
        (length g' ≤ length g ≤ length g' + 1)%nat.
Proof.
  intros Hsel Hi. exists (strides (Z.to_nat i) sel).
  split; [by apply export_alternate|].
  intros k k' g g' Hk Hg Hg'.
  pose proof (lookup_lt_Some _ _ _ Hg') as Hlt. rewrite strides_length in Hlt.
  rewrite (strides_sizes (Z.to_nat i) sel k g ltac:(lia) Hg),
    (strides_sizes (Z.to_nat i) sel k' g' ltac:(lia) Hg').
  apply count_balanced; lia.
Qed.

Lemma alternate_groups_balanced_witness :
  ∃ groups,
    get_images_to_export (choose Alternate 3 (scenario "Single" 1)) = Ok groups
    ∧ ∀ k k' g g',
        (k ≤ k')%nat → groups !! k = Some g → groups !! k' = Some g' →
        (length g' ≤ length g ≤ length g' + 1)%nat.
Proof.
  apply (alternate_groups_balanced (scenario "Single" 1) scenario_entries 3).
  - reflexivity.
  - lia.
Defined.

(** X6. Reading the selection follows Python's indexing. If every selected
    row lies between -n and n - 1 (n images), [get_selected_images] returns
    one image per row, a negative row counting from the end; otherwise it
    raises [IndexError], and so does [get_images_to_export], whatever the
    mode. *)
Theorem selection_follows_python_indexing {A} (w : MainWindow A) :
  (Forall (λ r, - Py.len (images w) ≤ r < Py.len (images w))
          (image_list_selected w)
   ∧ ∃ sel,
       get_selected_images w = Ok sel
       ∧ length sel = length (image_list_selected w)
       ∧ ∀ k r, image_list_selected w !! k = Some r →
           sel !! k = images w !! Z.to_nat (r `mod` Py.len (images w)))
  ∨ (Exists (λ r, ¬ (- Py.len (images w) ≤ r < Py.len (images w)))
            (image_list_selected w)
     ∧ get_selected_images w = Raise IndexError
     ∧ get_images_to_export w = Raise IndexError).
Proof.
  destruct (decide (Forall (λ r, - Py.len (images w) ≤ r < Py.len (images w))
                           (image_list_selected w))) as [Hvalid|Hinvalid].
  - left. split; [done|]. by apply comprehension_valid.
  - right. apply not_Forall_Exists in Hinvalid; [|apply _].
    split; [done|].
    assert (get_selected_images w = Raise IndexError) as Hsel
      by by apply comprehension_invalid.
    split; [done|]. by apply export_selection_raises.
Qed.

(** ** Properties of the category assignment *)

Section DictFacts.
Context {V : Type}.
Implicit Types (d : dict V) (k key : string) (v : V).

Lemma dict_get_set d key v : Dict.get (Dict.set d key v) key = Some v.
Proof.
  induction d as [|[k v'] d IH]; simpl.
  - by rewrite String.eqb_refl.
  - destruct (String.eqb k key) eqn:Hk; simpl; by rewrite Hk.
Qed.

Lemma dict_get_set_ne d key k v :
  key ≠ k → Dict.get (Dict.set d key v) k = Dict.get d k.
Proof.
  intros Hne. induction d as [|[k' v'] d IH]; simpl.
  - by apply String.eqb_neq in Hne as ->.
  - destruct (String.eqb k' key) eqn:Hk; simpl.
    + apply String.eqb_eq in Hk as ->.
      by apply String.eqb_neq in Hne as ->.
    + by rewrite IH.
Qed.

Lemma dict_set_same d key v : Dict.get d key = Some v → Dict.set d key v = d.
Proof.
  induction d as [|[k v'] d IH]; simpl; [done|].
  destruct (String.eqb k key) eqn:Hk.
  - by intros [= ->].
  - intros Hget. by rewrite IH.
Qed.

Lemma dict_set_new d key v :
  Dict.get d key = None → Dict.set d key v = d ++ [(key, v)].
Proof.
  induction d as [|[k v'] d IH]; simpl; [done|].
  destruct (String.eqb k key) eqn:Hk; [done|].
  intros Hget. by rewrite IH.
Qed.

Lemma dict_set_set d key v v' :
  Dict.set (Dict.set d key v) key v' = Dict.set d key v'.
Proof.
  induction d as [|[k v0] d IH]; simpl.
  - by rewrite String.eqb_refl.
  - destruct (String.eqb k key) eqn:Hk; simpl; rewrite Hk; [done|].
    by rewrite IH.
Qed.

Lemma dict_contains_get d key :
  Dict.contains d key = match Dict.get d key with Some _ => true | None => false end.
Proof. done. Qed.

End DictFacts.

Section CategoryFacts.
Implicit Types (objects : Ref → ImageItem) (o : ImageItem) (image r : Ref)
  (group text value : string) (values : list string) (sel : list Ref).

Lemma str_in_elem text values : str_in text values = true ↔ text ∈ values.
Proof.
  unfold str_in. rewrite existsb_exists. split.
  - intros (x & Hx & ->%String.eqb_eq). by apply list_elem_of_In.
  - intros Hx. exists text. split; [by apply list_elem_of_In|].
    apply String.eqb_refl.
Qed.

Lemma str_in_not_elem text values : str_in text values = false ↔ text ∉ values.
Proof.
  rewrite <- str_in_elem. by destruct (str_in text values).
Qed.

Lemma with_categories_same o : with_categories o (categories o) = o.
Proof. by destruct o. Qed.

Lemma with_categories_twice o (c c' : dict (list string)) :
  with_categories (with_categories o c) c' = with_categories o c'.
Proof. done. Qed.

Lemma update_eq objects image o : update objects image o image = o.
Proof. unfold update. by rewrite Nat.eqb_refl. Qed.

Lemma assign_category_spec group text objects image :
  ∃ objects',
    assign_category group text objects image = Done objects'
    ∧ ∀ r, objects' r
           = if Nat.eqb r image then assigned group text (objects r)
             else objects r.
Proof.
  unfold assign_category, assigned, Dict.contains, Dict.getitem.
  destruct (Dict.get (categories (objects image)) group) as [values|] eqn:Hget;
    cbn [negb].
  - rewrite Hget. cbn [and_then].
    destruct (str_in text values) eqn:Hin; cbn [negb].
    + eexists. split; [done|]. intros r.
      destruct (Nat.eqb_spec r image) as [->|]; [|done].
      rewrite Hget. cbn [default from_option id].
      by rewrite Hin, dict_set_same, with_categories_same.
    + cbn [and_then]. eexists. split; [done|]. intros r.
      unfold update. destruct (Nat.eqb_spec r image) as [->|]; [|done].
      rewrite Hget. cbn [default from_option id]. by rewrite Hin.
  - rewrite update_eq. cbn [with_categories categories].
    rewrite dict_get_set. cbn [and_then].
    assert (str_in text [] = false) as -> by done. cbn [negb and_then].
    eexists. split; [done|]. intros r.
    unfold update. destruct (Nat.eqb_spec r image) as [->|]; [|done].
    rewrite Hget. cbn [default from_option id str_in existsb with_categories].
    by rewrite dict_set_set.
Qed.

Lemma remove_first_spec value values :
  value ∈ values → list_remove value values = Done (remove_first value values).
Proof.
  induction values as [|y values IH]; [by intros ?%elem_of_nil|].
  intros Hin. simpl. destruct (String.eqb y value) eqn:Hy; [done|].
  apply String.eqb_neq in Hy.
  apply elem_of_cons in Hin as [->|Hin]; [done|]. by rewrite IH.
Qed.

Lemma unassign_category_spec group value objects image :
  ∃ objects',
    unassign_category group value objects image = Done objects'
    ∧ ∀ r, objects' r
           = if Nat.eqb r image then unassigned group value (objects r)
             else objects r.
Proof.
  unfold unassign_category, unassigned, Dict.contains, Dict.getitem.
  destruct (Dict.get (categories (objects image)) group) as [values|] eqn:Hget.
  - cbn [and_then]. destruct (str_in value values) eqn:Hin.
    + cbn [and_then]. rewrite remove_first_spec by by apply str_in_elem.
      cbn [and_then]. eexists. split; [done|]. intros r.
      unfold update. destruct (Nat.eqb_spec r image) as [->|]; [|done].
      by rewrite Hget, Hin.
    + eexists. split; [done|]. intros r.
      destruct (Nat.eqb_spec r image) as [->|]; [|done]. by rewrite Hget, Hin.
  - eexists. split; [done|]. intros r.
    destruct (Nat.eqb_spec r image) as [->|]; [|done]. by rewrite Hget.
Qed.

(** A loop that rewrites the attributes of each visited image by [f], where
    a second visit changes nothing, rewrites every visited image once. *)
Lemma for_all_pointwise (f : ImageItem → ImageItem)
    (body : (Ref → ImageItem) → Ref → outcome (Ref → ImageItem)) sel objects :
  (∀ objects image,
     ∃ objects', body objects image = Done objects'
                 ∧ ∀ r, objects' r
                        = if Nat.eqb r image then f (objects r) else objects r) →
  (∀ r, r ∈ sel → f (f (objects r)) = f (objects r)) →
  ∃ objects',
    for_all body objects sel = Done objects'
    ∧ ∀ r, objects' r = if decide (r ∈ sel) then f (objects r) else objects r.
Proof.
  intros Hbody. revert objects.
  induction sel as [|image sel IH]; intros objects Hidem.
  - exists objects. split; [done|]. intros r.
    destruct (decide (r ∈ [])) as [Hin|]; [by apply elem_of_nil in Hin|done].
  - destruct (Hbody objects image) as (objects1 & Hrun & Hobjects1).
    destruct (IH objects1) as (objects' & Hrun' & Hobjects').
    { intros r Hr. rewrite Hobjects1.
      destruct (Nat.eqb r image); [|apply Hidem; by right].
      rewrite !Hidem; [done|by right..]. }
    exists objects'. cbn [for_all]. rewrite Hrun. cbn [and_then].
    split; [done|]. intros r. rewrite Hobjects', Hobjects1.
    destruct (Nat.eqb_spec r image) as [->|Hne].
    + destruct (decide (image ∈ image :: sel)) as [_|Hn]; [|destruct Hn; by left].
      destruct (decide (image ∈ sel)); [|done]. apply Hidem. by left.
    + destruct (decide (r ∈ sel)) as [Hin|Hnotin],
        (decide (r ∈ image :: sel)) as [Hin'|Hnotin']; try done.
      * destruct Hnotin'. by right.
      * apply elem_of_cons in Hin' as [->|?]; done.
Qed.

Lemma assigned_get group text o :
  Dict.get (categories (assigned group text o)) group
  = Some (let values := default [] (Dict.get (categories o) group) in
          if str_in text values then values else values ++ [text]).
Proof. unfold assigned. cbn [categories with_categories]. apply dict_get_set. Qed.

Lemma assigned_idempotent group text o :
  assigned group text (assigned group text o) = assigned group text o.
Proof.
  unfold assigned at 1. rewrite assigned_get. cbn [default from_option id].
  set (values := default [] (Dict.get (categories o) group)).
  assert (str_in text (if str_in text values then values else values ++ [text])
          = true) as Hin.
  { destruct (str_in text values) eqn:Hin; [done|].
    apply str_in_elem, elem_of_app. right. by left. }
  rewrite Hin. unfold assigned. fold values.
  rewrite with_categories_twice.
  change (categories (with_categories ?o' ?c)) with c.
  by rewrite dict_set_set.
Qed.

Lemma remove_first_absent value values :
  value ∉ values → remove_first value values = values.
Proof.
  induction values as [|y values IH]; [done|].
  intros [Hne Hnotin]%not_elem_of_cons. simpl.
  destruct (String.eqb y value) eqn:Hy; [|by rewrite IH].
  apply String.eqb_eq in Hy. congruence.
Qed.

Lemma remove_first_last value values :
  value ∉ values → remove_first value (values ++ [value]) = values.
Proof.
  induction values as [|y values IH]; simpl.
  - by rewrite String.eqb_refl.
  - intros [Hne Hnotin]%not_elem_of_cons.
    destruct (String.eqb y value) eqn:Hy; [|by rewrite IH].
    apply String.eqb_eq in Hy. congruence.
Qed.

Lemma remove_first_filter value values :
  NoDup values → remove_first value values = filter (λ v, v ≠ value) values.
Proof.
  induction 1 as [|y values Hy Hnd IH]; [done|]. simpl.
  destruct (String.eqb y value) eqn:Heq.
  - apply String.eqb_eq in Heq as ->.
    rewrite filter_cons_False by (intros Hne; by apply Hne).
    rewrite <- IH. symmetry. by apply remove_first_absent.
  - apply String.eqb_neq in Heq. by rewrite filter_cons_True, IH.
Qed.

Lemma remove_first_not_elem value values :
  NoDup values → value ∉ remove_first value values.
Proof.
  intros Hnd. rewrite remove_first_filter by done.
  intros [Hne _]%list_elem_of_filter. by apply Hne.
Qed.

Lemma unassigned_idempotent group value o :
  NoDup (default [] (Dict.get (categories o) group)) →
  unassigned group value (unassigned group value o) = unassigned group value o.
Proof.
  intros Hnd. unfold unassigned at 2.
  destruct (Dict.get (categories o) group) as [values|] eqn:Hget.
  - simpl in Hnd. destruct (str_in value values) eqn:Hin.
    + unfold unassigned. change (categories (with_categories ?o' ?c)) with c.
      rewrite dict_get_set.
      assert (str_in value (remove_first value values) = false) as Hout
        by by apply str_in_not_elem, remove_first_not_elem.
      by rewrite Hout, Hget, Hin.
    + unfold unassigned. by rewrite Hget, Hin.
  - unfold unassigned. by rewrite Hget.
Qed.

Lemma categories_text_new_empty_group o group :
  categories_text (with_categories o (categories o ++ [(group, [])]))
  = categories_text o.
Proof.
  unfold categories_text. change (categories (with_categories ?o' ?c)) with c.
  by rewrite foldl_app.
Qed.

(** Assigning a value that is new for the image and removing it again gives
    back the attributes, up to an empty entry for a group that was not in
    the dict before. *)
Lemma unassigned_assigned group value o :
  value ∉ default [] (Dict.get (categories o) group) →
  unassigned group value (assigned group value o)
  = match Dict.get (categories o) group with
    | Some _ => o
    | None => with_categories o (categories o ++ [(group, [])])
    end.
Proof.
  intros Hnotin. unfold unassigned. rewrite assigned_get. cbn zeta.
  pose proof Hnotin as Hin%str_in_not_elem. rewrite Hin.
  assert (str_in value (default [] (Dict.get (categories o) group) ++ [value])
          = true) as ->.
  { apply str_in_elem, elem_of_app. right. by left. }
  rewrite remove_first_last by done. unfold assigned. rewrite Hin.
  rewrite with_categories_twice.
  change (categories (with_categories ?o' ?c)) with c.
  rewrite dict_set_set.
  destruct (Dict.get (categories o) group) as [values|] eqn:Hget; simpl.
  - by rewrite dict_set_same, with_categories_same.
  - by rewrite dict_set_new.
Qed.

End CategoryFacts.

Section CategoryLoops.
Implicit Types (objects : Ref → ImageItem) (sel : list Ref)
  (group value : string).

Lemma category_selected_loop (w : MainWindow Ref)
    (category_widgets : dict unit) objects sel group value :
  get_selected_images w = Ok sel → value ≠ ""%string →
  is_Some (Dict.get category_widgets group) →
  ∃ objects',
    category_selected w category_widgets objects group value = Done objects'
    ∧ ∀ r, objects' r
           = if decide (r ∈ sel) then assigned group value (objects r)
             else objects r.
Proof.
  intros Hsel Hvalue [widgets Hwidgets]. unfold category_selected, str_truthy.
  apply String.eqb_neq in Hvalue as ->. cbn [negb]. rewrite Hsel. cbn [lift and_then].
  destruct sel as [|image sel].
  - exists objects. split; [done|]. intros r.
    destruct (decide (r ∈ [])) as [Hin|]; [by apply elem_of_nil in Hin|done].
  - cbn [Py.truthy negb].
    destruct (for_all_pointwise (assigned group value)
                (assign_category group value) (image :: sel) objects)
      as (objects' & -> & Hobjects').
    + apply assign_category_spec.
    + intros r _. apply assigned_idempotent.
    + exists objects'. unfold Dict.getitem. rewrite Hwidgets.
      by cbn [and_then].
Qed.

(** For a group without widgets the method raises once the loop has run. *)
Lemma category_selected_no_widget (w : MainWindow Ref)
    (category_widgets : dict unit) objects sel group value :
  get_selected_images w = Ok sel → sel ≠ [] → value ≠ ""%string →
  Dict.get category_widgets group = None →
  category_selected w category_widgets objects group value
  = Fails (KeyError group).
Proof.
  intros Hsel Hne Hvalue Hwidgets. unfold category_selected, str_truthy.
  apply String.eqb_neq in Hvalue as ->. cbn [negb]. rewrite Hsel. cbn [lift and_then].
  destruct sel as [|image sel]; [done|]. cbn [Py.truthy negb].
  destruct (for_all_pointwise (assigned group value)
              (assign_category group value) (image :: sel) objects)
    as (objects' & -> & _).
  - apply assign_category_spec.
  - intros r _. apply assigned_idempotent.
  - unfold Dict.getitem. rewrite Hwidgets. by cbn [and_then].
Qed.

Lemma context_menu_loop (w : MainWindow Ref) objects sel group value :
  get_selected_images w = Ok sel →
  (∀ r, r ∈ sel →
     unassigned group value (unassigned group value (objects r))
     = unassigned group value (objects r)) →
  ∃ objects',
    show_category_context_menu w objects group value = Done objects'
    ∧ ∀ r, objects' r
           = if decide (r ∈ sel) then unassigned group value (objects r)
             else objects r.
Proof.
  intros Hsel Hidem. unfold show_category_context_menu.
  rewrite Hsel. cbn [lift and_then]. apply for_all_pointwise; [|done].
  apply unassign_category_spec.
Qed.

End CategoryLoops.

(** X7. [category_selected] with a non-empty text, for a group that has
    widgets, returns and puts the text among the values of the group for
    every selected image: appended last when the image did not have it
    (creating the group when missing), untouched when it did. The other
    groups and attributes of the selected images, and the images that are
    not selected, stay as they were. *)
Theorem category_selected_assigns (w : MainWindow Ref)
    (category_widgets : dict unit) (objects : Ref → ImageItem)
    (sel : list Ref) (group value : string) :
  get_selected_images w = Ok sel → value ≠ ""%string →
  is_Some (Dict.get category_widgets group) →
  ∃ objects',
    category_selected w category_widgets objects group value = Done objects'
    ∧ (∀ r, r ∉ sel → objects' r = objects r)
    ∧ ∀ r, r ∈ sel →
        let values := default [] (Dict.get (categories (objects r)) group) in
        Dict.get (categories (objects' r)) group
        = Some (if str_in value values then values else values ++ [value])
        ∧ (∀ g, g ≠ group →
                Dict.get (categories (objects' r)) g
                = Dict.get (categories (objects r)) g)
        ∧ with_categories (objects' r) (categories (objects r)) = objects r.
Proof.
  intros Hsel Hvalue Hwidgets.
  destruct (category_selected_loop w category_widgets objects sel group value
              Hsel Hvalue Hwidgets)
    as (objects' & Hrun & Hobjects').
  exists objects'. split; [done|]. split.
  - intros r Hr. rewrite Hobjects'. by rewrite decide_False.
  - intros r Hr. rewrite Hobjects', decide_True by done.
    split; [apply assigned_get|]. split.
    + intros g Hg. unfold assigned.
      change (categories (with_categories ?o' ?c)) with c.
      by rewrite dict_get_set_ne.
    + unfold assigned. by rewrite with_categories_twice, with_categories_same.
Qed.

Lemma category_selected_assigns_witness :
  ∃ objects',
    category_selected (scenario_window "Single" 1) scenario_widgets
      scenario_objects
      "Era" "1900-1920" = Done objects'
    ∧ (∀ r, r ∉ [0; 1; 2; 3; 4; 5; 6]%nat → objects' r = scenario_objects r)
    ∧ ∀ r, r ∈ [0; 1; 2; 3; 4; 5; 6]%nat →
        let values :=
          default [] (Dict.get (categories (scenario_objects r)) "Era") in
        Dict.get (categories (objects' r)) "Era"
        = Some (if str_in "1900-1920" values then values
                else values ++ ["1900-1920"%string])
        ∧ (∀ g, g ≠ "Era"%string →
                Dict.get (categories (objects' r)) g
                = Dict.get (categories (scenario_objects r)) g)
        ∧ with_categories (objects' r) (categories (scenario_objects r))
          = scenario_objects r.
Proof.
  apply (category_selected_assigns (scenario_window "Single" 1)
           scenario_widgets scenario_objects [0; 1; 2; 3; 4; 5; 6]%nat "Era" "1900-1920").
  - reflexivity.
  - discriminate.
  - by eexists.
Defined.

(** X8. [category_selected], for a group that has widgets, never creates a
    duplicate: a group of an image whose values were pairwise different
    keeps that property. And choosing the same text a second time changes
    no image. *)
Theorem category_selected_no_duplicates (w : MainWindow Ref)
    (category_widgets : dict unit) (objects : Ref → ImageItem)
    (sel : list Ref) (group value : string) :
  get_selected_images w = Ok sel → value ≠ ""%string →
  is_Some (Dict.get category_widgets group) →
  ∃ objects',
    category_selected w category_widgets objects group value = Done objects'
    ∧ (∀ r g, NoDup (default [] (Dict.get (categories (objects r)) g)) →
              NoDup (default [] (Dict.get (categories (objects' r)) g)))
    ∧ ∃ objects'',
        category_selected w category_widgets objects' group value
        = Done objects''
        ∧ ∀ r, objects'' r = objects' r.
Proof.
  intros Hsel Hvalue Hwidgets.
  destruct (category_selected_loop w category_widgets objects sel group value
              Hsel Hvalue Hwidgets)
    as (objects' & Hrun & Hobjects').
  exists objects'. split; [done|]. split.
  - intros r g Hnd. rewrite Hobjects'.
    destruct (decide (r ∈ sel)); [|done].
    destruct (decide (g = group)) as [->|Hg].
    + rewrite assigned_get. cbn [default from_option id].
      destruct (str_in value _) eqn:Hin; [done|].
      apply str_in_not_elem in Hin.
      apply NoDup_app. split; [done|]. split; [|apply NoDup_singleton].
      intros x Hx ->%list_elem_of_singleton. done.
    + unfold assigned. change (categories (with_categories ?o' ?c)) with c.
      by rewrite dict_get_set_ne.
  - destruct (category_selected_loop w category_widgets objects' sel group value
              Hsel Hvalue Hwidgets)
      as (objects'' & Hrun' & Hobjects'').
    exists objects''. split; [done|]. intros r.
    rewrite Hobjects'', Hobjects'.
    destruct (decide (r ∈ sel)); [|done]. apply assigned_idempotent.
Qed.

Lemma category_selected_no_duplicates_witness :
  ∃ objects',
    category_selected (scenario_window "Single" 1) scenario_widgets
      scenario_objects
      "Type" "Postcard" = Done objects'
    ∧ (∀ r g, NoDup (default [] (Dict.get (categories (scenario_objects r)) g)) →
              NoDup (default [] (Dict.get (categories (objects' r)) g)))
    ∧ ∃ objects'',
        category_selected (scenario_window "Single" 1) scenario_widgets
          objects'
          "Type" "Postcard" = Done objects''
        ∧ ∀ r, objects'' r = objects' r.
Proof.
  apply (category_selected_no_duplicates (scenario_window "Single" 1)
           scenario_widgets scenario_objects [0; 1; 2; 3; 4; 5; 6]%nat "Type" "Postcard").
  - reflexivity.
  - discriminate.
  - by eexists.
Defined.

(** X9. The "Remove" action of the category context menu, on selected
    images whose values for the group are pairwise different, removes the
    value from the group of every selected image and keeps the other values
    in order; images without the group or without the value, the other
    groups and attributes, and the images that are not selected stay as
    they were. *)
Theorem context_menu_removes (w : MainWindow Ref)
    (objects : Ref → ImageItem) (sel : list Ref) (group value : string) :
  get_selected_images w = Ok sel →
  (∀ r, r ∈ sel → NoDup (default [] (Dict.get (categories (objects r)) group))) →
  ∃ objects',
    show_category_context_menu w objects group value = Done objects'
    ∧ (∀ r, r ∉ sel → objects' r = objects r)
    ∧ ∀ r, r ∈ sel →
        Dict.get (categories (objects' r)) group
        = filter (λ v, v ≠ value) <$> Dict.get (categories (objects r)) group
        ∧ (∀ g, g ≠ group →
                Dict.get (categories (objects' r)) g
                = Dict.get (categories (objects r)) g)
        ∧ with_categories (objects' r) (categories (objects r)) = objects r.
Proof.
  intros Hsel Hnd.
  destruct (context_menu_loop w objects sel group value Hsel)
    as (objects' & Hrun & Hobjects').
  { intros r Hr. apply unassigned_idempotent. by apply Hnd. }
  exists objects'. split; [done|]. split.
  - intros r Hr. rewrite Hobjects'. by rewrite decide_False.
  - intros r Hr. rewrite Hobjects', decide_True by done.
    specialize (Hnd r Hr). unfold unassigned.
    destruct (Dict.get (categories (objects r)) group) as [values|] eqn:Hget.
    + simpl in Hnd. destruct (str_in value values) eqn:Hin.
      * change (categories (with_categories ?o' ?c)) with c.
        rewrite dict_get_set, with_categories_twice, with_categories_same.
        split; [by rewrite remove_first_filter|]. split; [|done].
        intros g Hg. by rewrite dict_get_set_ne.
      * rewrite Hget, with_categories_same. simpl.
        apply str_in_not_elem in Hin.
        rewrite <- remove_first_filter, remove_first_absent by done. done.
    + by rewrite Hget, with_categories_same.
Qed.

Lemma context_menu_removes_witness :
  ∃ objects',
    show_category_context_menu (scenario_window "Single" 1) scenario_objects
      "Type" "Postcard" = Done objects'
    ∧ (∀ r, r ∉ [0; 1; 2; 3; 4; 5; 6]%nat → objects' r = scenario_objects r)
    ∧ ∀ r, r ∈ [0; 1; 2; 3; 4; 5; 6]%nat →
        Dict.get (categories (objects' r)) "Type"
        = filter (λ v, v ≠ "Postcard"%string)
            <$> Dict.get (categories (scenario_objects r)) "Type"
        ∧ (∀ g, g ≠ "Type"%string →
                Dict.get (categories (objects' r)) g
                = Dict.get (categories (scenario_objects r)) g)
        ∧ with_categories (objects' r) (categories (scenario_objects r))
          = scenario_objects r.
Proof.
  apply (context_menu_removes (scenario_window "Single" 1) scenario_objects
           [0; 1; 2; 3; 4; 5; 6]%nat "Type" "Postcard").
  - reflexivity.
  - intros r _. simpl. apply NoDup_singleton.
Defined.

(** X10. For a group that has widgets: assigning to the selected images a
    value none of them has for the group, and removing it again through the
    context menu, leaves the exported category text and every value list of
    every image unchanged (an image that did not have the group keeps it
    with no value). *)
Theorem assign_then_remove (w : MainWindow Ref)
    (category_widgets : dict unit) (objects : Ref → ImageItem)
    (sel : list Ref) (group value : string) :
  get_selected_images w = Ok sel → value ≠ ""%string →
  is_Some (Dict.get category_widgets group) →
  (∀ r, r ∈ sel → value ∉ default [] (Dict.get (categories (objects r)) group)) →
  ∃ objects1 objects2,
    category_selected w category_widgets objects group value = Done objects1
    ∧ show_category_context_menu w objects1 group value = Done objects2
    ∧ ∀ r,
        categories_text (objects2 r) = categories_text (objects r)
        ∧ (∀ g, default [] (Dict.get (categories (objects2 r)) g)
                = default [] (Dict.get (categories (objects r)) g))
        ∧ with_categories (objects2 r) (categories (objects r)) = objects r.
Proof.
  intros Hsel Hvalue Hwidgets Hnew.
  destruct (category_selected_loop w category_widgets objects sel group value
              Hsel Hvalue Hwidgets)
    as (objects1 & Hrun1 & Hobjects1).
  assert (∀ r, r ∈ sel →
            unassigned group value (objects1 r)
            = match Dict.get (categories (objects r)) group with
              | Some _ => objects r
              | None => with_categories (objects r)
                          (categories (objects r) ++ [(group, [])])
              end) as Hback.
  { intros r Hr. rewrite Hobjects1, decide_True by done.
    apply unassigned_assigned. by apply Hnew. }
  destruct (context_menu_loop w objects1 sel group value Hsel)
    as (objects2 & Hrun2 & Hobjects2).
  { intros r Hr. rewrite (Hback r Hr).
    specialize (Hnew r Hr). unfold unassigned.
    destruct (Dict.get (categories (objects r)) group) as [values|] eqn:Hget.
    - rewrite Hget. simpl in Hnew. by apply str_in_not_elem in Hnew as ->.
    - change (categories (with_categories ?o' ?c)) with c.
      rewrite <- dict_set_new by done. by rewrite dict_get_set. }
  exists objects1, objects2. split; [done|]. split; [done|]. intros r.
  rewrite Hobjects2. destruct (decide (r ∈ sel)) as [Hr|Hr].
  - rewrite (Hback r Hr).
    destruct (Dict.get (categories (objects r)) group) as [values|] eqn:Hget.
    + by rewrite with_categories_same.
    + split; [apply categories_text_new_empty_group|].
      split; [|by rewrite with_categories_twice, with_categories_same].
      intros g. change (categories (with_categories ?o' ?c)) with c.
      rewrite <- dict_set_new by done.
      destruct (decide (g = group)) as [->|Hg].
      * by rewrite dict_get_set, Hget.
      * by rewrite dict_get_set_ne.
  - rewrite Hobjects1, decide_False by done. by rewrite with_categories_same.
Qed.

Lemma assign_then_remove_witness :
  ∃ objects1 objects2,
    category_selected (scenario_window "Single" 1) scenario_widgets
      scenario_objects
      "Theme" "Portrait" = Done objects1
    ∧ show_category_context_menu (scenario_window "Single" 1) objects1
        "Theme" "Portrait" = Done objects2
    ∧ ∀ r,
        categories_text (objects2 r) = categories_text (scenario_objects r)
        ∧ (∀ g, default [] (Dict.get (categories (objects2 r)) g)
                = default [] (Dict.get (categories (scenario_objects r)) g))
        ∧ with_categories (objects2 r) (categories (scenario_objects r))
          = scenario_objects r.
Proof.
  apply (assign_then_remove (scenario_window "Single" 1) scenario_widgets
           scenario_objects
           [0; 1; 2; 3; 4; 5; 6]%nat "Theme" "Portrait").
  - reflexivity.
  - discriminate.
  - by eexists.
  - intros r _. simpl. apply not_elem_of_nil.
Defined.

(** ** Properties of reordering and deleting *)

Section RowFacts.
Context {A : Type}.
Implicit Types (l : list A) (rows : list Z) (ks : list nat) (j k : nat).

Lemma setitem_nat l k (x : A) :
  (k < length l)%nat → setitem l (Z.of_nat k) x = Ok (<[k := x]> l).
Proof.
  intros Hk. unfold setitem, Py.len.
  destruct (Z.ltb_spec (Z.of_nat k) 0); [lia|].
  destruct (Z.leb_spec 0 (Z.of_nat k)); [|lia].
  destruct (Z.ltb_spec (Z.of_nat k) (Z.of_nat (length l))); [|lia].
  simpl. by rewrite Nat2Z.id.
Qed.

Lemma pop_nat l k :
  (k < length l)%nat → pop l (Z.of_nat k) = Ok (delete k l).
Proof.
  intros Hk. unfold pop, Py.len.
  destruct (Z.ltb_spec (Z.of_nat k) 0); [lia|].
  destruct (Z.leb_spec 0 (Z.of_nat k)); [|lia].
  destruct (Z.ltb_spec (Z.of_nat k) (Z.of_nat (length l))); [|lia].
  simpl. by rewrite Nat2Z.id.
Qed.

(** Swapping two neighbours, whichever is written first. *)
Lemma swap_neighbours l k (a b : A) :
  l !! k = Some a → l !! S k = Some b →
  <[k := b]> (<[S k := a]> l) = <[S k := a]> (<[k := b]> l)
  ∧ <[k := b]> (<[S k := a]> l) ≡ₚ l.
Proof.
  revert l. induction k as [|k IH]; intros l Ha Hb.
  - destruct l as [|x [|y l]]; simplify_eq/=. split; [done|]. apply perm_swap.
  - destruct l as [|x l]; simplify_eq/=.
    destruct (IH l Ha Hb) as [Heq Hperm]. split; [by f_equal|].
    by apply perm_skip.
Qed.

Lemma swap_items_up l k (a b : A) :
  l !! k = Some a → l !! S k = Some b →
  swap_items l (Z.of_nat (S k)) (Z.of_nat (S k) - 1)
  = Ok (<[k := b]> (<[S k := a]> l)).
Proof.
  intros Ha Hb. unfold swap_items.
  replace (Z.of_nat (S k) - 1) with (Z.of_nat k) by lia.
  pose proof (lookup_lt_Some _ _ _ Hb).
  rewrite !getitem_nat, Ha, Hb, !bind_Ok.
  rewrite setitem_nat, bind_Ok by lia.
  rewrite setitem_nat by (rewrite length_insert; lia). done.
Qed.

Lemma swap_items_down l k (a b : A) :
  l !! k = Some a → l !! S k = Some b →
  swap_items l (Z.of_nat k) (Z.of_nat k + 1)
  = Ok (<[S k := a]> (<[k := b]> l)).
Proof.
  intros Ha Hb. unfold swap_items.
  replace (Z.of_nat k + 1) with (Z.of_nat (S k)) by lia.
  pose proof (lookup_lt_Some _ _ _ Hb).
  rewrite !getitem_nat, Ha, Hb, !bind_Ok.
  rewrite setitem_nat, bind_Ok by lia.
  rewrite setitem_nat by (rewrite length_insert; lia). done.
Qed.

(** The loop of [move_selected_up] over rows in ascending order. *)
Lemma move_up_loop ks l :
  StronglySorted lt ks →
  Forall (λ k, (1 ≤ k < length l)%nat) ks →
  ∃ l',
    Py.for_each (λ images idx, swap_items images idx (idx - 1)) l
      (Z.of_nat <$> ks) = Ok l'
    ∧ l' ≡ₚ l
    ∧ (∀ k, k ∈ ks → l' !! (k - 1)%nat = l !! k)
    ∧ (∀ j, (∀ k, k ∈ ks → (j + 1 < k)%nat) → l' !! j = l !! j).
Proof.
  intros Hsorted. revert l.
  induction Hsorted as [|k ks _ IH Hlt]; intros l Hbounds.
  - exists l. split; [done|]. split; [done|].
    split; [by intros k ?%elem_of_nil|done].
  - apply Forall_cons in Hbounds as [Hk Hbounds].
    destruct k as [|k]; [lia|].
    destruct (lookup_lt_is_Some_2 l k) as [a Ha]; [lia|].
    destruct (lookup_lt_is_Some_2 l (S k)) as [b Hb]; [lia|].
    destruct (swap_neighbours l k a b Ha Hb) as [_ Hperm].
    destruct (IH (<[k := b]> (<[S k := a]> l))) as (l' & Hrun & Hperm' & Hsel & Hlow).
    { eapply Forall_impl; [exact Hbounds|]. intros k'. simpl.
      rewrite !length_insert. done. }
    exists l'. rewrite fmap_cons. cbn [Py.for_each].
    rewrite (swap_items_up l k a b Ha Hb), bind_Ok.
    split; [done|]. split; [by etrans|]. split.
    + intros k' [->|Hk']%elem_of_cons.
      * replace (S k - 1)%nat with k by lia. rewrite Hlow.
        -- rewrite list_lookup_insert_eq; [done|]. rewrite length_insert. lia.
        -- intros k' Hk'. pose proof (proj1 (Forall_forall _ _) Hlt k' Hk'). lia.
      * pose proof (proj1 (Forall_forall _ _) Hlt k' Hk').
        rewrite (Hsel k' Hk'), !list_lookup_insert_ne by lia. done.
    + intros j Hj. rewrite Hlow.
      * pose proof (Hj (S k) ltac:(by left)).
        rewrite !list_lookup_insert_ne by lia. done.
      * intros k' Hk'. apply Hj. by right.
Qed.

(** The loop of [move_selected_down] over rows in descending order. *)
Lemma move_down_loop ks l :
  StronglySorted (flip lt) ks →
  Forall (λ k, (S k < length l)%nat) ks →
  ∃ l',
    Py.for_each (λ images idx, swap_items images idx (idx + 1)) l
      (Z.of_nat <$> ks) = Ok l'
    ∧ l' ≡ₚ l
    ∧ (∀ k, k ∈ ks → l' !! S k = l !! k)
    ∧ (∀ j, (∀ k, k ∈ ks → (S k < j)%nat) → l' !! j = l !! j).
Proof.
  intros Hsorted. revert l.
  induction Hsorted as [|k ks _ IH Hlt]; intros l Hbounds.
  - exists l. split; [done|]. split; [done|].
    split; [by intros k ?%elem_of_nil|done].
  - apply Forall_cons in Hbounds as [Hk Hbounds].
    destruct (lookup_lt_is_Some_2 l k) as [a Ha]; [lia|].
    destruct (lookup_lt_is_Some_2 l (S k)) as [b Hb]; [lia|].
    destruct (swap_neighbours l k a b Ha Hb) as [Heq Hperm].
    destruct (IH (<[S k := a]> (<[k := b]> l))) as (l' & Hrun & Hperm' & Hsel & Hhigh).
    { eapply Forall_impl; [exact Hbounds|]. intros k'. simpl.
      rewrite !length_insert. done. }
    exists l'. rewrite fmap_cons. cbn [Py.for_each].
    rewrite (swap_items_down l k a b Ha Hb), bind_Ok.
    split; [done|]. split; [etrans; [exact Hperm'|by rewrite <- Heq]|]. split.
    + intros k' [->|Hk']%elem_of_cons.
      * rewrite Hhigh.
        -- rewrite list_lookup_insert_eq; [done|]. rewrite length_insert. lia.
        -- intros k' Hk'. pose proof (proj1 (Forall_forall _ _) Hlt k' Hk').
           unfold flip in *. lia.
      * pose proof (proj1 (Forall_forall _ _) Hlt k' Hk'). unfold flip in *.
        rewrite (Hsel k' Hk'), !list_lookup_insert_ne by lia. done.
    + intros j Hj. rewrite Hhigh.
      * pose proof (Hj k ltac:(by left)).
        rewrite !list_lookup_insert_ne by lia. done.
      * intros k' Hk'. apply Hj. by right.
Qed.

End RowFacts.

Section DeleteRows.
Context {A : Type}.
Implicit Types (l : list A) (rows : list Z) (ks : list nat) (j k : nat).

Lemma unselected_from_app j rows l1 l2 :
  unselected_from j rows (l1 ++ l2)
  = unselected_from j rows l1 ++ unselected_from (j + length l1) rows l2.
Proof.
  revert j. induction l1 as [|x l1 IH]; intros j; simpl.
  - by rewrite Nat.add_0_r.
  - rewrite IH, Nat.add_succ_r. simpl. by destruct (decide _).
Qed.

Lemma unselected_from_all j rows l :
  (∀ n, (n < length l)%nat → Z.of_nat (j + n) ∉ rows) →
  unselected_from j rows l = l.
Proof.
  revert j. induction l as [|x l IH]; intros j Hkeep; [done|]. simpl.
  rewrite decide_False.
  - f_equal. apply IH. intros n Hn. specialize (Hkeep (S n)).
    rewrite Nat.add_succ_r in Hkeep. apply Hkeep. simpl. lia.
  - specialize (Hkeep 0%nat). rewrite Nat.add_0_r in Hkeep.
    apply Hkeep. simpl. lia.
Qed.

Lemma unselected_from_ext j rows rows' l :
  (∀ n, (n < length l)%nat →
        Z.of_nat (j + n) ∈ rows ↔ Z.of_nat (j + n) ∈ rows') →
  unselected_from j rows l = unselected_from j rows' l.
Proof.
  revert j. induction l as [|x l IH]; intros j Hext; [done|]. simpl.
  rewrite (IH (S j)).
  - pose proof (Hext 0%nat ltac:(simpl; lia)) as H0.
    rewrite Nat.add_0_r in H0.
    destruct (decide (Z.of_nat j ∈ rows)), (decide (Z.of_nat j ∈ rows'));
      tauto.
  - intros n Hn. specialize (Hext (S n)).
    rewrite Nat.add_succ_r in Hext. apply Hext. simpl. lia.
Qed.

(** Deleting row [k], and then rows below [k], leaves the rows that are
    neither. *)
Lemma unselected_delete k ks l :
  (k < length l)%nat → Forall (λ k', (k' < k)%nat) ks →
  unselected (Z.of_nat <$> ks) (delete k l)
  = unselected (Z.of_nat <$> k :: ks) l.
Proof.
  intros Hk Hlt. unfold unselected. rewrite fmap_cons.
  assert (∀ n, (k ≤ n)%nat → Z.of_nat n ∉ Z.of_nat <$> ks) as Hhigh.
  { intros n Hn (k' & Heq & Hk')%list_elem_of_fmap.
    pose proof (proj1 (Forall_forall _ _) Hlt k' Hk') as Hlt'.
    simpl in Hlt'. lia. }
  destruct (lookup_lt_is_Some_2 l k Hk) as [x Hx].
  rewrite delete_take_drop.
  rewrite <- (take_drop_middle l k x Hx) at 3.
  rewrite !unselected_from_app, length_take_le by lia.
  cbn [unselected_from Nat.add].
  rewrite decide_True by by left.
  rewrite !(unselected_from_all _ _ (drop (S k) l)).
  - f_equal. apply unselected_from_ext. intros n Hn.
    rewrite length_take in Hn. rewrite elem_of_cons. split; [by right|].
    intros [Heq|?]; [lia|done].
  - intros n _ Hin.
    apply elem_of_cons in Hin as [Heq|Hin]; [lia|].
    by apply (Hhigh (S k + n)%nat ltac:(lia)).
  - intros n _. apply Hhigh. lia.
Qed.

(** The loop of [delete_selected] over rows in descending order. *)
Lemma delete_loop ks l :
  StronglySorted (flip lt) ks →
  Forall (λ k, (k < length l)%nat) ks →
  Py.for_each (λ images idx, pop images idx) l (Z.of_nat <$> ks)
  = Ok (unselected (Z.of_nat <$> ks) l).
Proof.
  intros Hsorted. revert l.
  induction Hsorted as [|k ks _ IH Hlt]; intros l Hbounds.
  - simpl. unfold unselected. rewrite unselected_from_all; [done|].
    intros n _. apply not_elem_of_nil.
  - apply Forall_cons in Hbounds as [Hk Hbounds].
    rewrite fmap_cons. cbn [Py.for_each]. rewrite pop_nat, bind_Ok by done.
    rewrite IH.
    + by rewrite unselected_delete.
    + eapply Forall_impl; [exact Hlt|]. intros k' Hk'. unfold flip in Hk'.
      rewrite length_delete by by apply lookup_lt_is_Some_2. lia.
Qed.

Lemma unselected_sublist j rows l : unselected_from j rows l `sublist_of` l.
Proof.
  revert j. induction l as [|x l IH]; intros j; simpl; [done|].
  destruct (decide _); [by apply sublist_cons|by apply sublist_skip].
Qed.

Lemma unselected_elem j rows l (x : A) :
  x ∈ unselected_from j rows l
  ↔ ∃ n, l !! n = Some x ∧ Z.of_nat (j + n) ∉ rows.
Proof.
  revert j. induction l as [|y l IH]; intros j; simpl.
  - rewrite elem_of_nil. split; [done|]. by intros (n & ? & _).
  - assert ((∃ n, (y :: l) !! n = Some x ∧ Z.of_nat (j + n) ∉ rows)
            ↔ (y = x ∧ Z.of_nat j ∉ rows)
              ∨ ∃ n, l !! n = Some x ∧ Z.of_nat (S j + n) ∉ rows) as ->.
    { split.
      - intros ([|n] & Hn & Hrow); simpl in Hn.
        + left. rewrite Nat.add_0_r in Hrow. by simplify_eq.
        + right. exists n. by rewrite Nat.add_succ_r in Hrow.
      - intros [[-> Hrow]|(n & Hn & Hrow)].
        + exists 0%nat. by rewrite Nat.add_0_r.
        + exists (S n). by rewrite Nat.add_succ_r. }
    rewrite <- IH. destruct (decide (Z.of_nat j ∈ rows)).
    + split; [by right|]. by intros [[_ ?]|?].
    + rewrite elem_of_cons. split.
      * intros [->|?]; [by left|by right].
      * intros [[-> _]|?]; [by left|by right].
Qed.

Lemma unselected_length j rows l :
  length (unselected_from j rows l)
  = length (filter (λ n, Z.of_nat n ∉ rows) (seq j (length l))).
Proof.
  revert j. induction l as [|x l IH]; intros j; [done|]. simpl.
  destruct (decide (Z.of_nat j ∈ rows)).
  - by rewrite filter_cons_False, IH by tauto.
  - rewrite filter_cons_True by done. simpl. by rewrite IH.
Qed.

End DeleteRows.

Section SortedRows.
Implicit Types (rows s : list Z) (ks : list nat).

Lemma py_min_spec rows :
  rows ≠ [] →
  ∃ m, py_min rows = Ok m ∧ m ∈ rows ∧ Forall (λ r, m ≤ r) rows.
Proof.
  destruct rows as [|x rows]; [done|]. intros _. simpl.
  eexists. split; [done|].
  revert x. induction rows as [|y rows IH]; intros x; simpl.
  - split; [by left|]. apply Forall_singleton. lia.
  - destruct (IH (x `min` y)) as [Hin Hle]. split.
    + apply elem_of_cons in Hin as [Heq|Hin]; [|by do 2 right].
      rewrite Heq. destruct (Z.min_spec x y) as [[_ ->]|[_ ->]];
        [by left|right; by left].
    + apply Forall_cons in Hle as [Hle1 Hle2].
      repeat apply Forall_cons_2; [lia..|done].
Qed.

Lemma py_max_spec rows :
  rows ≠ [] →
  ∃ m, py_max rows = Ok m ∧ m ∈ rows ∧ Forall (λ r, r ≤ m) rows.
Proof.
  destruct rows as [|x rows]; [done|]. intros _. simpl.
  eexists. split; [done|].
  revert x. induction rows as [|y rows IH]; intros x; simpl.
  - split; [by left|]. apply Forall_singleton. lia.
  - destruct (IH (x `max` y)) as [Hin Hle]. split.
    + apply elem_of_cons in Hin as [Heq|Hin]; [|by do 2 right].
      rewrite Heq. destruct (Z.max_spec x y) as [[_ ->]|[_ ->]];
        [right; by left|by left].
    + apply Forall_cons in Hle as [Hle1 Hle2].
      repeat apply Forall_cons_2; [lia..|done].
Qed.

Lemma strictly_ascending s :
  StronglySorted Z.le s → NoDup s → Forall (λ r, 0 ≤ r) s →
  StronglySorted lt (Z.to_nat <$> s).
Proof.
  induction 1 as [|x s _ IH Hle]; intros Hnd Hpos; [constructor|].
  apply NoDup_cons in Hnd as [Hx Hnd]. apply Forall_cons in Hpos as [Hx0 Hpos].
  rewrite fmap_cons. constructor; [by apply IH|].
  apply Forall_fmap, Forall_forall. intros y Hy. simpl.
  pose proof (proj1 (Forall_forall _ _) Hle y Hy).
  pose proof (proj1 (Forall_forall _ _) Hpos y Hy).
  assert (x ≠ y) by (by intros ->). lia.
Qed.

Lemma strictly_descending s :
  StronglySorted (flip Z.le) s → NoDup s → Forall (λ r, 0 ≤ r) s →
  StronglySorted (flip lt) (Z.to_nat <$> s).
Proof.
  induction 1 as [|x s _ IH Hle]; intros Hnd Hpos; [constructor|].
  apply NoDup_cons in Hnd as [Hx Hnd]. apply Forall_cons in Hpos as [Hx0 Hpos].
  rewrite fmap_cons. constructor; [by apply IH|].
  apply Forall_fmap, Forall_forall. intros y Hy.
  pose proof (proj1 (Forall_forall _ _) Hle y Hy).
  pose proof (proj1 (Forall_forall _ _) Hpos y Hy).
  assert (x ≠ y) by (by intros ->). unfold flip in *. simpl in *. lia.
Qed.

Lemma of_nat_to_nat s :
  Forall (λ r, 0 ≤ r) s → Z.of_nat <$> (Z.to_nat <$> s) = s.
Proof.
  induction 1 as [|x s Hx _ IH]; [done|].
  rewrite !fmap_cons, IH. f_equal. lia.
Qed.

#[local] Instance flip_le_transitive : Transitive (flip Z.le).
Proof. intros x y z. unfold flip. lia. Qed.

#[local] Instance flip_le_total : Total (flip Z.le).
Proof. intros x y. unfold flip. lia. Qed.

(** Sorting distinct non-negative rows, as natural numbers. *)
Lemma sorted_rows rows :
  NoDup rows → Forall (λ r, 0 ≤ r) rows →
  ∃ up down,
    merge_sort Z.le rows = Z.of_nat <$> up
    ∧ merge_sort (flip Z.le) rows = Z.of_nat <$> down
    ∧ StronglySorted lt up ∧ StronglySorted (flip lt) down
    ∧ (∀ k, k ∈ up ↔ Z.of_nat k ∈ rows)
    ∧ (∀ k, k ∈ down ↔ Z.of_nat k ∈ rows).
Proof.
  intros Hnd Hpos.
  assert (∀ s, s ≡ₚ rows →
            Z.of_nat <$> (Z.to_nat <$> s) = s
            ∧ NoDup s ∧ Forall (λ r, 0 ≤ r) s
            ∧ ∀ k, k ∈ Z.to_nat <$> s ↔ Z.of_nat k ∈ rows) as Hperm.
  { intros s Hs.
    assert (Forall (λ r, 0 ≤ r) s) as Hpos' by by rewrite Hs.
    split; [by apply of_nat_to_nat|]. split; [by rewrite Hs|].
    split; [done|]. intros k. rewrite <- Hs, list_elem_of_fmap. split.
    - intros (r & -> & Hr).
      pose proof (proj1 (Forall_forall _ _) Hpos' r Hr).
      by rewrite Z2Nat.id by done.
    - intros Hk. exists (Z.of_nat k). split; [lia|done]. }
  destruct (Hperm (merge_sort Z.le rows)) as (Hup & Hnd1 & Hpos1 & Hel1);
    [apply merge_sort_Permutation|].
  destruct (Hperm (merge_sort (flip Z.le) rows)) as (Hdown & Hnd2 & Hpos2 & Hel2);
    [apply merge_sort_Permutation|].
  exists (Z.to_nat <$> merge_sort Z.le rows),
    (Z.to_nat <$> merge_sort (flip Z.le) rows).
  split; [done|]. split; [done|]. split.
  { apply strictly_ascending; [|done..]. apply StronglySorted_merge_sort; apply _. }
  split; [|done].
  apply strictly_descending; [|done..]. apply StronglySorted_merge_sort; apply _.
Qed.

End SortedRows.

Section CountRows.
Implicit Types (rows : list Z) (n : nat).

Lemma filter_complement_length {X} (P : X → Prop) `{∀ x, Decision (P x)}
    (l : list X) :
  (length (filter P l) + length (filter (λ x, ¬ P x) l) = length l)%nat.
Proof.
  induction l as [|x l IH]; [done|].
  destruct (decide (P x)).
  - rewrite filter_cons_True, filter_cons_False by tauto. simpl. lia.
  - rewrite filter_cons_False, filter_cons_True by tauto. simpl. lia.
Qed.

(** Distinct rows of a list of [n] entries leave [n] minus their number. *)
Lemma unselected_count rows n :
  NoDup rows → Forall (λ r, 0 ≤ r < Z.of_nat n) rows →
  (length (filter (λ k, Z.of_nat k ∉ rows) (seq 0 n)) + length rows = n)%nat.
Proof.
  intros Hnd Hbounds.
  pose proof (filter_complement_length (λ k, Z.of_nat k ∈ rows) (seq 0 n)) as Hsum.
  rewrite length_seq in Hsum.
  assert (filter (λ k, Z.of_nat k ∈ rows) (seq 0 n) ≡ₚ Z.to_nat <$> rows) as Hperm.
  { apply NoDup_Permutation.
    - apply NoDup_filter, NoDup_seq.
    - apply NoDup_fmap_2_strong; [|done]. intros x y Hx Hy Heq.
      pose proof (proj1 (Forall_forall _ _) Hbounds x Hx).
      pose proof (proj1 (Forall_forall _ _) Hbounds y Hy). simpl in *. lia.
    - intros k. rewrite list_elem_of_filter, elem_of_seq, list_elem_of_fmap. split.
      + intros [Hk _]. exists (Z.of_nat k). split; [lia|done].
      + intros (r & -> & Hr).
        pose proof (proj1 (Forall_forall _ _) Hbounds r Hr). simpl in *.
        rewrite Z2Nat.id by lia. split; [done|lia]. }
  apply Permutation_length in Hperm. rewrite length_fmap in Hperm. lia.
Qed.

End CountRows.

(** X11. [move_selected_up], for distinct selected rows of the catalogue:
    it changes nothing when nothing or row 0 is selected; otherwise the
    catalogue is rearranged so that every selected image sits one row
    higher than before. *)
Theorem move_up_moves_selected {A} (w : MainWindow A) :
  NoDup (image_list_selected w) →
  Forall (λ r, 0 ≤ r < Py.len (images w)) (image_list_selected w) →
  (image_list_selected w = [] ∨ 0 ∈ image_list_selected w →
   move_selected_up w = Ok (images w))
  ∧ (image_list_selected w ≠ [] → 0 ∉ image_list_selected w →
     ∃ images',
       move_selected_up w = Ok images'
       ∧ images' ≡ₚ images w
       ∧ ∀ r, r ∈ image_list_selected w →
           images' !! Z.to_nat (r - 1) = images w !! Z.to_nat r).
Proof.
  intros Hnd Hbounds. unfold move_selected_up, get_selected_image_indices.
  set (rows := image_list_selected w) in *.
  assert (Forall (λ r, 0 ≤ r) rows) as Hpos
    by (eapply Forall_impl; [exact Hbounds|]; simpl; lia).
  split.
  - intros [->|Hzero]; [done|].
    destruct (decide (rows = [])) as [->|Hne]; [done|].
    destruct (py_min_spec rows Hne) as (m & -> & Hm & Hle).
    assert (Py.truthy rows = true) as -> by by destruct rows.
    cbn [negb bind].
    pose proof (proj1 (Forall_forall _ _) Hle 0 Hzero) as Hm0.
    pose proof (proj1 (Forall_forall _ _) Hpos m Hm) as Hm1. simpl in *.
    by replace m with 0 by lia.
  - intros Hne Hzero.
    destruct (py_min_spec rows Hne) as (m & -> & Hm & Hle).
    assert (Py.truthy rows = true) as -> by by destruct rows.
    cbn [negb bind].
    destruct (Z.eqb_spec m 0) as [->|_]; [done|].
    destruct (sorted_rows rows Hnd Hpos)
      as (up & _ & -> & _ & Hup & _ & Hel & _).
    destruct (move_up_loop up (images w) Hup) as (images' & -> & Hperm & Hsel & _).
    { apply Forall_forall. intros k Hk%Hel.
      pose proof (proj1 (Forall_forall _ _) Hbounds _ Hk) as Hk'.
      unfold Py.len in Hk'. simpl in Hk'.
      assert (Z.of_nat k ≠ 0) by (intros Heq; rewrite Heq in Hk; done). lia. }
    exists images'. split; [done|]. split; [done|].
    intros r Hr. pose proof (proj1 (Forall_forall _ _) Hpos r Hr) as Hr0.
    simpl in Hr0. rewrite <- (Hsel (Z.to_nat r)).
    + f_equal. lia.
    + apply Hel. by rewrite Z2Nat.id.
Qed.

Lemma move_up_moves_selected_witness :
  (image_list_selected reorder_window = [] ∨ 0 ∈ image_list_selected reorder_window →
   move_selected_up reorder_window = Ok (images reorder_window))
  ∧ (image_list_selected reorder_window ≠ [] →
     0 ∉ image_list_selected reorder_window →
     ∃ images',
       move_selected_up reorder_window = Ok images'
       ∧ images' ≡ₚ images reorder_window
       ∧ ∀ r, r ∈ image_list_selected reorder_window →
           images' !! Z.to_nat (r - 1) = images reorder_window !! Z.to_nat r).
Proof.
  apply (move_up_moves_selected reorder_window).
  - simpl. repeat (apply NoDup_cons; split; [rewrite ?elem_of_cons, elem_of_nil; lia|]).
    apply NoDup_nil_2.
  - simpl. repeat (apply Forall_cons; split; [unfold Py.len; simpl; lia|]).
    apply Forall_nil_2.
Defined.

(** X12. [move_selected_down], for distinct selected rows of the catalogue:
    it changes nothing when nothing or the last row is selected; otherwise
    the catalogue is rearranged so that every selected image sits one row
    lower than before. *)
Theorem move_down_moves_selected {A} (w : MainWindow A) :
  NoDup (image_list_selected w) →
  Forall (λ r, 0 ≤ r < Py.len (images w)) (image_list_selected w) →
  (image_list_selected w = [] ∨ Py.len (images w) - 1 ∈ image_list_selected w →
   move_selected_down w = Ok (images w))
  ∧ (image_list_selected w ≠ [] →
     Py.len (images w) - 1 ∉ image_list_selected w →
     ∃ images',
       move_selected_down w = Ok images'
       ∧ images' ≡ₚ images w
       ∧ ∀ r, r ∈ image_list_selected w →
           images' !! Z.to_nat (r + 1) = images w !! Z.to_nat r).
Proof.
  intros Hnd Hbounds. unfold move_selected_down, get_selected_image_indices.
  set (rows := image_list_selected w) in *.
  assert (Forall (λ r, 0 ≤ r) rows) as Hpos
    by (eapply Forall_impl; [exact Hbounds|]; simpl; lia).
  split.
  - intros [->|Hlast]; [done|].
    destruct (decide (rows = [])) as [->|Hne]; [done|].
    destruct (py_max_spec rows Hne) as (m & -> & Hm & Hle).
    assert (Py.truthy rows = true) as -> by by destruct rows.
    cbn [negb bind].
    pose proof (proj1 (Forall_forall _ _) Hle _ Hlast) as Hm0. simpl in Hm0.
    by destruct (Z.leb_spec (Py.len (images w) - 1) m); [|lia].
  - intros Hne Hlast.
    destruct (py_max_spec rows Hne) as (m & -> & Hm & Hle).
    assert (Py.truthy rows = true) as -> by by destruct rows.
    cbn [negb bind].
    pose proof (proj1 (Forall_forall _ _) Hbounds m Hm) as Hm1. simpl in Hm1.
    assert (m ≠ Py.len (images w) - 1) by (intros Heq; by rewrite Heq in Hm).
    destruct (Z.leb_spec (Py.len (images w) - 1) m); [lia|].
    destruct (sorted_rows rows Hnd Hpos)
      as (_ & down & _ & -> & _ & Hdown & _ & Hel).
    destruct (move_down_loop down (images w) Hdown)
      as (images' & -> & Hperm & Hsel & _).
    { apply Forall_forall. intros k Hk%Hel.
      pose proof (proj1 (Forall_forall _ _) Hle _ Hk) as Hk'.
      unfold Py.len in *. simpl in Hk'. lia. }
    exists images'. split; [done|]. split; [done|].
    intros r Hr. pose proof (proj1 (Forall_forall _ _) Hpos r Hr) as Hr0.
    simpl in Hr0. rewrite <- (Hsel (Z.to_nat r)).
    + f_equal. lia.
    + apply Hel. by rewrite Z2Nat.id.
Qed.

Lemma move_down_moves_selected_witness :
  (image_list_selected reorder_window = []
   ∨ Py.len (images reorder_window) - 1 ∈ image_list_selected reorder_window →
   move_selected_down reorder_window = Ok (images reorder_window))
  ∧ (image_list_selected reorder_window ≠ [] →
     Py.len (images reorder_window) - 1 ∉ image_list_selected reorder_window →
     ∃ images',
       move_selected_down reorder_window = Ok images'
       ∧ images' ≡ₚ images reorder_window
       ∧ ∀ r, r ∈ image_list_selected reorder_window →
           images' !! Z.to_nat (r + 1) = images reorder_window !! Z.to_nat r).
Proof.
  apply (move_down_moves_selected reorder_window).
  - simpl. repeat (apply NoDup_cons; split; [rewrite ?elem_of_cons, elem_of_nil; lia|]).
    apply NoDup_nil_2.
  - simpl. repeat (apply Forall_cons; split; [unfold Py.len; simpl; lia|]).
    apply Forall_nil_2.
Defined.

(** X13. [delete_selected], once confirmed, for distinct selected rows of
    the catalogue: what is left are the images of the rows that were not
    selected, in their former order, so the catalogue shrinks by the number
    of selected rows. Without confirmation nothing changes. *)
Theorem delete_selected_keeps_unselected {A} (w : MainWindow A) :
  NoDup (image_list_selected w) →
  Forall (λ r, 0 ≤ r < Py.len (images w)) (image_list_selected w) →
  delete_selected w false = Ok (images w)
  ∧ ∃ images',
      delete_selected w true = Ok images'
      ∧ images' `sublist_of` images w
      ∧ (length images' + length (image_list_selected w)
         = length (images w))%nat
      ∧ ∀ x, x ∈ images'
             ↔ ∃ n, images w !! n = Some x
                    ∧ Z.of_nat n ∉ image_list_selected w.
Proof.
  intros Hnd Hbounds. unfold delete_selected, get_selected_image_indices.
  set (rows := image_list_selected w) in *.
  assert (Forall (λ r, 0 ≤ r) rows) as Hpos
    by (eapply Forall_impl; [exact Hbounds|]; simpl; lia).
  split; [by destruct rows|].
  assert (unselected rows (images w) `sublist_of` images w
          ∧ (length (unselected rows (images w)) + length rows
             = length (images w))%nat
          ∧ ∀ x, x ∈ unselected rows (images w)
                 ↔ ∃ n, images w !! n = Some x ∧ Z.of_nat n ∉ rows) as Hspec.
  { unfold unselected. split; [apply unselected_sublist|]. split.
    - rewrite unselected_length. by apply unselected_count.
    - intros x. apply unselected_elem. }
  destruct (decide (rows = [])) as [Hnil|Hne].
  - rewrite Hnil in *. cbn [Py.truthy negb]. exists (images w). split; [done|].
    unfold unselected in Hspec. rewrite unselected_from_all in Hspec; [done|].
    intros n _. apply not_elem_of_nil.
  - assert (Py.truthy rows = true) as -> by by destruct rows.
    cbn [negb].
    destruct (sorted_rows rows Hnd Hpos)
      as (_ & down & _ & Hsort & _ & Hdown & _ & Hel).
    rewrite Hsort, delete_loop; [|done|].
    + exists (unselected (Z.of_nat <$> down) (images w)). split; [done|].
      assert (unselected (Z.of_nat <$> down) (images w)
              = unselected rows (images w)) as ->; [|done].
      apply unselected_from_ext. intros n _. rewrite <- Hsort.
      by rewrite merge_sort_Permutation.
    + apply Forall_forall. intros k Hk%Hel.
      pose proof (proj1 (Forall_forall _ _) Hbounds _ Hk) as Hk'.
      unfold Py.len in Hk'. simpl in Hk'. lia.
Qed.

Lemma delete_selected_keeps_unselected_witness :
  delete_selected reorder_window false = Ok (images reorder_window)
  ∧ ∃ images',
      delete_selected reorder_window true = Ok images'
      ∧ images' `sublist_of` images reorder_window
      ∧ (length images' + length (image_list_selected reorder_window)
         = length (images reorder_window))%nat
      ∧ ∀ x, x ∈ images'
             ↔ ∃ n, images reorder_window !! n = Some x
                    ∧ Z.of_nat n ∉ image_list_selected reorder_window.
Proof.
  apply (delete_selected_keeps_unselected reorder_window).
  - simpl. repeat (apply NoDup_cons; split; [rewrite ?elem_of_cons, elem_of_nil; lia|]).
    apply NoDup_nil_2.
  - simpl. repeat (apply Forall_cons; split; [unfold Py.len; simpl; lia|]).
    apply Forall_nil_2.
Defined.

(** ** Properties of adding images *)

Section LoadingFacts.
Variable basename : string → string.
Variable image_dimensions : string → option (Z * Z).
Variable size_text : Z * Z → Z → string.
Implicit Types (library : Library) (added : nat) (path : string).

Lemma new_image_item_path path :
  file_path (new_image_item basename image_dimensions size_text path) = path.
Proof. unfold new_image_item. by destruct (image_dimensions path). Qed.

Lemma known_path library path :
  existsb (λ img, String.eqb (file_path (objects_of library img)) path)
    (images_of library) = true
  ↔ path ∈ paths_of library.
Proof.
  unfold paths_of. rewrite existsb_exists, list_elem_of_fmap. split.
  - intros (img & Himg & Heq%String.eqb_eq). exists img.
    split; [done|by apply list_elem_of_In].
  - intros (img & -> & Himg). exists img.
    split; [by apply list_elem_of_In|apply String.eqb_refl].
Qed.

Lemma add_image_spec library added path :
  well_formed library →
  ∃ library' added',
    add_image basename image_dimensions size_text (library, added) path
    = (library', added')
    ∧ well_formed library'
    ∧ images_of library `prefix_of` images_of library'
    ∧ (created library ≤ created library')%nat
    ∧ (∀ r, (r < created library)%nat →
            objects_of library' r = objects_of library r)
    ∧ (∀ q, q ∈ paths_of library' ↔ q ∈ paths_of library ∨ q = path)
    ∧ (added' + length (images_of library)
       = added + length (images_of library'))%nat.
Proof.
  intros [Hrefs Hnd]. unfold add_image.
  destruct (existsb _ _) eqn:Hknown.
  - apply known_path in Hknown. exists library, added.
    split; [done|]. split; [done|]. split; [done|]. split; [done|].
    split; [done|]. split; [|done]. intros q. split; [by left|].
    by intros [?| ->].
  - assert (path ∉ paths_of library) as Hnew.
    { intros Hin%known_path. congruence. }
    eexists _, _. split; [done|].
    assert (paths_of
              {| objects_of := update (objects_of library) (created library)
                                 (new_image_item basename image_dimensions
                                    size_text path);
                 created := S (created library);
                 images_of := images_of library ++ [created library] |}
            = paths_of library ++ [path]) as Hpaths.
    { unfold paths_of. cbn [objects_of images_of]. rewrite fmap_app. f_equal.
      - apply Forall_fmap_ext_1. eapply Forall_impl; [exact Hrefs|].
        intros r Hr. simpl in *. unfold update.
        destruct (Nat.eqb_spec r (created library)); [lia|done].
      - simpl. by rewrite update_eq, new_image_item_path. }
    split; [|split; [|split; [|split; [|split]]]].
    + split.
      * cbn [created images_of]. apply Forall_app. split.
        -- eapply Forall_impl; [exact Hrefs|]. intros r Hr. simpl in *. lia.
        -- apply Forall_singleton. lia.
      * rewrite Hpaths. apply NoDup_app. split; [done|].
        split; [|apply NoDup_singleton].
        intros q Hq ->%list_elem_of_singleton. done.
    + cbn [images_of]. by apply prefix_app_r.
    + cbn [created]. lia.
    + intros r Hr. cbn [objects_of]. unfold update.
      destruct (Nat.eqb_spec r (created library)); [lia|done].
    + intros q. rewrite Hpaths, elem_of_app, list_elem_of_singleton. done.
    + cbn [images_of]. rewrite length_app. simpl. lia.
Qed.

Lemma add_images_spec library added file_paths :
  well_formed library →
  ∃ library' added',
    foldl (add_image basename image_dimensions size_text) (library, added)
      file_paths = (library', added')
    ∧ well_formed library'
    ∧ images_of library `prefix_of` images_of library'
    ∧ (created library ≤ created library')%nat
    ∧ (∀ r, (r < created library)%nat →
            objects_of library' r = objects_of library r)
    ∧ (∀ q, q ∈ paths_of library'
            ↔ q ∈ paths_of library ∨ q ∈ file_paths)
    ∧ (added' + length (images_of library)
       = added + length (images_of library'))%nat.
Proof.
  revert library added.
  induction file_paths as [|path file_paths IH]; intros library added Hwf.
  - exists library, added. split; [done|]. split; [done|]. split; [done|].
    split; [done|]. split; [done|]. split; [|done].
    intros q. rewrite elem_of_nil. tauto.
  - destruct (add_image_spec library added path Hwf)
      as (library1 & added1 & Hstep & Hwf1 & Hpre1 & Hcr1 & Hobj1 & Hpaths1 & Hadd1).
    destruct (IH library1 added1 Hwf1)
      as (library' & added' & Hrun & Hwf' & Hpre & Hcr & Hobj & Hpaths & Hadd).
    exists library', added'. cbn [foldl]. rewrite Hstep.
    split; [done|]. split; [done|]. split; [by etrans|].
    split; [lia|]. split; [|split].
    + intros r Hr. rewrite Hobj by lia. by apply Hobj1.
    + intros q. rewrite Hpaths, Hpaths1, elem_of_cons. tauto.
    + lia.
Qed.

End LoadingFacts.

(** X14. [add_images] keeps the catalogue free of duplicate file paths: on
    a well-formed catalogue it leaves a well-formed one whose images are
    the former ones, in place and with their attributes untouched, followed
    by one new image for each requested path that was not there yet (a path
    requested twice is added once). The count it reports is the number of
    images added. *)
Theorem add_images_no_duplicate_paths (basename : string → string)
    (image_dimensions : string → option (Z * Z))
    (size_text : Z * Z → Z → string)
    (library : Library) (file_paths : list string) :
  well_formed library →
  ∃ library' added,
    add_images basename image_dimensions size_text library file_paths
    = (library', added)
    ∧ well_formed library'
    ∧ images_of library `prefix_of` images_of library'
    ∧ (∀ r, r ∈ images_of library →
            objects_of library' r = objects_of library r)
    ∧ (∀ q, q ∈ paths_of library'
            ↔ q ∈ paths_of library ∨ q ∈ file_paths)
    ∧ length (images_of library')
      = (length (images_of library) + added)%nat.
Proof.
  intros Hwf. unfold add_images.
  destruct (add_images_spec basename image_dimensions size_text
              library 0%nat file_paths Hwf)
    as (library' & added & Hrun & Hwf' & Hpre & _ & Hobj & Hpaths & Hadd).
  exists library', added. split; [done|]. split; [done|]. split; [done|].
  split; [|split; [done|lia]].
  intros r Hr. apply Hobj.
  destruct Hwf as [Hrefs _]. by apply (proj1 (Forall_forall _ _) Hrefs).
Qed.

Lemma add_images_no_duplicate_paths_witness :
  ∃ library' added,
    add_images (λ path, path) (λ _, Some (1181, 1772)) (λ _ _, ""%string)
      empty_library ["/a.png"; "/b.png"; "/a.png"]%string
    = (library', added)
    ∧ well_formed library'
    ∧ images_of empty_library `prefix_of` images_of library'
    ∧ (∀ r, r ∈ images_of empty_library →
            objects_of library' r = objects_of empty_library r)
    ∧ (∀ q, q ∈ paths_of library'
            ↔ q ∈ paths_of empty_library
              ∨ q ∈ ["/a.png"; "/b.png"; "/a.png"]%string)
    ∧ length (images_of library')
      = (length (images_of empty_library) + added)%nat.
Proof.
  apply (add_images_no_duplicate_paths (λ path, path)
           (λ _, Some (1181, 1772)) (λ _ _, ""%string) empty_library
           ["/a.png"; "/b.png"; "/a.png"]%string).
  split.
  - apply Forall_nil_2.
  - apply NoDup_nil_2.
Defined.

(** ** The preview dialog *)

Section DialogFacts.

Lemma update_preview_valid (self : PreviewDialog) :
  0 ≤ current_index self < Py.len (preview_images self) →
  ∃ image,
    update_preview self = Ok (Some image)
    ∧ preview_images self !! Z.to_nat (current_index self) = Some image.
Proof.
  destruct self as [images idx rot]. simpl. intros Hidx.
  unfold update_preview. cbn [current_index preview_images].
  destruct images as [|r images].
  { unfold Py.len in Hidx. simpl in Hidx. lia. }
  cbn [Py.truthy negb].
  set (k := Z.to_nat idx). replace idx with (Z.of_nat k) by lia.
  rewrite getitem_nat.
  destruct ((r :: images) !! k) as [image|] eqn:Hl.
  - exists image. by rewrite bind_Ok.
  - apply lookup_ge_None_1 in Hl. unfold Py.len in Hidx. lia.
Qed.

Lemma update_preview_empty (self : PreviewDialog) :
  preview_images self = [] → update_preview self = Ok None.
Proof. intros Himages. unfold update_preview. by rewrite Himages. Qed.

Lemma rotation_quarter (r : Z) :
  r ∈ [0; 90; 180; 270] →
  (r - 90) `mod` 360 ∈ [0; 90; 180; 270]
  ∧ (r + 90) `mod` 360 ∈ [0; 90; 180; 270].
Proof.
  rewrite !elem_of_cons, elem_of_nil.
  intros [->|[->|[->|[->|[]]]]]; split; vm_compute;
    rewrite ?elem_of_cons; tauto.
Qed.

Lemma press_keeps_valid (self : PreviewDialog) (b : Button) :
  0 ≤ current_index self < Py.len (preview_images self) →
  rotation self ∈ [0; 90; 180; 270] →
  ∃ self',
    press self b = Ok self'
    ∧ preview_images self' = preview_images self
    ∧ 0 ≤ current_index self' < Py.len (preview_images self')
    ∧ rotation self' ∈ [0; 90; 180; 270].
Proof.
  intros Hidx Hrot. destruct self as [images idx rot]. simpl in *.
  destruct (rotation_quarter rot Hrot) as [Hleft Hright].
  destruct b; cbn [press].
  - unfold show_next. cbn [current_index preview_images rotation].
    destruct (Z.ltb_spec idx (Py.len images - 1)).
    + destruct (update_preview_valid
                  {| preview_images := images; current_index := idx + 1;
                     rotation := rot |}) as (image & -> & _);
        [simpl; lia|].
      rewrite bind_Ok. eexists. split; [done|]. simpl.
      split; [done|]. split; [lia|done].
    + eexists. split; [done|]. simpl. by split.
  - unfold show_previous. cbn [current_index preview_images rotation].
    destruct (Z.ltb_spec 0 idx).
    + destruct (update_preview_valid
                  {| preview_images := images; current_index := idx - 1;
                     rotation := rot |}) as (image & -> & _);
        [simpl; lia|].
      rewrite bind_Ok. eexists. split; [done|]. simpl.
      split; [done|]. split; [lia|done].
    + eexists. split; [done|]. simpl. by split.
  - unfold rotate_left. cbn [current_index preview_images rotation].
    destruct (update_preview_valid
                {| preview_images := images; current_index := idx;
                   rotation := (rot - 90) `mod` 360 |}) as (image & -> & _);
      [simpl; lia|].
    rewrite bind_Ok. eexists. split; [done|]. simpl. by split.
  - unfold rotate_right. cbn [current_index preview_images rotation].
    destruct (update_preview_valid
                {| preview_images := images; current_index := idx;
                   rotation := (rot + 90) `mod` 360 |}) as (image & -> & _);
      [simpl; lia|].
    rewrite bind_Ok. eexists. split; [done|]. simpl. by split.
  - destruct (update_preview_valid
                {| preview_images := images; current_index := idx;
                   rotation := rot |}) as (image & -> & _);
      [simpl; lia|].
    rewrite bind_Ok. eexists. split; [done|]. simpl. by split.
Qed.

Lemma presses_keep_valid (bs : list Button) (self : PreviewDialog) :
  0 ≤ current_index self < Py.len (preview_images self) →
  rotation self ∈ [0; 90; 180; 270] →
  ∃ self',
    Py.for_each press self bs = Ok self'
    ∧ preview_images self' = preview_images self
    ∧ 0 ≤ current_index self' < Py.len (preview_images self')
    ∧ rotation self' ∈ [0; 90; 180; 270].
Proof.
  revert self. induction bs as [|b bs IH]; intros self Hidx Hrot.
  - exists self. split; [done|]. split; [done|]. by split.
  - destruct (press_keeps_valid self b Hidx Hrot)
      as (self1 & Hpress & Himages & Hidx1 & Hrot1).
    destruct (IH self1 Hidx1 Hrot1) as (self' & Hrun & Himages' & Hidx' & Hrot').
    exists self'. cbn [Py.for_each]. rewrite Hpress, bind_Ok.
    split; [done|]. split; [congruence|]. by split.
Qed.

End DialogFacts.

(** X15. However the buttons of the preview dialog are pressed, on a dialog
    opened with at least one image no press raises, the index stays inside
    the image list, the rotation is one of 0, 90, 180 and 270, and the image
    shown is the one at the index. *)
Theorem preview_buttons_keep_index_valid
    (images : list Ref) (bs : list Button) :
  images ≠ [] →
  ∃ self image,
    Py.for_each press (open_preview images) bs = Ok self
    ∧ preview_images self = images
    ∧ 0 ≤ current_index self < Py.len images
    ∧ rotation self ∈ [0; 90; 180; 270]
    ∧ update_preview self = Ok (Some image)
    ∧ images !! Z.to_nat (current_index self) = Some image.
Proof.
  intros Himages.
  destruct (presses_keep_valid bs (open_preview images))
    as (self & Hrun & Hsame & Hidx & Hrot).
  - simpl. unfold Py.len. destruct images; [done|]. simpl. lia.
  - simpl. apply elem_of_cons. by left.
  - destruct (update_preview_valid self Hidx) as (image & Hshow & Hlookup).
    simpl in Hsame. rewrite Hsame in *.
    exists self, image. split; [done|]. split; [done|]. split; [done|].
    split; [done|]. by split.
Qed.

Lemma preview_buttons_keep_index_valid_witness :
  ∃ self image,
    Py.for_each press (open_preview [4; 7]%nat)
      [Previous; Next; Next; RotateLeft; Zoom; Next; RotateLeft]
    = Ok self
    ∧ preview_images self = [4; 7]%nat
    ∧ 0 ≤ current_index self < Py.len [4; 7]%nat
    ∧ rotation self ∈ [0; 90; 180; 270]
    ∧ update_preview self = Ok (Some image)
    ∧ [4; 7]%nat !! Z.to_nat (current_index self) = Some image.
Proof.
  apply (preview_buttons_keep_index_valid [4; 7]%nat
           [Previous; Next; Next; RotateLeft; Zoom; Next; RotateLeft]).
  done.
Defined.

(** X16. In the preview dialog, on an index inside the image list:
    before the last image [show_next] moves one image on and
    [show_previous] then restores the dialog; on the last image [show_next]
    changes nothing, and on the first [show_previous] changes nothing. *)
Theorem preview_next_previous (self : PreviewDialog) :
  0 ≤ current_index self < Py.len (preview_images self) →
  (current_index self < Py.len (preview_images self) - 1 →
     ∃ self',
       show_next self = Ok self'
       ∧ current_index self' = current_index self + 1
       ∧ show_previous self' = Ok self)
  ∧ (current_index self = Py.len (preview_images self) - 1 →
     show_next self = Ok self)
  ∧ (current_index self = 0 → show_previous self = Ok self).
Proof.
  intros Hidx. destruct self as [images idx rot]. simpl in *.
  split; [|split].
  - intros Hlt. unfold show_next. cbn [current_index preview_images rotation].
    destruct (Z.ltb_spec idx (Py.len images - 1)); [|lia].
    destruct (update_preview_valid
                {| preview_images := images; current_index := idx + 1;
                   rotation := rot |}) as (image & -> & _);
      [simpl; lia|].
    rewrite bind_Ok. eexists. split; [done|]. split; [done|].
    unfold show_previous. cbn [current_index preview_images rotation].
    destruct (Z.ltb_spec 0 (idx + 1)); [|lia].
    replace (idx + 1 - 1) with idx by lia.
    destruct (update_preview_valid
                {| preview_images := images; current_index := idx;
                   rotation := rot |}) as (image' & -> & _);
      [simpl; lia|].
    by rewrite bind_Ok.
  - intros Hlast. unfold show_next.
    cbn [current_index preview_images rotation].
    destruct (Z.ltb_spec idx (Py.len images - 1)); [lia|done].
  - intros Hfirst. unfold show_previous.
    cbn [current_index preview_images rotation].
    destruct (Z.ltb_spec 0 idx); [lia|done].
Qed.

Lemma preview_next_previous_witness :
  let self := {| preview_images := [4; 7; 9]%nat; current_index := 1;
                 rotation := 90 |} in
  (current_index self < Py.len (preview_images self) - 1 →
     ∃ self',
       show_next self = Ok self'
       ∧ current_index self' = current_index self + 1
       ∧ show_previous self' = Ok self)
  ∧ (current_index self = Py.len (preview_images self) - 1 →
     show_next self = Ok self)
  ∧ (current_index self = 0 → show_previous self = Ok self).
Proof.
  intros self. apply (preview_next_previous self). vm_compute.
  split; [discriminate|done].
Defined.

(** X17. In the preview dialog, on an index inside the image list and a
    rotation from 0 to 359: rotating left and then right, or right and then
    left, restores the dialog, and so do four rotations to the right. *)
Theorem preview_rotation_cycle (self : PreviewDialog) :
  0 ≤ current_index self < Py.len (preview_images self) →
  0 ≤ rotation self < 360 →
  (do self1 <- rotate_left self; rotate_right self1) = Ok self
  ∧ (do self1 <- rotate_right self; rotate_left self1) = Ok self
  ∧ (do self1 <- rotate_right self;
     do self2 <- rotate_right self1;
     do self3 <- rotate_right self2;
     rotate_right self3) = Ok self.
Proof.
  intros Hidx Hrot. destruct self as [images idx rot]. simpl in *.
  assert (∀ r, update_preview
                 {| preview_images := images; current_index := idx;
                    rotation := r |}
               = update_preview
                   {| preview_images := images; current_index := idx;
                      rotation := rot |}) as Hshow by done.
  destruct (update_preview_valid
              {| preview_images := images; current_index := idx;
                 rotation := rot |}) as (image & Himage & _);
    [simpl; lia|].
  unfold rotate_left, rotate_right.
  cbn [current_index preview_images rotation].
  repeat (rewrite ?Hshow, ?Himage, ?bind_Ok;
          cbn [current_index preview_images rotation]).
  assert (((rot - 90) `mod` 360 + 90) `mod` 360 = rot) as ->.
  { Z.to_euclidean_division_equations; lia. }
  assert (((rot + 90) `mod` 360 - 90) `mod` 360 = rot) as ->.
  { Z.to_euclidean_division_equations; lia. }
  assert (((((rot + 90) `mod` 360 + 90) `mod` 360 + 90) `mod` 360 + 90)
            `mod` 360 = rot) as ->.
  { Z.to_euclidean_division_equations; lia. }
  done.
Qed.

Lemma preview_rotation_cycle_witness :
  let self := {| preview_images := [4; 7; 9]%nat; current_index := 2;
                 rotation := 270 |} in
  (do self1 <- rotate_left self; rotate_right self1) = Ok self
  ∧ (do self1 <- rotate_right self; rotate_left self1) = Ok self
  ∧ (do self1 <- rotate_right self;
     do self2 <- rotate_right self1;
     do self3 <- rotate_right self2;
     rotate_right self3) = Ok self.
Proof.
  intros self. apply (preview_rotation_cycle self).
  - vm_compute. split; [discriminate|done].
  - vm_compute. split; [discriminate|done].
Defined.

(** ** The flow layout *)

Section LayoutItems.
Context {Item : Type}.
Implicit Types items : list Item.

Lemma take_first_empty : takeAt (@nil Item) 0 = Ok (None, []).
Proof. done. Qed.

Lemma take_first item items :
  takeAt (item :: items) 0 = Ok (Some item, items).
Proof. done. Qed.

Lemma del_items_spec (item_truthy : Item → bool) fuel items :
  (length items < fuel)%nat →
  ∃ rest,
    del_items item_truthy fuel items = Ok (Some rest)
    ∧ rest `suffix_of` items
    ∧ (Forall (λ item, item_truthy item = true) items → rest = []).
Proof.
  revert items. induction fuel as [|fuel IH]; intros items Hfuel; [lia|].
  destruct items as [|item items]; cbn [del_items].
  - rewrite take_first_empty, bind_Ok. simpl. by exists [].
  - rewrite take_first, bind_Ok. cbn [fst snd].
    destruct (item_truthy item) eqn:Htruthy.
    + destruct (IH items) as (rest & Hrun & Hsuffix & Hall);
        [simpl in Hfuel; lia|].
      exists rest. split; [done|]. split.
      * by apply suffix_cons_r.
      * intros Hitems. apply Hall. by apply Forall_cons in Hitems as [_ ?].
    + exists items. split; [done|]. split.
      * apply suffix_cons_r. done.
      * intros Hitems. apply Forall_cons in Hitems as [Hitem _]. congruence.
Qed.

End LayoutItems.

Section LayoutFacts.
Variable spacing : Z.
Variable rect : Rect.

Let start : LayoutState :=
  {| layout_x := rect_x rect; layout_y := rect_y rect;
     line_height := 0; geometries := [] |}.

Lemma is_int_true (z : Z) : int_min ≤ z ≤ int_max → is_int z = true.
Proof.
  intros Hz. unfold is_int.
  destruct (Z.leb_spec int_min z); [|lia].
  by destruct (Z.leb_spec z int_max); [|lia].
Qed.

Lemma for_all_snoc {S X} (body : S → X → outcome S) (s : S) (xs : list X)
    (x : X) :
  for_all body s (xs ++ [x]) = run s' <- for_all body s xs; body s' x.
Proof.
  revert s. induction xs as [|y xs IH]; intros s; simpl.
  - by destruct (body s x).
  - destruct (body s y); simpl; [apply IH|done].
Qed.

Lemma sum_snoc (l : list Z) (z : Z) :
  foldr Z.add 0 (l ++ [z]) = foldr Z.add 0 l + z.
Proof. induction l as [|y l IH]; simpl; lia. Qed.

Lemma total_width_snoc (items : list LayoutItem) (item : LayoutItem) :
  total_width spacing (items ++ [item])
  = total_width spacing items
    + (hint_width item + (spacing + style_spacing_x item)).
Proof. unfold total_width. rewrite fmap_app. apply sum_snoc. Qed.

Lemma total_height_snoc (items : list LayoutItem) (item : LayoutItem) :
  total_height spacing (items ++ [item])
  = total_height spacing items
    + (hint_height item + (spacing + style_spacing_y item)).
Proof. unfold total_height. rewrite fmap_app. apply sum_snoc. Qed.

Lemma total_width_nonneg (items : list LayoutItem) :
  Forall (regular spacing) items → 0 ≤ total_width spacing items.
Proof.
  unfold total_width.
  induction 1 as [|item items (? & ? & ? & ?) _ IH]; [simpl; lia|].
  rewrite fmap_cons. cbn [foldr]. lia.
Qed.

Lemma total_height_nonneg (items : list LayoutItem) :
  Forall (regular spacing) items → 0 ≤ total_height spacing items.
Proof.
  unfold total_height.
  induction 1 as [|item items (? & ? & ? & ?) _ IH]; [simpl; lia|].
  rewrite fmap_cons. cbn [foldr]. lia.
Qed.

(** The test run goes through the states of the real run and never
    fails. *)
Lemma layout_test_only (items : list LayoutItem) (st : LayoutState) :
  for_all (layout_item spacing rect false) start items = Done st →
  for_all (layout_item spacing rect true) start items
  = Done {| layout_x := layout_x st; layout_y := layout_y st;
            line_height := line_height st; geometries := [] |}.
Proof.
  revert st. induction items as [|item items IH] using rev_ind; intros st.
  - by intros [= <-].
  - rewrite !for_all_snoc.
    destruct (for_all (layout_item spacing rect false) start items)
      as [st0|e]; [|done].
    rewrite (IH st0) by done. cbn [and_then].
    unfold layout_item.
    cbn [layout_x layout_y line_height geometries negb and_then].
    destruct (item_geometry _ _ item) as [geometry|e]; [|done].
    cbn [and_then]. by intros [= <-].
Qed.

(** The loop of the real run under the bounds that keep every coordinate
    an [int]. *)
Lemma layout_run (items : list LayoutItem) :
  Forall (regular spacing) items →
  int_min ≤ rect_x rect → int_min ≤ rect_y rect →
  rect_x rect + total_width spacing items ≤ int_max →
  rect_y rect + total_height spacing items ≤ int_max →
  ∃ st,
    for_all (layout_item spacing rect false) start items = Done st
    ∧ rect_x rect ≤ layout_x st ≤ rect_x rect + total_width spacing items
    ∧ rect_y rect ≤ layout_y st
    ∧ 0 ≤ line_height st
    ∧ layout_y st + line_height st
      ≤ rect_y rect + total_height spacing items
    ∧ Forall2 (λ g item, rect_width g = hint_width item
                         ∧ rect_height g = hint_height item)
        (geometries st) items
    ∧ Forall (λ g, rect_x rect ≤ rect_x g
                   ∧ rect_y rect ≤ rect_y g
                   ∧ rect_y g + rect_height g
                     ≤ layout_y st + line_height st)
        (geometries st)
    ∧ (Forall (λ item, 0 < hint_height item) items →
       (line_height st ≤ 0 → layout_x st = rect_x rect)
       ∧ Forall (λ g, rect_x g = rect_x rect
                      ∨ rect_x g + rect_width g ≤ rect_right rect)
           (geometries st)).
Proof.
  induction items as [|item items IH] using rev_ind;
    intros Hitems Hx Hy Hwidth Hheight.
  - exists start. simpl. unfold total_width, total_height. simpl.
    split; [done|]. split; [lia|]. split; [lia|]. split; [lia|].
    split; [lia|]. split; [apply Forall2_nil_2|].
    split; [apply Forall_nil_2|]. intros _. split; [done|apply Forall_nil_2].
  - apply Forall_app in Hitems as [Hitems Hitem].
    apply Forall_singleton in Hitem as (Hw & Hh & Hsx & Hsy).
    rewrite total_width_snoc in Hwidth. rewrite total_height_snoc in Hheight.
    pose proof (total_width_nonneg items Hitems) as Hwidth0.
    pose proof (total_height_nonneg items Hitems) as Hheight0.
    destruct IH as (st & Hrun & Hxs & Hys & Hline & Hbottom & Hsizes
                    & Hplaced & Hrows); [done|done|done|lia|lia|].
    rewrite for_all_snoc, Hrun, total_width_snoc, total_height_snoc.
    cbn [and_then]. unfold layout_item, item_geometry.
    cbn [negb].
    replace (layout_x st + hint_width item
               + (spacing + style_spacing_x item)
               - (spacing + style_spacing_x item))
      with (layout_x st + hint_width item) by lia.
    destruct (Z.ltb_spec (rect_right rect) (layout_x st + hint_width item))
      as [Hover|Hfits];
      destruct (Z.ltb_spec 0 (line_height st)) as [Hrow|Hfirst];
      cbn [andb]; rewrite !is_int_true by lia; cbn [andb and_then];
      eexists; (split; [reflexivity|]);
      cbn [layout_x layout_y line_height geometries];
      (split; [lia|]); (split; [lia|]); (split; [lia|]); (split; [lia|]);
      (split; [apply Forall2_app; [done|by apply Forall2_cons]|]);
      (split;
       [apply Forall_app; split;
        [eapply Forall_impl; [exact Hplaced|]; simpl; intros g (? & ? & ?); lia
        |apply Forall_singleton; simpl; lia]|]);
      intros Hpos; apply Forall_app in Hpos as [Hpos Hpos1];
      apply (proj1 (Forall_singleton _ _)) in Hpos1; cbv beta in Hpos1;
      destruct (Hrows Hpos) as [Hleft Hfit];
      (split; [intros ?; lia|]);
      (apply Forall_app; split; [done|]); apply Forall_singleton; simpl.
    + by left.
    + left. apply Hleft. lia.
    + by right.
    + left. apply Hleft. lia.
Qed.

End LayoutFacts.

(** X18. [itemAt] and [takeAt] of the flow layout never raise. On an index
    from 0 to the number of items minus one, both return the item at the
    index and [takeAt] removes it; on any other index, a negative one
    included, both return [None] and the items are unchanged. *)
Theorem flow_layout_take_at {Item} (items : list Item) (index : Z) :
  (0 ≤ index < Py.len items
   ∧ ∃ item,
       items !! Z.to_nat index = Some item
       ∧ itemAt items index = Ok (Some item)
       ∧ takeAt items index = Ok (Some item, delete (Z.to_nat index) items))
  ∨ (¬ (0 ≤ index < Py.len items)
     ∧ itemAt items index = Ok None
     ∧ takeAt items index = Ok (None, items)).
Proof.
  unfold itemAt, takeAt.
  destruct (Z.leb_spec 0 index) as [Hlow|Hlow];
    [destruct (Z.ltb_spec index (Py.len items)) as [Hhigh|Hhigh]|];
    cbn [andb].
  - left. split; [lia|].
    set (k := Z.to_nat index). replace index with (Z.of_nat k) by lia.
    rewrite getitem_nat.
    destruct (items !! k) as [item|] eqn:Hitem.
    + exists item. rewrite !bind_Ok.
      rewrite pop_nat, bind_Ok by by eapply lookup_lt_Some.
      done.
    + apply lookup_ge_None_1 in Hitem. unfold Py.len in Hhigh. lia.
  - right. split; [lia|done].
  - right. split; [lia|done].
Qed.

(** X19. Deleting a flow layout ends after at most one more call of
    [takeAt(0)] than there are items, without raising; what is left is a
    suffix of the items, and nothing is left when every item is truthy. *)
Theorem flow_layout_del_takes_all {Item} (item_truthy : Item → bool)
    (items : list Item) (fuel : nat) :
  (length items < fuel)%nat →
  ∃ rest,
    del_items item_truthy fuel items = Ok (Some rest)
    ∧ rest `suffix_of` items
    ∧ (Forall (λ item, item_truthy item = true) items → rest = []).
Proof. apply del_items_spec. Qed.

Lemma flow_layout_del_takes_all_witness :
  ∃ rest,
    del_items (λ _ : string, true) 3 ["a"; "b"]%string = Ok (Some rest)
    ∧ rest `suffix_of` ["a"; "b"]%string
    ∧ (Forall (λ item, (λ _ : string, true) item = true) ["a"; "b"]%string →
       rest = []).
Proof.
  apply (flow_layout_del_takes_all (λ _ : string, true) ["a"; "b"]%string 3).
  simpl. lia.
Defined.

(** X20. [doLayout] on items of non-negative size and spacing, in a
    rectangle from whose corner the items laid end to end stay inside the
    range of a C [int]: the real run raises nothing and sets one geometry
    per item, of the item's size hint; the test run sets no geometry and
    returns the height of the real run; that height is not negative, and
    every geometry lies between the top of the rectangle and that height
    below it. *)
Theorem flow_layout_height_covers_items
    (spacing : Z) (items : list LayoutItem) (rect : Rect) :
  Forall (regular spacing) items →
  int_min ≤ rect_x rect → int_min ≤ rect_y rect →
  rect_x rect + total_width spacing items ≤ int_max →
  rect_y rect + total_height spacing items ≤ int_max →
  ∃ placed height,
    doLayout spacing items rect false = Done (placed, height)
    ∧ doLayout spacing items rect true = Done ([], height)
    ∧ Forall2 (λ g item, rect_width g = hint_width item
                         ∧ rect_height g = hint_height item) placed items
    ∧ 0 ≤ height
    ∧ Forall (λ g, rect_y rect ≤ rect_y g
                   ∧ rect_y g + rect_height g ≤ rect_y rect + height)
        placed.
Proof.
  intros Hitems Hx Hy Hwidth Hheight.
  destruct (layout_run spacing rect items Hitems Hx Hy Hwidth Hheight)
    as (st & Hrun & _ & Htop & Hline & _ & Hsizes & Hplaced & _).
  pose proof (layout_test_only spacing rect items st Hrun) as Htest.
  unfold doLayout. rewrite Hrun, Htest. cbn [and_then].
  eexists _, _. split; [done|].
  cbn [layout_y line_height geometries].
  split; [done|]. split; [done|]. split; [lia|].
  eapply Forall_impl; [exact Hplaced|]. simpl. intros g (? & ? & ?). lia.
Qed.

Lemma flow_layout_height_covers_items_witness :
  ∃ placed height,
    doLayout 4 thumbnails
      {| rect_x := 10; rect_y := 20; rect_width := 300; rect_height := 0 |}
      false
    = Done (placed, height)
    ∧ doLayout 4 thumbnails
        {| rect_x := 10; rect_y := 20; rect_width := 300; rect_height := 0 |}
        true
      = Done ([], height)
    ∧ Forall2 (λ g item, rect_width g = hint_width item
                         ∧ rect_height g = hint_height item)
        placed thumbnails
    ∧ 0 ≤ height
    ∧ Forall (λ g, rect_y {| rect_x := 10; rect_y := 20; rect_width := 300;
                             rect_height := 0 |} ≤ rect_y g
                   ∧ rect_y g + rect_height g
                     ≤ rect_y {| rect_x := 10; rect_y := 20;
                                 rect_width := 300; rect_height := 0 |}
                       + height)
        placed.
Proof.
  apply (flow_layout_height_covers_items 4 thumbnails
           {| rect_x := 10; rect_y := 20; rect_width := 300;
              rect_height := 0 |}).
  - repeat (apply Forall_cons; split; [unfold regular; simpl; lia|]).
    apply Forall_nil_2.
  - vm_compute. discriminate.
  - vm_compute. discriminate.
  - vm_compute. discriminate.
  - vm_compute. discriminate.
Defined.

(** X21. [doLayout] on items of positive height and non-negative width and
    spacing, under the same bounds: the real run raises nothing, no item is
    placed left of the rectangle, and for an item that is not placed at the
    rectangle's left edge the left coordinate plus the width does not
    exceed [rect.right()]. *)
Theorem flow_layout_rows_fit
    (spacing : Z) (items : list LayoutItem) (rect : Rect) :
  Forall (regular spacing) items →
  Forall (λ item, 0 < hint_height item) items →
  int_min ≤ rect_x rect → int_min ≤ rect_y rect →
  rect_x rect + total_width spacing items ≤ int_max →
  rect_y rect + total_height spacing items ≤ int_max →
  ∃ placed height,
    doLayout spacing items rect false = Done (placed, height)
    ∧ Forall (λ g, rect_x rect ≤ rect_x g
                   ∧ (rect_x g = rect_x rect
                      ∨ rect_x g + rect_width g ≤ rect_right rect))
        placed.
Proof.
  intros Hitems Hpos Hx Hy Hwidth Hheight.
  destruct (layout_run spacing rect items Hitems Hx Hy Hwidth Hheight)
    as (st & Hrun & _ & _ & _ & _ & _ & Hplaced & Hrows).
  destruct (Hrows Hpos) as [_ Hfit].
  unfold doLayout. rewrite Hrun. cbn [and_then].
  eexists _, _. split; [done|].
  apply Forall_forall. intros g Hg. split.
  - by apply (proj1 (Forall_forall _ _) Hplaced g Hg).
  - by apply (proj1 (Forall_forall _ _) Hfit g Hg).
Qed.

Lemma flow_layout_rows_fit_witness :
  ∃ placed height,
    doLayout 4 thumbnails
      {| rect_x := 10; rect_y := 20; rect_width := 300; rect_height := 0 |}
      false
    = Done (placed, height)
    ∧ Forall (λ g, rect_x {| rect_x := 10; rect_y := 20; rect_width := 300;
                             rect_height := 0 |} ≤ rect_x g
                   ∧ (rect_x g
                      = rect_x {| rect_x := 10; rect_y := 20;
                                  rect_width := 300; rect_height := 0 |}
                      ∨ rect_x g + rect_width g
                        ≤ rect_right {| rect_x := 10; rect_y := 20;
                                        rect_width := 300;
                                        rect_height := 0 |}))
        placed.
Proof.
  apply (flow_layout_rows_fit 4 thumbnails
           {| rect_x := 10; rect_y := 20; rect_width := 300;
              rect_height := 0 |}).
  - repeat (apply Forall_cons; split; [unfold regular; simpl; lia|]).
    apply Forall_nil_2.
  - repeat (apply Forall_cons; split; [simpl; lia|]). apply Forall_nil_2.
  - vm_compute. discriminate.
  - vm_compute. discriminate.
  - vm_compute. discriminate.
  - vm_compute. discriminate.
Defined.

(** ** The category manager *)

Section ManagerFacts.

Lemma str_truthy_spec (s : string) :
  str_truthy s = true ↔ s ≠ ""%string.
Proof.
  unfold str_truthy. destruct (String.eqb_spec s "") as [->|Hne]; simpl.
  - split; [discriminate|done].
  - done.
Qed.

Lemma dict_get_elem {V} (d : dict V) (key : string) (v : V) :
  Dict.get d key = Some v → (key, v) ∈ d.
Proof.
  induction d as [|[k v'] d IH]; simpl; [done|].
  destruct (String.eqb_spec k key) as [->|Hne].
  - intros [= ->]. apply elem_of_cons. by left.
  - intros Hget. apply elem_of_cons. right. by apply IH.
Qed.

Lemma dict_get_None_keys {V} (d : dict V) (key : string) :
  Dict.get d key = None → key ∉ d.*1.
Proof.
  induction d as [|[k v'] d IH]; simpl.
  - intros _. apply not_elem_of_nil.
  - destruct (String.eqb_spec k key) as [->|Hne]; [done|].
    intros Hget. apply not_elem_of_cons. split; [done|]. by apply IH.
Qed.

Lemma dict_set_keys {V} (d : dict V) (key : string) (v : V) :
  is_Some (Dict.get d key) → (Dict.set d key v).*1 = d.*1.
Proof.
  induction d as [|[k v'] d IH]; cbn [Dict.get Dict.set].
  - by intros [? ?].
  - destruct (String.eqb_spec k key) as [->|Hne]; [done|].
    intros Hget. rewrite !fmap_cons. f_equal. by apply IH.
Qed.

Lemma dict_set_Forall {V} (P : string * V → Prop) (d : dict V)
    (key : string) (v : V) :
  Forall P d → P (key, v) → Forall P (Dict.set d key v).
Proof.
  intros Hd Hv. induction d as [|[k v'] d IH]; simpl.
  - by apply Forall_singleton.
  - apply Forall_cons in Hd as [Hk Hd].
    destruct (String.eqb_spec k key) as [->|Hne].
    + by apply Forall_cons.
    + apply Forall_cons. split; [done|]. by apply IH.
Qed.

Lemma del_key_spec {V} (d : dict V) (key : string) :
  is_Some (Dict.get d key) →
  ∃ d',
    del_key d key = Done d'
    ∧ d' `sublist_of` d
    ∧ ∀ k, k ≠ key → Dict.get d' k = Dict.get d k.
Proof.
  induction d as [|[k v] d IH]; simpl.
  - by intros [? ?].
  - destruct (String.eqb_spec k key) as [->|Hne].
    + intros _. exists d. split; [done|]. split.
      * by apply sublist_cons.
      * intros k Hk. simpl.
        destruct (String.eqb_spec key k); [congruence|done].
    + intros Hget. destruct (IH Hget) as (d' & -> & Hsub & Hother).
      exists ((k, v) :: d'). split; [done|]. split.
      * by apply sublist_skip.
      * intros k' Hk'. simpl. by rewrite Hother.
Qed.

Lemma insert_not_elem (l : list string) (i : nat) (x y : string) :
  y ∉ l → y ≠ x → y ∉ <[i := x]> l.
Proof.
  revert i. induction l as [|z l IH]; intros i Hl Hx; [done|].
  apply not_elem_of_cons in Hl as [Hz Hl].
  destruct i as [|i]; simpl; apply not_elem_of_cons; split; auto.
Qed.

Lemma insert_NoDup (l : list string) (i : nat) (x : string) :
  NoDup l → x ∉ l → NoDup (<[i := x]> l).
Proof.
  revert i. induction l as [|y l IH]; intros i Hl Hx; [done|].
  apply NoDup_cons in Hl as [Hy Hl].
  apply not_elem_of_cons in Hx as [Hxy Hx].
  destruct i as [|i]; simpl.
  - by apply NoDup_cons.
  - apply NoDup_cons. split; [|by apply IH].
    apply insert_not_elem; [done|congruence].
Qed.

Lemma tidy_group categories group values :
  tidy categories →
  Dict.get categories group = Some values →
  group ≠ ""%string ∧ NoDup values ∧ ""%string ∉ values.
Proof.
  intros [_ Hall] Hget%dict_get_elem.
  by apply (proj1 (Forall_forall _ _) Hall (group, values)).
Qed.

Lemma tidy_set categories group values values' :
  tidy categories →
  Dict.get categories group = Some values →
  NoDup values' → ""%string ∉ values' →
  tidy (Dict.set categories group values').
Proof.
  intros Htidy Hget Hnodup Hempty.
  destruct (tidy_group _ _ _ Htidy Hget) as (Hname & _ & _).
  destruct Htidy as [Hkeys Hall]. split.
  - by rewrite dict_set_keys by by rewrite Hget.
  - by apply dict_set_Forall.
Qed.

End ManagerFacts.

(** X22. An edit the category manager offers does not raise and keeps the
    categories tidy: group names distinct and non-empty, the values of
    each group distinct and non-empty. It changes no group but the one it
    works on. *)
Theorem manager_edit_keeps_tidy (strip : string → string)
    (categories : dict (list string)) (e : ManagerEdit) :
  tidy categories →
  offered categories e →
  ∃ categories',
    manager_edit strip categories e = Done categories'
    ∧ tidy categories'
    ∧ ∀ group, group ≠ edited_group strip e →
        Dict.get categories' group = Dict.get categories group.
Proof.
  intros Htidy Hoffered.
  destruct e as [entered|group confirmed|group value|group index edited
                |group index confirmed];
    cbn [manager_edit edited_group offered] in *.
  - unfold add_group.
    destruct (str_truthy (strip entered)) eqn:Hname; cbn [negb];
      [|by exists categories].
    rewrite dict_contains_get.
    destruct (Dict.get categories (strip entered)) as [values|] eqn:Hget;
      [by exists categories|].
    eexists. split; [done|]. cbn [fst]. split.
    + destruct Htidy as [Hkeys Hall]. split.
      * rewrite dict_set_new, fmap_app by done. simpl.
        apply NoDup_app. split; [done|]. split.
        -- intros k Hk Heq%list_elem_of_singleton.
           apply (dict_get_None_keys _ _ Hget). congruence.
        -- apply NoDup_singleton.
      * apply dict_set_Forall; [done|]. simpl.
        split; [by apply str_truthy_spec|]. split.
        -- apply NoDup_nil_2.
        -- apply not_elem_of_nil.
    + intros g Hg. by apply dict_get_set_ne.
  - unfold delete_group. destruct confirmed; [|by exists categories].
    destruct (del_key_spec categories group Hoffered)
      as (categories' & -> & Hsub & Hother).
    exists categories'. split; [done|]. split; [|done].
    destruct Htidy as [Hkeys Hall]. split.
    + eapply sublist_NoDup; [exact Hkeys|]. by apply fmap_sublist.
    + apply Forall_forall. intros entry Hentry.
      apply (proj1 (Forall_forall _ _) Hall).
      by eapply elem_of_sublist.
  - destruct Hoffered as [values Hget]. unfold add_value, Dict.getitem.
    destruct (str_truthy (strip value)) eqn:Hvalue; cbn [negb];
      [|by exists categories].
    rewrite Hget. cbn [and_then].
    destruct (str_in (strip value) values) eqn:Hin; cbn [and_then fst];
      [by exists categories|].
    destruct (tidy_group _ _ _ Htidy Hget) as (_ & Hnodup & Hempty).
    eexists. split; [done|]. split.
    + apply (tidy_set _ _ values); [done..| |].
      * apply NoDup_app. split; [done|]. split; [|apply NoDup_singleton].
        intros x Hx Heq%list_elem_of_singleton.
        apply str_in_not_elem in Hin. congruence.
      * apply not_elem_of_app. split; [done|].
        intros Heq%list_elem_of_singleton.
        apply str_truthy_spec in Hvalue. congruence.
    + intros g Hg. by apply dict_get_set_ne.
  - destruct Hoffered as (values & Hget & Hindex).
    destruct (tidy_group _ _ _ Htidy Hget) as (_ & Hnodup & Hempty).
    unfold value_changed, Dict.getitem. rewrite Hget. cbn [and_then].
    set (k := Z.to_nat index).
    assert ((k < length values)%nat) as Hk by (unfold Py.len in Hindex; lia).
    replace index with (Z.of_nat k) by lia.
    destruct (str_truthy (strip edited)) eqn:Hvalue; cbn [and_then].
    + destruct (str_in (strip edited) values) eqn:Hin; cbn [negb and_then].
      * rewrite getitem_nat.
        destruct (lookup_lt_is_Some_2 values k Hk) as [shown ->].
        by exists categories.
      * rewrite setitem_nat by done. cbn [lift and_then fst].
        eexists. split; [done|]. split.
        -- apply (tidy_set _ _ values); [done..| |].
           ++ apply insert_NoDup; [done|]. by apply str_in_not_elem.
           ++ apply insert_not_elem; [done|].
              intros Heq. apply str_truthy_spec in Hvalue. congruence.
        -- intros g Hg. by apply dict_get_set_ne.
    + rewrite getitem_nat.
      destruct (lookup_lt_is_Some_2 values k Hk) as [shown ->].
      by exists categories.
  - destruct Hoffered as (values & Hget & Hindex).
    destruct (tidy_group _ _ _ Htidy Hget) as (_ & Hnodup & Hempty).
    unfold delete_value, Dict.getitem. rewrite Hget. cbn [and_then].
    set (k := Z.to_nat index).
    assert ((k < length values)%nat) as Hk by (unfold Py.len in Hindex; lia).
    replace index with (Z.of_nat k) by lia.
    rewrite getitem_nat.
    destruct (lookup_lt_is_Some_2 values k Hk) as [shown ->].
    cbn [lift and_then].
    destruct confirmed; [|by exists categories].
    rewrite pop_nat by done. cbn [lift and_then].
    eexists. split; [done|]. split.
    + apply (tidy_set _ _ values); [done..| |].
      * eapply sublist_NoDup; [done|apply sublist_delete].
      * intros Hin. apply Hempty.
        eapply elem_of_sublist; [exact Hin|apply sublist_delete].
    + intros g Hg. by apply dict_get_set_ne.
Qed.

Lemma default_categories_tidy : tidy DEFAULT_CATEGORIES.
Proof.
  split.
  - apply (bool_decide_unpack _). by vm_compute.
  - repeat (apply Forall_cons; split;
            [split; [done|];
             split; apply (bool_decide_unpack _); by vm_compute|]).
    apply Forall_nil_2.
Qed.

Lemma manager_edit_keeps_tidy_witness :
  ∃ categories',
    manager_edit (λ s, s) DEFAULT_CATEGORIES
      (ChangeValue "Era" 1 "1850-1899")
    = Done categories'
    ∧ tidy categories'
    ∧ ∀ group,
        group ≠ edited_group (λ s, s) (ChangeValue "Era" 1 "1850-1899") →
        Dict.get categories' group = Dict.get DEFAULT_CATEGORIES group.
Proof.
  apply (manager_edit_keeps_tidy (λ s, s) DEFAULT_CATEGORIES
           (ChangeValue "Era" 1 "1850-1899")).
  - apply default_categories_tidy.
  - eexists. split; [reflexivity|]. vm_compute. split; [discriminate|done].
Defined.

(** ** Editing the details *)

Section DetailFacts.

Lemma assign_each_spec (assign : ImageItem → ImageItem)
    (objects : Ref → ImageItem) (sel : list Ref) :
  (∀ o, assign (assign o) = assign o) →
  ∀ r, assign_each assign objects sel r
       = if decide (r ∈ sel) then assign (objects r) else objects r.
Proof.
  intros Hidem. unfold assign_each. revert objects.
  induction sel as [|image sel IH]; intros objects r; [done|].
  cbn [foldl]. rewrite IH. unfold update.
  destruct (Nat.eqb_spec r image) as [->|Hne].
  - rewrite (decide_True (P := image ∈ image :: sel))
      by (apply elem_of_cons; by left).
    rewrite Hidem. by destruct (decide (image ∈ sel)).
  - destruct (decide (r ∈ sel)) as [Hin|Hout].
    + by rewrite decide_True by (apply elem_of_cons; by right).
    + rewrite decide_False; [done|].
      intros [?|?]%elem_of_cons; done.
Qed.

Lemma update_selected (assign : ImageItem → ImageItem)
    (w : MainWindow Ref) (objects : Ref → ImageItem) (sel : list Ref) :
  (∀ o, assign (assign o) = assign o) →
  get_selected_images w = Ok sel →
  ∃ objects',
    (do selected_images <- get_selected_images w;
     if negb (Py.truthy selected_images) then Ok objects
     else Ok (assign_each assign objects selected_images)) = Ok objects'
    ∧ ∀ r, objects' r
           = if decide (r ∈ sel) then assign (objects r) else objects r.
Proof.
  intros Hidem ->. rewrite bind_Ok. destruct sel as [|image sel].
  - exists objects. split; [done|]. intros r.
    rewrite decide_False; [done|]. apply not_elem_of_nil.
  - cbn [Py.truthy negb]. eexists. split; [done|].
    by apply assign_each_spec.
Qed.

End DetailFacts.

(** X23. [update_text], [update_comment] and [update_condition] give the
    new value to every selected image and to no other; the other attributes
    of the selected images stay as they were. *)
Theorem detail_edits_reach_selection (w : MainWindow Ref)
    (objects : Ref → ImageItem) (sel : list Ref) (value : string) :
  get_selected_images w = Ok sel →
  (∃ objects',
     update_text w objects value = Ok objects'
     ∧ ∀ r, objects' r
            = if decide (r ∈ sel) then with_text (objects r) value
              else objects r)
  ∧ (∃ objects',
       update_comment w objects value = Ok objects'
       ∧ ∀ r, objects' r
              = if decide (r ∈ sel) then with_comment (objects r) value
                else objects r)
  ∧ (∃ objects',
       update_condition w objects value = Ok objects'
       ∧ ∀ r, objects' r
              = if decide (r ∈ sel) then with_condition (objects r) value
                else objects r).
Proof.
  intros Hsel. split; [|split].
  - by apply (update_selected (λ image, with_text image value)).
  - by apply (update_selected (λ image, with_comment image value)).
  - by apply (update_selected (λ image, with_condition image value)).
Qed.

Lemma detail_edits_reach_selection_witness :
  (∃ objects',
     update_text (scenario_window "Single" 1) scenario_objects "recto"
     = Ok objects'
     ∧ ∀ r, objects' r
            = if decide (r ∈ [0; 1; 2; 3; 4; 5; 6]%nat)
              then with_text (scenario_objects r) "recto"
              else scenario_objects r)
  ∧ (∃ objects',
       update_comment (scenario_window "Single" 1) scenario_objects "recto"
       = Ok objects'
       ∧ ∀ r, objects' r
              = if decide (r ∈ [0; 1; 2; 3; 4; 5; 6]%nat)
                then with_comment (scenario_objects r) "recto"
                else scenario_objects r)
  ∧ (∃ objects',
       update_condition (scenario_window "Single" 1) scenario_objects "recto"
       = Ok objects'
       ∧ ∀ r, objects' r
              = if decide (r ∈ [0; 1; 2; 3; 4; 5; 6]%nat)
                then with_condition (scenario_objects r) "recto"
                else scenario_objects r).
Proof.
  apply (detail_edits_reach_selection (scenario_window "Single" 1)
           scenario_objects [0; 1; 2; 3; 4; 5; 6]%nat "recto").
  reflexivity.
Defined.

(** ** The interval widget *)

Section IntervalFacts.
Context {A : Type}.
Implicit Types (w : MainWindow A) (sel : list A).

Lemma count_by_one n : count 0 n 1 = n.
Proof. pose proof (count_ceiling n 1). lia. Qed.

Lemma count_by_two n : (2 ≤ n)%nat → count 0 n 2 ≠ n.
Proof. pose proof (count_ceiling n 2). lia. Qed.

Lemma interval_unused w sel m i i' :
  get_selected_images w = Ok sel →
  scan_mode_changed (mode_text m) = false →
  get_images_to_export (choose m i w) = get_images_to_export (choose m i' w).
Proof.
  intros Hsel Hhidden. destruct m; try discriminate Hhidden.
  - by rewrite !(export_single w sel).
  - by rewrite !(export_pair w sel).
  - by rewrite !(export_all w sel).
Qed.

Lemma interval_used w sel m :
  get_selected_images w = Ok sel → (2 ≤ length sel)%nat →
  scan_mode_changed (mode_text m) = true →
  get_images_to_export (choose m 1 w) ≠ get_images_to_export (choose m 2 w).
Proof.
  intros Hsel Hlen Hshown. destruct m; try discriminate Hshown.
  - rewrite !(export_group_of_x w sel) by (done || lia).
    intros [= Heq]. apply (f_equal length) in Heq.
    rewrite !chunks_length, count_by_one in Heq.
    by apply (count_by_two (length sel)).
  - rewrite (export_alternate_low w sel) by (done || lia).
    rewrite (export_alternate w sel) by (done || lia).
    intros [= Heq]. apply (f_equal length) in Heq.
    rewrite strides_length in Heq.
    destruct sel as [|x [|y sel]]; simpl in *; lia.
Qed.

End IntervalFacts.

(** X24. [scan_mode_changed] shows the interval widget exactly for the
    modes that read it: with at least two images selected, the groups of a
    mode whose widget is shown differ between interval 1 and interval 2,
    and the groups of a mode whose widget is hidden are the same for every
    interval. *)
Theorem interval_shown_iff_used {A} (w : MainWindow A) (sel : list A)
    (m : ScanMode) :
  get_selected_images w = Ok sel → (2 ≤ length sel)%nat →
  if scan_mode_changed (mode_text m)
  then get_images_to_export (choose m 1 w)
       ≠ get_images_to_export (choose m 2 w)
  else ∀ i i',
         get_images_to_export (choose m i w)
         = get_images_to_export (choose m i' w).
Proof.
  intros Hsel Hlen.
  destruct (scan_mode_changed (mode_text m)) eqn:Hshown.
  - by apply (interval_used w sel).
  - intros i i'. by apply (interval_unused w sel).
Qed.

Lemma interval_shown_iff_used_witness :
  if scan_mode_changed (mode_text Alternate)
  then get_images_to_export (choose Alternate 1 (scenario "Single" 1))
       ≠ get_images_to_export (choose Alternate 2 (scenario "Single" 1))
  else ∀ i i',
         get_images_to_export (choose Alternate i (scenario "Single" 1))
         = get_images_to_export (choose Alternate i' (scenario "Single" 1)).
Proof.
  apply (interval_shown_iff_used (scenario "Single" 1) scenario_entries
           Alternate).
  - reflexivity.
  - simpl. lia.
Defined.

(** X25. An [ImageMetadata] whose [custom_metadata] is not [None] is read
    back unchanged by [from_dict] from the dictionary [to_dict] makes of
    it, and every object [from_dict] makes is of that kind. *)
Theorem metadata_round_trip (m : Metadata.ImageMetadata)
    (data : dict pyvalue) :
  Metadata.custom_metadata m ≠ PyNone →
  Metadata.from_dict (Metadata.to_dict m) = m
  ∧ Metadata.custom_metadata (Metadata.from_dict data) ≠ PyNone
  ∧ Metadata.from_dict (Metadata.to_dict (Metadata.from_dict data))
    = Metadata.from_dict data.
Proof.
  intros Hcustom.
  assert (∀ m', Metadata.custom_metadata m' ≠ PyNone →
                Metadata.from_dict (Metadata.to_dict m') = m') as Hback.
  { intros [f p c t co cn d l a pr cu] Hcu. simpl in Hcu.
    unfold Metadata.from_dict, Metadata.to_dict, Metadata.init. simpl.
    by destruct cu. }
  assert (Metadata.custom_metadata (Metadata.from_dict data) ≠ PyNone)
    as Hmade.
  { unfold Metadata.from_dict, Metadata.init. simpl.
    by destruct (default (PyDict []) (Dict.get data "custom_metadata")). }
  split; [by apply Hback|]. split; [done|]. by apply Hback.
Qed.

Lemma metadata_round_trip_witness :
  let m :=
    Metadata.init (PyStr "a.png") (PyStr "10.0cm x 15.0cm") (PyStr "Postcard")
      (PyStr "") (PyStr "") (PyStr "Good") (PyStr "1905") (PyStr "")
      (PyStr "") (PyStr "") PyNone in
  Metadata.from_dict (Metadata.to_dict m) = m
  ∧ Metadata.custom_metadata
      (Metadata.from_dict [("filename"%string, PyStr "b.png");
                           ("custom_metadata"%string, PyNone)])
    ≠ PyNone
  ∧ Metadata.from_dict
      (Metadata.to_dict
         (Metadata.from_dict [("filename"%string, PyStr "b.png");
                              ("custom_metadata"%string, PyNone)]))
    = Metadata.from_dict [("filename"%string, PyStr "b.png");
                          ("custom_metadata"%string, PyNone)].
Proof.
  intros m.
  apply (metadata_round_trip m [("filename"%string, PyStr "b.png");
                                ("custom_metadata"%string, PyNone)]).
  discriminate.
Defined.
